(** * goreflector: a single-target HTTP reverse proxy (proxy.go)

    A shallow embedding of the forwarding engine of [proxy.go] together
    with the parts of the Go standard library it calls ([strings],
    [net], [net/textproto], [net/http]), and the verification of the
    header pipeline, the target URL resolver, the client-IP derivation,
    the error-to-status mapping and the response relay.

    Go strings are byte sequences: they are modelled by [string], whose
    characters are the 256 byte values.  Go maps are modelled by [gmap];
    a [range] loop over a map visits every entry once in an order the
    runtime chooses, which is modelled by an explicit list that is a
    permutation of the map's entries. *)

From Stdlib Require Import ZArith NArith Ascii String.
From stdpp Require Import base option list gmap fin_maps strings pretty.

Open Scope Z_scope.

(** ** Bytes and byte strings *)

Module Bytes.

Definition code (c : ascii) : N := N_of_ascii c.

Definition between (lo hi c : ascii) : bool :=
  (code lo <=? code c)%N && (code c <=? code hi)%N.

Definition isLower (c : ascii) : bool := between "a" "z" c.
Definition isUpper (c : ascii) : bool := between "A" "Z" c.
Definition isDigit (c : ascii) : bool := between "0" "9" c.

(** [const toLower = 'a' - 'A'] of net/textproto. *)
Definition toLower : N := 32.

Definition upcase (c : ascii) : ascii := ascii_of_N (code c - toLower).
Definition downcase (c : ascii) : ascii := ascii_of_N (code c + toLower).

(** ASCII lower-casing of one byte, the yardstick for "case-insensitive". *)
Definition fold (c : ascii) : ascii := if isUpper c then downcase c else c.

Definition eqb (a b : ascii) : bool := bool_decide (a = b).

(** The bytes of a Go string, and back. *)
Definition of_string : string → list ascii := list_ascii_of_string.
Definition to_string : list ascii → string := string_of_list_ascii.

Fixpoint all (P : ascii → bool) (s : string) : bool :=
  match s with
  | EmptyString => true
  | String c s' => P c && all P s'
  end.

Fixpoint lower (s : string) : string :=
  match s with
  | EmptyString => EmptyString
  | String c s' => String (fold c) (lower s')
  end.

(** Two names are equal up to ASCII letter case. *)
Definition EqualFold (a b : string) : Prop := lower a = lower b.

Global Instance EqualFold_dec a b : Decision (EqualFold a b).
Proof. unfold EqualFold. apply _. Defined.

End Bytes.

(** ** Package strings *)

Module GoStrings.

(** [strings.HasSuffix]. *)
Definition HasSuffix (s suffix : string) : bool :=
  bool_decide (Bytes.of_string suffix `suffix_of` Bytes.of_string s).

(** [strings.TrimSuffix]: [s] without the trailing [suffix], or [s]
    itself when it does not end with [suffix]. *)
Definition TrimSuffix (s suffix : string) : string :=
  if HasSuffix s suffix
  then Bytes.to_string
         (take (String.length s - String.length suffix) (Bytes.of_string s))
  else s.

(** [strings.Split] for a one-byte separator (the proxy splits on
    [","]): the substrings between the separators; never empty. *)
Fixpoint Split (s : string) (sep : ascii) : list string :=
  match s with
  | EmptyString => [EmptyString]
  | String c s' =>
      if Bytes.eqb c sep then EmptyString :: Split s' sep
      else match Split s' sep with
           | p :: ps => String c p :: ps
           | [] => [String c EmptyString]
           end
  end.

(** The UTF-8 encodings of the runes [unicode.IsSpace] accepts: the six
    ASCII spaces in one byte; U+0085 and U+00A0 in two; U+1680,
    U+2000..U+200A, U+2028, U+2029, U+202F, U+205F and U+3000 in three.
    [utf8.DecodeRune] and [utf8.DecodeLastRune] read exactly these byte
    sequences as white space; any other bytes decode to another rune or
    to [utf8.RuneError], which is not white space. *)
Definition asciiSpace (c : ascii) : bool :=
  match c with
  | "009" | "010" | "011" | "012" | "013" | " " => true
  | _ => false
  end%char.

Definition space2 (c1 c2 : ascii) : bool :=
  Bytes.eqb c1 "194" && (Bytes.eqb c2 "133" || Bytes.eqb c2 "160").

Definition space3 (c1 c2 c3 : ascii) : bool :=
  (Bytes.eqb c1 "225" && Bytes.eqb c2 "154" && Bytes.eqb c3 "128")
  || (Bytes.eqb c1 "226" && Bytes.eqb c2 "128"
      && (Bytes.between "128" "138" c3 || Bytes.eqb c3 "168"
          || Bytes.eqb c3 "169" || Bytes.eqb c3 "175"))
  || (Bytes.eqb c1 "226" && Bytes.eqb c2 "129" && Bytes.eqb c3 "159")
  || (Bytes.eqb c1 "227" && Bytes.eqb c2 "128" && Bytes.eqb c3 "128").

(** [strings.TrimLeftFunc(s, unicode.IsSpace)] on the bytes of [s]. *)
Fixpoint trimLeft (l : list ascii) : list ascii :=
  match l with
  | [] => []
  | c1 :: l1 =>
      if asciiSpace c1 then trimLeft l1
      else match l1 with
           | [] => l
           | c2 :: l2 =>
               if space2 c1 c2 then trimLeft l2
               else match l2 with
                    | [] => l
                    | c3 :: l3 => if space3 c1 c2 c3 then trimLeft l3 else l
                    end
           end
  end.

(** [strings.TrimRightFunc(s, unicode.IsSpace)] on the reversed bytes:
    [utf8.DecodeLastRune] reads the same encodings from the end. *)
Fixpoint trimRightRev (l : list ascii) : list ascii :=
  match l with
  | [] => []
  | c1 :: l1 =>
      if asciiSpace c1 then trimRightRev l1
      else match l1 with
           | [] => l
           | c2 :: l2 =>
               if space2 c2 c1 then trimRightRev l2
               else match l2 with
                    | [] => l
                    | c3 :: l3 => if space3 c3 c2 c1 then trimRightRev l3 else l
                    end
           end
  end.

(** [strings.TrimSpace]: leading and trailing white space removed.
    (Its ASCII fast path computes the same result.) *)
Definition TrimSpace (s : string) : string :=
  Bytes.to_string
    (reverse (trimRightRev (reverse (trimLeft (Bytes.of_string s))))).

(** [bytealg.IndexByteString]: position of the first [c], if any. *)
Fixpoint IndexByte (s : list ascii) (c : ascii) : option nat :=
  match s with
  | [] => None
  | b :: s' => if Bytes.eqb b c then Some 0%nat else S <$> IndexByte s' c
  end.

(** [bytealg.LastIndexByteString]: position of the last [c], if any. *)
Fixpoint LastIndexByte (s : list ascii) (c : ascii) : option nat :=
  match s with
  | [] => None
  | b :: s' =>
      match LastIndexByte s' c with
      | Some i => Some (S i)
      | None => if Bytes.eqb b c then Some 0%nat else None
      end
  end.

(** [strings.Index] for a one-byte separator, as [strings.SplitN] uses
    it: the text before the first [sep] and the text after it. *)
Fixpoint Cut (s : string) (sep : ascii) : option (string * string) :=
  match s with
  | EmptyString => None
  | String c s' =>
      if Bytes.eqb c sep then Some (EmptyString, s')
      else match Cut s' sep with
           | Some (before, after) => Some (String c before, after)
           | None => None
           end
  end.

Fixpoint splitAtMost (cuts : nat) (s : string) (sep : ascii) : list string :=
  match cuts with
  | O => [s]
  | S cuts' =>
      match Cut s sep with
      | None => [s]
      | Some (before, after) => before :: splitAtMost cuts' after sep
      end
  end.

(** [strings.SplitN] for a one-byte separator: no substring when [n] is
    zero, all of them when [n] is negative, and otherwise at most [n],
    the last one being the unsplit rest. *)
Definition SplitN (s : string) (sep : ascii) (n : Z) : list string :=
  if bool_decide (n = 0) then []
  else if bool_decide (n < 0) then Split s sep
  else splitAtMost (Z.to_nat (n - 1)) s sep.

End GoStrings.

(** ** Package net *)

Module GoNet.

Definition slice (s : list ascii) (i j : nat) : list ascii :=
  take (j - i) (drop i s).

Definition hasByte (s : list ascii) (c : ascii) : bool :=
  bool_decide (is_Some (GoStrings.IndexByte s c)).

(** [net.SplitHostPort]: splits ["host:port"], ["[host]:port"] into
    host and port; [None] stands for the [*AddrError] results. *)
Definition SplitHostPort (hostport : string) : option (string * string) :=
  let hp := Bytes.of_string hostport in
  match GoStrings.LastIndexByte hp ":" with
  | None => None (* missing port in address *)
  | Some i =>
      let bracketed :=
        match hp with
        | c :: _ => Bytes.eqb c "["
        | [] => false
        end in
      '(host, j, k) ←
        (if bracketed then
           match GoStrings.IndexByte hp "]" with
           | None => None (* missing ']' in address *)
           | Some e =>
               if bool_decide (S e = length hp) then None (* missing port *)
               else if bool_decide (S e = i) then Some (slice hp 1 e, 1%nat, S e)
               else None (* too many colons, or missing port *)
           end
         else
           let host := take i hp in
           if hasByte host ":" then None (* too many colons *)
           else Some (host, 0%nat, 0%nat));
      if hasByte (drop j hp) "[" then None (* unexpected '[' *)
      else if hasByte (drop k hp) "]" then None (* unexpected ']' *)
      else Some (Bytes.to_string host, Bytes.to_string (drop (S i) hp))
  end.

End GoNet.

(** ** Package net/textproto and the header map of net/http *)

Module GoHttp.

(** [validHeaderFieldByte]: the token bytes of RFC 7230. *)
Definition validHeaderFieldByte (c : ascii) : bool :=
  Bytes.isDigit c || Bytes.isLower c || Bytes.isUpper c
  || bool_decide (c ∈ Bytes.of_string "!#$%&'*+-.^_`|~").

(** The canonicalising loop of [canonicalMIMEHeaderKey]: upper case
    for the first letter and after each dash, lower case elsewhere. *)
Definition canonStep (upper : bool) (c : ascii) : ascii :=
  if upper && Bytes.isLower c then Bytes.upcase c
  else if negb upper && Bytes.isUpper c then Bytes.downcase c
  else c.

Fixpoint canonLoop (upper : bool) (a : string) : string :=
  match a with
  | EmptyString => EmptyString
  | String c a' =>
      let c' := canonStep upper c in
      String c' (canonLoop (Bytes.eqb c' "-") a')
  end.

(** [http.CanonicalHeaderKey] = [textproto.CanonicalMIMEHeaderKey]:
    a key holding a space or any other non-token byte is returned
    unchanged. *)
Definition CanonicalHeaderKey (s : string) : string :=
  if Bytes.all validHeaderFieldByte s then canonLoop true s else s.

(** [http.Header]: [map[string][]string]. *)
Abbreviation Header := (gmap string (list string)).

Definition Values (h : Header) (key : string) : list string :=
  default [] (h !! CanonicalHeaderKey key).

Definition Get (h : Header) (key : string) : string :=
  match Values h key with
  | v :: _ => v
  | [] => EmptyString
  end.

Definition Add (h : Header) (key value : string) : Header :=
  let k := CanonicalHeaderKey key in
  <[k := default [] (h !! k) ++ [value]]> h.

Definition Set_ (h : Header) (key value : string) : Header :=
  <[CanonicalHeaderKey key := [value]]> h.

(** [validMethod] of net/http: a non-empty token. *)
Definition validMethod (method : string) : bool :=
  negb (bool_decide (method = EmptyString))
  && Bytes.all validHeaderFieldByte method.

(** [removeEmptyPort] of net/http: drops a trailing [":"] that
    introduces an empty port. *)
Definition hasPort (s : string) : bool :=
  match GoStrings.LastIndexByte (Bytes.of_string s) ":",
        GoStrings.LastIndexByte (Bytes.of_string s) "]" with
  | Some i, Some j => bool_decide (j < i)%nat
  | Some _, None => true
  | None, _ => false
  end.

Definition removeEmptyPort (host : string) : string :=
  if hasPort host then GoStrings.TrimSuffix host ":" else host.

End GoHttp.

(** ** The data model of proxy.go *)

(** [url.URL], the fields the proxy reads and writes. *)
Record URL := mkURL {
  Scheme : string;
  URLHost : string;
  Path : string;
  RawQuery : string
}.

(** [http.Request]: [TLS] is [true] when the [*tls.ConnectionState] is
    not nil; [Body] is the request's byte stream. *)
Record Request := mkRequest {
  Method : string;
  ReqURL : URL;
  ReqHeader : GoHttp.Header;
  Body : string;
  Host : string;
  RemoteAddr : string;
  TLS : bool
}.

Definition withHeader (r : Request) (h : GoHttp.Header) : Request :=
  mkRequest (Method r) (ReqURL r) h (Body r) (Host r) (RemoteAddr r) (TLS r).

Definition withHost (r : Request) (host : string) : Request :=
  mkRequest (Method r) (ReqURL r) (ReqHeader r) (Body r) host (RemoteAddr r) (TLS r).

(** [time.Duration]: nanoseconds. *)
Definition Second : Z := 1000000000.

(** [type ProxyConfig struct]; [TargetURL] is a pointer and may be nil. *)
Record ProxyConfig := mkProxyConfig {
  ListenAddr : string;
  TargetURL : option URL;
  Timeout : Z;
  CustomHeaders : gmap string string
}.

(** [*log.Logger]: a logger is identified by the sink it writes to. *)
Inductive Logger :=
  | DefaultLogger
  | SinkLogger (sink : nat).

(** [http.Transport] and [http.Client] as [NewProxy] configures them.
    [FollowRedirects] is [false]: [CheckRedirect] always answers
    [http.ErrUseLastResponse]. *)
Record Transport := mkTransport {
  DialTimeout : Z;
  DialKeepAlive : Z;
  TLSMinVersion : Z;
  MaxIdleConns : Z;
  IdleConnTimeout : Z;
  TLSHandshakeTimeout : Z;
  ExpectContinueTimeout : Z
}.

Record Client := mkClient {
  ClientTransport : Transport;
  ClientTimeout : Z;
  FollowRedirects : bool
}.

Definition VersionTLS12 : Z := 771.

(** [type Proxy struct]. *)
Record Proxy := mkProxy {
  config : ProxyConfig;
  httpClient : Client;
  logger : Logger
}.

(** ** NewProxy *)

(** [lg] is the [*log.Logger] argument, [None] when it is nil; the
    result is the proxy or the message of the error. *)
Definition NewProxy (cfg : ProxyConfig) (lg : option Logger) : Proxy + string :=
  match TargetURL cfg with
  | None => inr "target URL cannot be nil"
  | Some _ =>
      if bool_decide (ListenAddr cfg = "") then inr "listen address cannot be empty"
      else
        let cfg :=
          if bool_decide (Timeout cfg = 0)
          then mkProxyConfig (ListenAddr cfg) (TargetURL cfg) (30 * Second)
                 (CustomHeaders cfg)
          else cfg in
        let lg := match lg with None => DefaultLogger | Some l => l end in
        let transport :=
          mkTransport (10 * Second) (30 * Second) VersionTLS12 100
            (90 * Second) (10 * Second) (1 * Second) in
        let client := mkClient transport (Timeout cfg) false in
        inl (mkProxy cfg client lg)
  end.

(** ** The target URL resolver *)

(** A nil [p.config.TargetURL] makes the Go code panic on the first
    field access; the panic is the [None] result. *)
Definition buildTargetURL (p : Proxy) (r : Request) : option URL :=
  t ← TargetURL (config p);
  let targetURL := mkURL (Scheme t) (URLHost t) (Path (ReqURL r)) (RawQuery (ReqURL r)) in
  Some (if bool_decide (Path t ≠ "") && bool_decide (Path t ≠ "/")
        then mkURL (Scheme targetURL) (URLHost targetURL)
               (GoStrings.TrimSuffix (Path t) "/" +:+ Path (ReqURL r))
               (RawQuery targetURL)
        else targetURL).

(** ** The header pipeline *)

Definition skipHeaders : gmap string bool :=
  list_to_map
    [("Connection", true); ("Keep-Alive", true); ("Proxy-Authenticate", true);
     ("Proxy-Authorization", true); ("Te", true); ("Trailers", true);
     ("Transfer-Encoding", true); ("Upgrade", true)].

(** A missing key of a Go [map[string]bool] reads as [false]. *)
Definition shouldSkipHeader (header : string) : bool :=
  default false (skipHeaders !! GoHttp.CanonicalHeaderKey header).

(** The first loop of [copyHeaders]: [src] is the inbound header map in
    the order the [range] visits it. *)
Definition copyLoop (src : list (string * list string)) (dst : GoHttp.Header)
  : GoHttp.Header :=
  foldl (λ d kv,
           if shouldSkipHeader kv.1 then d
           else foldl (λ d' value, GoHttp.Add d' kv.1 value) d kv.2)
        dst src.

(** The last loop of [copyHeaders] over the custom headers in the order
    the [range] visits them. *)
Definition customLoop (custom : list (string * string)) (dst : Request) : Request :=
  foldl (λ d nv,
           if bool_decide (GoHttp.CanonicalHeaderKey nv.1 = "Host")
           then withHost d nv.2
           else withHeader d (GoHttp.Set_ (ReqHeader d) nv.1 nv.2))
        dst custom.

(** [copyHeaders]: the copy loop, the Host rewrite, the custom headers.
    The two lists are the orders in which the two [range] loops visit
    [src.Header] and [p.config.CustomHeaders]; [None] is the panic on a
    nil target URL. *)
Definition copyHeaders (p : Proxy) (srcRange : list (string * list string))
    (customRange : list (string * string)) (dst : Request) : option Request :=
  let dst := withHeader dst (copyLoop srcRange (ReqHeader dst)) in
  t ← TargetURL (config p);
  let dst := withHost dst (URLHost t) in
  Some (customLoop customRange dst).

(** [getClientIP]; [parts[0]] exists because [strings.Split] never
    returns an empty slice for a non-empty separator. *)
Definition getClientIP (r : Request) : string :=
  let xff := GoHttp.Get (ReqHeader r) "X-Forwarded-For" in
  if bool_decide (xff ≠ "") then
    let parts := GoStrings.Split xff "," in
    GoStrings.TrimSpace (default "" (parts !! 0%nat))
  else
    let realIP := GoHttp.Get (ReqHeader r) "X-Real-IP" in
    if bool_decide (realIP ≠ "") then realIP
    else
      match GoNet.SplitHostPort (RemoteAddr r) with
      | None => RemoteAddr r
      | Some (host, _) => host
      end.

(** [addForwardedHeaders]; the method does not use its receiver. *)
Definition addForwardedHeaders (src dst : Request) : Request :=
  let clientIP := getClientIP src in
  let dst :=
    if bool_decide (clientIP ≠ "") then
      let prior := GoHttp.Get (ReqHeader dst) "X-Forwarded-For" in
      let clientIP :=
        if bool_decide (prior ≠ "") then prior +:+ ", " +:+ clientIP else clientIP in
      withHeader dst (GoHttp.Set_ (ReqHeader dst) "X-Forwarded-For" clientIP)
    else dst in
  let dst :=
    if bool_decide (Host src ≠ "")
    then withHeader dst (GoHttp.Set_ (ReqHeader dst) "X-Forwarded-Host" (Host src))
    else dst in
  let scheme := if TLS src then "https" else "http" in
  withHeader dst (GoHttp.Set_ (ReqHeader dst) "X-Forwarded-Proto" scheme).

(** ** The environment of a request *)

(** [*http.Response]. *)
Record Response := mkResponse {
  StatusCode : Z;
  RespHeader : GoHttp.Header;
  RespBody : string
}.

(** Go [error] values the engine can meet: the method error that
    [http.NewRequest] builds itself, and any other library error with
    its message. *)
Inductive error :=
  | InvalidMethod (method : string)
  | LibraryError (msg : string).

(** What the Go runtime and the outside world decide: how a URL prints
    and parses, how [%q] quotes, the order in which each [range] visits
    its map, what the transport answers, and how far [io.Copy] gets
    (the bytes that reached the writer, and the error that stopped it). *)
Record Runtime := mkRuntime {
  URLString : URL → string;
  ParseURL : string → URL + error;
  Quote : string → string;
  rangeRequest : GoHttp.Header → list (string * list string);
  rangeCustom : gmap string string → list (string * string);
  rangeResponse : GoHttp.Header → list (string * list string);
  Do : Client → Request → Response + error;
  Copy : Response → string * option error
}.

(** Every [range] visits each entry of its map exactly once. *)
Record RangeOK (rt : Runtime) : Prop := mkRangeOK {
  rangeRequest_perm : ∀ h, rangeRequest rt h ≡ₚ map_to_list h;
  rangeCustom_perm : ∀ c, rangeCustom rt c ≡ₚ map_to_list c;
  rangeResponse_perm : ∀ h, rangeResponse rt h ≡ₚ map_to_list h
}.

Definition errorText (rt : Runtime) (e : error) : string :=
  match e with
  | InvalidMethod m => "net/http: invalid method " +:+ Quote rt m
  | LibraryError msg => msg
  end.

(** [http.NewRequest]: a request with an empty header map. *)
Definition NewRequest (rt : Runtime) (method url body : string) : Request + error :=
  let method := if bool_decide (method = "") then "GET" else method in
  if negb (GoHttp.validMethod method) then inr (InvalidMethod method)
  else
    match ParseURL rt url with
    | inr e => inr e
    | inl u =>
        let u := mkURL (Scheme u) (GoHttp.removeEmptyPort (URLHost u)) (Path u)
                   (RawQuery u) in
        inl (mkRequest method u ∅ body (URLHost u) "" false)
    end.

(** [http.ResponseWriter], as the server of net/http implements it: the
    header map the handler edits, the informational responses sent so
    far, each with the header map it was sent from, the status once
    [WriteHeader] has fixed it together with the copy of the header map
    taken at that moment, which is what the response goes out with, and
    the body bytes written so far. *)
Record ResponseWriter := mkWriter {
  wHeader : GoHttp.Header;
  wInterim : list (Z * GoHttp.Header);
  wStatus : option Z;
  wSnapshot : option GoHttp.Header;
  wBody : string
}.

Definition newWriter : ResponseWriter := mkWriter ∅ [] None None "".

(** The observable state of one request: the log lines with the logger
    that printed them, the caller's response writer, the requests handed
    to the forwarding client, and the number of response bodies closed. *)
Record World := mkWorld {
  logged : list (Logger * string);
  writer : ResponseWriter;
  sent : list Request;
  closed : nat
}.

Definition newWorld : World := mkWorld [] newWriter [] 0.

(** A computation that reads and updates the world, or panics: [None]
    is a panic, and the world a panic leaves behind, deferred calls
    included, is not looked at. *)
Definition M (A : Type) : Type := World → option (A * World).

Definition ret {A} (a : A) : M A := λ w, Some (a, w).
Definition bind {A B} (m : M A) (f : A → M B) : M B :=
  λ w, match m w with
       | None => None
       | Some (a, w') => f a w'
       end.
Definition orPanic {A} (o : option A) : M A :=
  λ w, match o with None => None | Some a => Some (a, w) end.

Declare Scope go_scope.
Delimit Scope go_scope with go.
Notation "x <- m ;; k" := (bind m (λ x, k))
  (at level 100, m at next level, right associativity) : go_scope.
Notation "m ;; k" := (bind m (λ _, k))
  (at level 100, right associativity) : go_scope.
Open Scope go_scope.

Definition Printf (l : Logger) (line : string) : M unit :=
  λ w, Some ((), mkWorld (logged w ++ [(l, line)]) (writer w) (sent w) (closed w)).

Definition onWriter (f : ResponseWriter → ResponseWriter) : M unit :=
  λ w, Some ((), mkWorld (logged w) (f (writer w)) (sent w) (closed w)).

Definition StatusOK : Z := 200.
Definition StatusSwitchingProtocols : Z := 101.

(** [w.WriteHeader].  A call after the status is fixed does nothing.
    Otherwise [checkWriteHeaderCode] panics on a code below 100 or above
    999; an informational code, 1xx other than 101, is sent at once
    with the header map as it is and fixes nothing; any other code fixes
    the status and the header map: what the handler does to the map
    later is not part of the response. *)
Definition WriteHeader (code : Z) : M unit :=
  λ w,
    let rw := writer w in
    match wStatus rw with
    | Some _ => Some ((), w)
    | None =>
        if bool_decide (code < 100) || bool_decide (code > 999) then None
        else if bool_decide (code >= 100) && bool_decide (code ≤ 199)
                && bool_decide (code ≠ StatusSwitchingProtocols)
        then
          onWriter (λ _, mkWriter (wHeader rw) (wInterim rw ++ [(code, wHeader rw)])
                           None (wSnapshot rw) (wBody rw)) w
        else
          onWriter (λ _, mkWriter (wHeader rw) (wInterim rw) (Some code)
                           (Some (wHeader rw)) (wBody rw)) w
    end.

(** [w.Write]: an implicit [WriteHeader(StatusOK)] if no status is fixed
    yet. *)
Definition Write (data : string) : M unit :=
  WriteHeader StatusOK ;;
  onWriter (λ rw,
    mkWriter (wHeader rw) (wInterim rw) (wStatus rw) (wSnapshot rw)
      (wBody rw +:+ data)).

Definition HeaderSet (key value : string) : M unit :=
  onWriter (λ rw,
    mkWriter (GoHttp.Set_ (wHeader rw) key value) (wInterim rw) (wStatus rw)
      (wSnapshot rw) (wBody rw)).

Definition addValue (key value : string) (rw : ResponseWriter) : ResponseWriter :=
  mkWriter (GoHttp.Add (wHeader rw) key value) (wInterim rw) (wStatus rw)
    (wSnapshot rw) (wBody rw).

Definition HeaderAdd (key value : string) : M unit := onWriter (addValue key value).

Definition StatusInternalServerError : Z := 500.
Definition StatusBadGateway : Z := 502.

(** [http.Error]. *)
Definition httpError (msg : string) (code : Z) : M unit :=
  HeaderSet "Content-Type" "text/plain; charset=utf-8" ;;
  HeaderSet "X-Content-Type-Options" "nosniff" ;;
  WriteHeader code ;;
  Write (msg +:+ String "010" "").

(** [p.httpClient.Do]: the request is handed to the transport. *)
Definition clientDo (rt : Runtime) (c : Client) (req : Request) : M (Response + error) :=
  λ w, Some (Do rt c req,
             mkWorld (logged w) (writer w) (sent w ++ [req]) (closed w)).

(** [resp.Body.Close], deferred in [ServeHTTP]. *)
Definition closeBody : M unit :=
  λ w, Some ((), mkWorld (logged w) (writer w) (sent w) (S (closed w))).

Fixpoint forEach {A} (l : list A) (body : A → M unit) : M unit :=
  match l with
  | [] => ret ()
  | a :: l' => body a ;; forEach l' body
  end.

(** [io.Copy(w, resp.Body)]. *)
Definition ioCopy (rt : Runtime) (resp : Response) : M (option error) :=
  let '(delivered, err) := Copy rt resp in
  (if bool_decide (delivered = "") then ret () else Write delivered) ;;
  ret err.

(** ** ServeHTTP *)

Definition ServeHTTP (rt : Runtime) (p : Proxy) (r : Request) : M unit :=
  targetURL <- orPanic (buildTargetURL p r) ;;
  match NewRequest rt (Method r) (URLString rt targetURL) (Body r) with
  | inr err =>
      Printf (logger p) ("Error creating proxy request: " +:+ errorText rt err) ;;
      httpError "Failed to create proxy request" StatusInternalServerError
  | inl proxyReq =>
      proxyReq <- orPanic (copyHeaders p (rangeRequest rt (ReqHeader r))
                             (rangeCustom rt (CustomHeaders (config p))) proxyReq) ;;
      let proxyReq := addForwardedHeaders r proxyReq in
      Printf (logger p)
        (Method r +:+ " " +:+ Path (ReqURL r) +:+ " -> " +:+ URLString rt targetURL) ;;
      res <- clientDo rt (httpClient p) proxyReq ;;
      match res with
      | inr err =>
          Printf (logger p) ("Error proxying request: " +:+ errorText rt err) ;;
          httpError "Failed to proxy request" StatusBadGateway
      | inl resp =>
          forEach (rangeResponse rt (RespHeader resp))
            (λ kv, forEach kv.2 (λ value, HeaderAdd kv.1 value)) ;;
          WriteHeader (StatusCode resp) ;;
          err <- ioCopy rt resp ;;
          match err with
          | Some e => Printf (logger p) ("Error copying response body: " +:+ errorText rt e)
          | None => ret ()
          end ;;
          closeBody
      end
  end.

(** The outbound request as [copyHeaders] leaves it, and as [ServeHTTP]
    hands it to the forwarding client after [addForwardedHeaders], when
    the construction gets that far. *)
Definition prepared (rt : Runtime) (p : Proxy) (r : Request) : option Request :=
  targetURL ← buildTargetURL p r;
  match NewRequest rt (Method r) (URLString rt targetURL) (Body r) with
  | inr _ => None
  | inl proxyReq =>
      copyHeaders p (rangeRequest rt (ReqHeader r))
        (rangeCustom rt (CustomHeaders (config p))) proxyReq
  end.

Definition outbound (rt : Runtime) (p : Proxy) (r : Request) : option Request :=
  addForwardedHeaders r <$> prepared rt p r.

(** ** Start *)

(** [http.Server] as [Start] configures it. *)
Record Server := mkServer {
  Addr : string;
  Handler : Proxy;
  ReadTimeout : Z;
  WriteTimeout : Z;
  IdleTimeout : Z
}.

(** [Start]: one log line, then [ListenAndServe], whose result (the
    error that ended the server, if any) the environment decides. *)
Definition Start (rt : Runtime) (listenAndServe : Server → option error) (p : Proxy)
  : M (option error) :=
  t <- orPanic (TargetURL (config p)) ;;
  Printf (logger p)
    ("Starting proxy server on " +:+ ListenAddr (config p) +:+ ", forwarding to "
     +:+ URLString rt t) ;;
  ret (listenAndServe
         (mkServer (ListenAddr (config p)) p (15 * Second) (15 * Second) (60 * Second))).

(** ** main.go *)

(** Go's [int] and [time.Duration] are 64-bit: a product wraps around. *)
Definition wrap64 (z : Z) : Z := (z + 2 ^ 63) mod 2 ^ 64 - 2 ^ 63.

Module Main.

Definition version : string := "1.0.0".

Record Options := mkOptions {
  Port : Z;
  TargetURL : string;
  Timeout : Z;
  Verbose : bool;
  ShowVersion : bool;
  Headers : list string
}.

(** The errors [parseFlags], [parseHeaders] and [validateOptions] build
    with [fmt.Errorf], one constructor per format string. *)
Inductive Error :=
  | TargetRequired
  | InvalidHeaderFormat (header : string)
  | EmptyHeaderName (header : string)
  | InvalidPort (port : Z)
  | InvalidTimeout (timeout : Z)
  | EmptyTargetURL
  | InvalidTargetURL (cause : error).

Definition text (rt : Runtime) (e : Error) : string :=
  match e with
  | TargetRequired => "target URL is required"
  | InvalidHeaderFormat header =>
      "invalid header format: " +:+ Quote rt header +:+ " (expected 'Name: Value')"
  | EmptyHeaderName header =>
      "invalid header format: " +:+ Quote rt header +:+ " (header name cannot be empty)"
  | InvalidPort port =>
      "invalid port: " +:+ pretty port +:+ " (must be between 1 and 65535)"
  | InvalidTimeout timeout =>
      "invalid timeout: " +:+ pretty timeout +:+ " (must be positive)"
  | EmptyTargetURL => "target URL cannot be empty"
  | InvalidTargetURL cause => "invalid target URL: " +:+ errorText rt cause
  end.

(** The body of the loop of [parseHeaders]: the entry one header
    specification contributes, or the error that ends the loop. *)
Definition parseHeader (header : string) : string * string + Error :=
  match GoStrings.SplitN header ":" 2 with
  | [part0; part1] =>
      let name := GoStrings.TrimSpace part0 in
      let value := GoStrings.TrimSpace part1 in
      if bool_decide (name = "") then inr (EmptyHeaderName header)
      else inl (name, value)
  | _ => inr (InvalidHeaderFormat header)
  end.

Fixpoint parseHeadersInto (result : gmap string string) (headers : list string)
  : gmap string string + Error :=
  match headers with
  | [] => inl result
  | header :: rest =>
      match parseHeader header with
      | inr err => inr err
      | inl (name, value) => parseHeadersInto (<[name := value]> result) rest
      end
  end.

Definition parseHeaders (headers : list string) : gmap string string + Error :=
  parseHeadersInto ∅ headers.

(** [validateOptions]: [None] is the nil error. *)
Definition validateOptions (rt : Runtime) (opts : Options) : option Error :=
  if bool_decide (Port opts < 1) || bool_decide (Port opts > 65535)
  then Some (InvalidPort (Port opts))
  else if bool_decide (Timeout opts < 1) then Some (InvalidTimeout (Timeout opts))
  else if bool_decide (TargetURL opts = "") then Some EmptyTargetURL
  else match ParseURL rt (TargetURL opts) with
       | inr err => Some (InvalidTargetURL err)
       | inl _ => None
       end.

(** The sinks of the logger [main] builds: standard output, or
    [io.Discard] unless [-v] was given. *)
Definition Stdout : nat := 1.
Definition Discard : nat := 0.

(** What one run of the program leaves behind: the exit code, what it
    wrote to standard output and standard error, the proxy it served
    with, if it got that far, and the lines that proxy's logger got. *)
Record Run := mkRun {
  exitCode : Z;
  stdout : list string;
  stderr : list string;
  served : option Proxy;
  serverLog : list (Logger * string)
}.

Definition exit1 (out err : list string) : Run := mkRun 1 out err None [].

Definition newline : string := String "010" "".

(** [main], from the result of [parseFlags] on: [usage] is what
    [flag.Usage] prints.  [None] is a panic. *)
Definition main (rt : Runtime) (usage : string)
    (listenAndServe : Server → option error) (flags : Options + Error) : option Run :=
  match flags with
  | inr err => Some (exit1 [] ["Error: " +:+ text rt err +:+ newline +:+ newline; usage])
  | inl opts =>
  match validateOptions rt opts with
  | Some err => Some (exit1 [] ["Error: " +:+ text rt err +:+ newline +:+ newline; usage])
  | None =>
  match ParseURL rt (TargetURL opts) with
  | inr err =>
      Some (exit1 [] ["Error parsing target URL: " +:+ errorText rt err +:+ newline])
  | inl targetURL =>
  if bool_decide (Scheme targetURL ≠ "http") && bool_decide (Scheme targetURL ≠ "https")
  then Some (exit1 [] ["Error: target URL must use http or https scheme" +:+ newline])
  else
  let logger := SinkLogger (if Verbose opts then Stdout else Discard) in
  match parseHeaders (Headers opts) with
  | inr err =>
      Some (exit1 [] ["Error parsing headers: " +:+ text rt err +:+ newline])
  | inl customHeaders =>
  let config :=
    mkProxyConfig (":" +:+ pretty (Port opts)) (Some targetURL)
      (wrap64 (wrap64 (Timeout opts) * Second)) customHeaders in
  match NewProxy config (Some logger) with
  | inr err => Some (exit1 [] ["Error creating proxy: " +:+ err +:+ newline])
  | inl proxy =>
  let out :=
    ["Starting goreflector v" +:+ version +:+ newline;
     "Listening on: http://0.0.0.0:" +:+ pretty (Port opts) +:+ newline;
     "Proxying to:  " +:+ URLString rt targetURL +:+ newline] in
  '(err, w) ← Start rt listenAndServe proxy newWorld;
  Some (match err with
        | Some e =>
            mkRun 1 out ["Error starting proxy: " +:+ errorText rt e +:+ newline]
              (Some proxy) (logged w)
        | None => mkRun 0 out [] (Some proxy) (logged w)
        end)
  end end end end end.

End Main.

(** ** Reading the header maps

    The values an iterated header map carries for the canonical key [K],
    in the order the [range] visits its entries; and the value of the
    last custom header the [range] visits for the canonical key [K]. *)

Definition carriedAt (K : string) (src : list (string * list string)) : list string :=
  mjoin (snd <$> filter (λ kv, GoHttp.CanonicalHeaderKey kv.1 = K) src).

Definition carried (src : list (string * list string)) (name : string) : list string :=
  carriedAt (GoHttp.CanonicalHeaderKey name) src.

Definition lastOverride (K : string) (custom : list (string * string)) : option string :=
  last (snd <$> filter (λ nv, GoHttp.CanonicalHeaderKey nv.1 = K) custom).

(** The hop-by-hop names of the header pipeline. *)
Definition hopByHop : list string :=
  ["Connection"; "Keep-Alive"; "Proxy-Authenticate"; "Proxy-Authorization";
   "Te"; "Trailers"; "Transfer-Encoding"; "Upgrade"].

Definition isHopByHop (name : string) : Prop :=
  ∃ hop, hop ∈ hopByHop ∧ Bytes.EqualFold name hop.

(** The keys of a header map are in canonical form, as they are in every
    map built by the server's parser or by [Add] and [Set]. *)
Definition canonicalKeys {V} (h : gmap string V) : Prop :=
  ∀ k, is_Some (h !! k) → GoHttp.CanonicalHeaderKey k = k.

(** The header map a relay of the entries [src] builds on top of [h]:
    every value of every entry is added under its key. *)
Definition relayed (src : list (string * list string)) (h : GoHttp.Header)
  : GoHttp.Header :=
  foldl (λ d kv, foldl (λ d' value, GoHttp.Add d' kv.1 value) d kv.2) h src.

(** The line [ServeHTTP] logs before it dispatches. *)
Definition accessLine (rt : Runtime) (r : Request) (targetURL : URL) : string :=
  Method r +:+ " " +:+ Path (ReqURL r) +:+ " -> " +:+ URLString rt targetURL.

(** The status codes [WriteHeader] fixes the response with, and those
    it sends as informational responses. *)
Definition finalCode (code : Z) : Prop := code = 101 ∨ 200 ≤ code ≤ 999.
Definition informationalCode (code : Z) : Prop := 100 ≤ code ≤ 199 ∧ code ≠ 101.

(** The caller's writer after [http.Error] with a final code: the two
    headers set and, unless a status was fixed before, the status fixed
    with them. *)
Definition errorReply (rw : ResponseWriter) (msg : string) (code : Z) : ResponseWriter :=
  let h := GoHttp.Set_ (GoHttp.Set_ (wHeader rw) "Content-Type"
                          "text/plain; charset=utf-8")
             "X-Content-Type-Options" "nosniff" in
  mkWriter h (wInterim rw)
    (Some (default code (wStatus rw)))
    (match wStatus rw with None => Some h | Some _ => wSnapshot rw end)
    (wBody rw +:+ msg +:+ String "010" "").

(** The caller's writer, not yet started, after the relay of a response
    with a final status code: the headers added, the status fixed with
    them, the delivered body bytes appended. *)
Definition relayReply (rt : Runtime) (rw : ResponseWriter) (resp : Response)
  : ResponseWriter :=
  let h := relayed (rangeResponse rt (RespHeader resp)) (wHeader rw) in
  mkWriter h (wInterim rw) (Some (StatusCode resp)) (Some h)
    (wBody rw +:+ (Copy rt resp).1).

(** The same after the relay of a response with an informational status
    code: the headers go out with an informational response, and the
    status is the 200 of the first body write, if there is one. *)
Definition interimReply (rt : Runtime) (rw : ResponseWriter) (resp : Response)
  : ResponseWriter :=
  let h := relayed (rangeResponse rt (RespHeader resp)) (wHeader rw) in
  let delivered := (Copy rt resp).1 in
  mkWriter h (wInterim rw ++ [(StatusCode resp, h)])
    (if bool_decide (delivered = "") then None else Some 200)
    (if bool_decide (delivered = "") then wSnapshot rw else Some h)
    (wBody rw +:+ delivered).

(** The caller's writer after the relay loop, before [WriteHeader]. *)
Definition headersRelayed (rt : Runtime) (rw : ResponseWriter) (resp : Response)
  : ResponseWriter :=
  mkWriter (relayed (rangeResponse rt (RespHeader resp)) (wHeader rw))
    (wInterim rw) (wStatus rw) (wSnapshot rw) (wBody rw).

Definition copyErrorLines (rt : Runtime) (p : Proxy) (resp : Response)
  : list (Logger * string) :=
  match (Copy rt resp).2 with
  | Some e => [(logger p, "Error copying response body: " +:+ errorText rt e)]
  | None => []
  end.

(** ** A concrete environment

    A runtime for running the engine on concrete requests: URLs print as
    [scheme://host/path?query] and parse back, every [range] takes the
    order [map_to_list] gives, and the transport and the body copy answer
    as told. *)

Definition printURL (u : URL) : string :=
  Scheme u +:+ "://" +:+ URLHost u +:+ Path u
  +:+ (if bool_decide (RawQuery u = "") then "" else "?" +:+ RawQuery u).

Definition cutAt (c : ascii) (l : list ascii) : list ascii * list ascii :=
  match GoStrings.IndexByte l c with
  | Some i => (take i l, drop i l)
  | None => (l, [])
  end.

Definition parseURL (s : string) : URL + error :=
  let l := Bytes.of_string s in
  match GoStrings.IndexByte l ":" with
  | None => inr (LibraryError "missing protocol scheme")
  | Some i =>
      match drop (S i) l with
      | "/"%char :: "/"%char :: rest =>
          let '(hostpath, query) := cutAt "?" rest in
          let '(host, path) := cutAt "/" hostpath in
          inl (mkURL (Bytes.to_string (take i l)) (Bytes.to_string host)
                 (Bytes.to_string path) (Bytes.to_string (drop 1 query)))
      | _ => inr (LibraryError "missing host")
      end
  end.

Definition plainRuntime (answer : Request → Response + error)
    (copy : Response → string * option error) : Runtime :=
  mkRuntime printURL parseURL (λ s, String "034" s +:+ String "034" "")
    map_to_list map_to_list map_to_list (λ _, answer) copy.

Definition backend : URL := mkURL "http" "backend.internal:9000" "" "".

Definition proxyFor (base : URL) (custom : gmap string string) : Proxy :=
  mkProxy (mkProxyConfig ":8080" (Some base) (30 * Second) custom)
    (mkClient
       (mkTransport (10 * Second) (30 * Second) VersionTLS12 100 (90 * Second)
          (10 * Second) (1 * Second))
       (30 * Second) false)
    DefaultLogger.

Definition inbound (method path : string) (h : GoHttp.Header) (host peer : string)
  : Request :=
  mkRequest method (mkURL "" "" path "") h "" host peer false.

Definition ok200 : Response :=
  mkResponse 200 {[ "Content-Type" := ["text/plain"] ]} "hello".

Definition answers (resp : Response) : Runtime :=
  plainRuntime (λ _, inl resp) (λ resp, (RespBody resp, None)).

(** The forwarded-context header names. *)
Definition forwardedNames : list string :=
  ["X-Forwarded-For"; "X-Forwarded-Host"; "X-Forwarded-Proto"].

(** The custom headers whose name is [Host] up to letter case. *)
Definition hostOverride (p : Proxy) (name value : string) : Prop :=
  CustomHeaders (config p) !! name = Some value ∧ Bytes.EqualFold name "Host".

Definition browserHeaders : GoHttp.Header :=
  {[ "Accept" := ["text/html"; "application/json"];
     "Connection" := ["keep-alive"; "Upgrade"] ]}.

Definition plainRequest : Request :=
  inbound "GET" "/" ∅ "localhost:8080" "192.168.1.100:12345".

(** An HTTP/1.0 request without a Host header that carries a forwarded
    host of its own. *)
Definition hostlessRequest : Request :=
  inbound "GET" "/" {[ "X-Forwarded-Host" := ["spoofed.example"] ]} ""
    "192.168.1.100:12345".

(** An outbound request that already has a forwarding chain. *)
Definition chained : Request :=
  mkRequest "GET" backend {[ "X-Forwarded-For" := ["10.0.0.1"] ]} ""
    "backend.internal:9000" "" false.

(** ** White space

    The byte sequences that encode one white-space rune, and the strings
    made of white space only. *)

Inductive spaceRune : list ascii → Prop :=
  | spaceRune1 c : GoStrings.asciiSpace c = true → spaceRune [c]
  | spaceRune2 c1 c2 : GoStrings.space2 c1 c2 = true → spaceRune [c1; c2]
  | spaceRune3 c1 c2 c3 : GoStrings.space3 c1 c2 c3 = true → spaceRune [c1; c2; c3].

Inductive spaces : list ascii → Prop :=
  | spaces_nil : spaces []
  | spaces_cons rune l : spaceRune rune → spaces l → spaces (rune ++ l).

(** [first] is the first comma-separated entry of [s]: the bytes of [s]
    before its first comma, or all of [s] when it has none. *)
Definition firstEntryOf (s first : string) : Prop :=
  (","%char ∉ Bytes.of_string first) ∧
  (s = first ∨ ∃ tail, s = first +:+ "," +:+ tail).

(** A request that went through another proxy, and one whose forwarding
    chain starts with a blank entry. *)
Definition forwardedRequest : Request :=
  inbound "GET" "/"
    {[ "X-Forwarded-For" := ["  10.0.0.1  , 10.0.0.2"]; "X-Real-Ip" := ["10.0.0.5"] ]}
    "localhost:8080" "192.168.1.100:12345".

Definition blankForwardedRequest : Request :=
  inbound "GET" "/"
    {[ "X-Forwarded-For" := [" , 10.0.0.2"]; "X-Real-Ip" := ["10.0.0.5"] ]}
    "localhost:8080" "192.168.1.100:12345".

(** A backend that refuses the connection, a response with two cookies,
    and a caller that goes away after seven bytes of the body. *)
Definition refuses : Runtime :=
  plainRuntime (λ _, inr (LibraryError "dial tcp: connection refused"))
    (λ _, ("", None)).

Definition created201 : Response :=
  mkResponse 201 {[ "Set-Cookie" := ["a=1"; "b=2"] ]} "status: created".

Definition hangsUp : Runtime :=
  plainRuntime (λ _, inl created201)
    (λ resp, (Bytes.to_string (take 7 (Bytes.of_string (RespBody resp))),
              Some (LibraryError "write: broken pipe"))).

(** A backend whose status line reads [HTTP/1.1 099]. *)
Definition odd099 : Response :=
  mkResponse 99 {[ "Content-Type" := ["text/plain"] ]} "hello".

Definition badMethodRequest : Request :=
  inbound "GE T" "/" ∅ "localhost:8080" "192.168.1.100:12345".

(** ** Fixtures of the repository's tests *)

Definition testProxy (target : URL) : Proxy := proxyFor target ∅.

Definition testRequest (remoteAddr xff realIP : string) : Request :=
  let h := if bool_decide (xff = "") then ∅
           else GoHttp.Set_ ∅ "X-Forwarded-For" xff in
  let h := if bool_decide (realIP = "") then h
           else GoHttp.Set_ h "X-Real-IP" realIP in
  mkRequest "GET" (mkURL "http" "example.com" "/path" "") h "" "example.com"
    remoteAddr false.

Definition resolved (target : URL) (path query : string) : option string :=
  printURL <$> buildTargetURL (testProxy target)
                 (mkRequest "" (mkURL "" "" path query) ∅ "" "" "" false).

Definition sourceRequest : Request :=
  mkRequest "GET" (mkURL "http" "source.example.com" "/path" "") ∅ ""
    "source.example.com" "192.168.1.100:12345" false.

Definition targetRequest (h : GoHttp.Header) : Request :=
  mkRequest "GET" (mkURL "https" "target.example.com" "/path" "") h ""
    "target.example.com" "" false.

(** ** Header specifications on the command line

    [header] has the form [before:after], the colon being its first one,
    with something other than white space before it. *)
Definition splitsAt (header before after : string) : Prop :=
  header = before +:+ ":" +:+ after ∧ (":"%char ∉ Bytes.of_string before).

Definition wellFormedHeader (header : string) : Prop :=
  ∃ before after, splitsAt header before after ∧ ¬ spaces (Bytes.of_string before).

(** The name a well-formed specification gives its header. *)
Definition names (header name : string) : Prop :=
  ∃ before after, splitsAt header before after ∧ GoStrings.TrimSpace before = name.

(** The options [main] goes on to serve with. *)
Definition accepted (rt : Runtime) (opts : Main.Options) : Prop :=
  1 ≤ Main.Port opts ≤ 65535 ∧ 1 ≤ Main.Timeout opts ∧ Main.TargetURL opts ≠ "" ∧
  (∃ u, ParseURL rt (Main.TargetURL opts) = inl u ∧
        (Scheme u = "http" ∨ Scheme u = "https")) ∧
  Forall wellFormedHeader (Main.Headers opts).

(** A server that runs until its listener is closed. *)
Definition untilClosed (_ : Server) : option error :=
  Some (LibraryError "http: Server closed").

Definition usageText : string := "Usage: goreflector [options] <target-url>".

Definition cliOptions (timeout : Z) (headers : list string) : Main.Options :=
  Main.mkOptions 8080 "https://api.example.com/v1" timeout false false headers.

(** Whether the forwarding client answers the request [ServeHTTP] builds
    for [r] with a response. *)
Definition answered (rt : Runtime) (p : Proxy) (r : Request) : bool :=
  match outbound rt p r with
  | Some out =>
      match Do rt (httpClient p) out with
      | inl _ => true
      | inr _ => false
      end
  | None => false
  end.

Definition peerRequest (peer : string) : Request :=
  inbound "GET" "/" ∅ "localhost:8080" peer.

(** A request that came through two proxies. *)
Definition twiceForwarded : Request :=
  inbound "GET" "/" {[ "X-Forwarded-For" := ["10.0.0.1, 10.0.0.2"; "10.0.0.3"] ]}
    "localhost:8080" "192.168.1.100:12345".

(** ** Proof automation *)

(** Closed disequalities between strings, by evaluation. *)
Ltac differ := let H := fresh in intros H; vm_compute in H; discriminate H.

(** Case analysis on the 256 values of a byte. *)
Ltac bytes c := destruct c as [[] [] [] [] [] [] [] []].

(** * Verification *)

(** ** Bytes and strings *)

Section BytesFacts.

Lemma of_to_string l : Bytes.of_string (Bytes.to_string l) = l.
Proof. apply list_ascii_of_string_of_list_ascii. Qed.

Lemma to_of_string s : Bytes.to_string (Bytes.of_string s) = s.
Proof. apply string_of_list_ascii_of_string. Qed.

Lemma of_string_app a b :
  Bytes.of_string (a +:+ b) = Bytes.of_string a ++ Bytes.of_string b.
Proof. induction a as [|c a IH]; [done|]. cbn. by rewrite <- IH. Qed.

Lemma to_string_app k l :
  Bytes.to_string (k ++ l) = Bytes.to_string k +:+ Bytes.to_string l.
Proof. induction k as [|c k IH]; [done|]. cbn. by rewrite IH. Qed.

Lemma of_string_length s : length (Bytes.of_string s) = String.length s.
Proof. induction s as [|c s IH]; [done|]. cbn. by rewrite IH. Qed.

Lemma of_string_inj a b : Bytes.of_string a = Bytes.of_string b → a = b.
Proof. intros E. by rewrite <- (to_of_string a), E, to_of_string. Qed.

Lemma append_cons c a b : String c a +:+ b = String c (a +:+ b).
Proof. reflexivity. Qed.

Lemma append_nil_r s : s +:+ "" = s.
Proof. induction s as [|c s IH]; [done|]. by rewrite append_cons, IH. Qed.

Lemma append_assoc a b c : (a +:+ b) +:+ c = a +:+ b +:+ c.
Proof. induction a as [|x a IH]; [done|]. by rewrite !append_cons, IH. Qed.

Lemma eqb_true a b : Bytes.eqb a b = true ↔ a = b.
Proof. unfold Bytes.eqb. by rewrite bool_decide_eq_true. Qed.

Lemma eqb_false a b : Bytes.eqb a b = false ↔ a ≠ b.
Proof. unfold Bytes.eqb. by rewrite bool_decide_eq_false. Qed.

End BytesFacts.

(** ** strings.TrimSuffix *)

Lemma TrimSuffix_app p suffix : GoStrings.TrimSuffix (p +:+ suffix) suffix = p.
Proof.
  unfold GoStrings.TrimSuffix, GoStrings.HasSuffix.
  rewrite bool_decide_eq_true_2.
  - rewrite <- !of_string_length, of_string_app, length_app.
    replace (length (Bytes.of_string p) + length (Bytes.of_string suffix)
             - length (Bytes.of_string suffix))%nat
      with (length (Bytes.of_string p)) by lia.
    by rewrite take_app_length, to_of_string.
  - rewrite of_string_app. by apply suffix_app_r.
Qed.

Lemma TrimSuffix_other s suffix :
  (∀ p, s ≠ p +:+ suffix) → GoStrings.TrimSuffix s suffix = s.
Proof.
  intros Hno. unfold GoStrings.TrimSuffix, GoStrings.HasSuffix.
  case_bool_decide as Hs; [|done].
  destruct Hs as [k Hk]. exfalso. apply (Hno (Bytes.to_string k)).
  apply of_string_inj. by rewrite of_string_app, of_to_string.
Qed.

(** Only one separator is removed: a base ending in two slashes keeps one. *)
Lemma TrimSuffix_once p suffix :
  GoStrings.TrimSuffix ((p +:+ suffix) +:+ suffix) suffix = p +:+ suffix.
Proof. apply TrimSuffix_app. Qed.

(** ** Header keys *)

Section Canonical.

Import Bytes GoHttp.

Lemma canonLoop_step u c a :
  canonLoop u (String c a) = String (canonStep u c) (canonLoop (Bytes.eqb (canonStep u c) "-") a).
Proof. done. Qed.

Lemma step_fold u c : canonStep u (fold c) = canonStep u c.
Proof. destruct u; bytes c; reflexivity. Qed.

Lemma fold_step u c : fold (canonStep u c) = fold c.
Proof. destruct u; bytes c; reflexivity. Qed.

Lemma step_step u c : canonStep u (canonStep u c) = canonStep u c.
Proof. destruct u; bytes c; reflexivity. Qed.

Lemma valid_fold c : validHeaderFieldByte (fold c) = validHeaderFieldByte c.
Proof. bytes c; reflexivity. Qed.

Lemma valid_step u c : validHeaderFieldByte (canonStep u c) = validHeaderFieldByte c.
Proof. destruct u; bytes c; reflexivity. Qed.

Lemma all_valid_lower s :
  all validHeaderFieldByte (lower s) = all validHeaderFieldByte s.
Proof. induction s as [|c s IH]; [done|]. cbn. by rewrite valid_fold, IH. Qed.

Lemma all_valid_canonLoop u s :
  all validHeaderFieldByte (canonLoop u s) = all validHeaderFieldByte s.
Proof.
  revert u. induction s as [|c s IH]; intros u; [done|].
  rewrite canonLoop_step. cbn [all]. by rewrite valid_step, IH.
Qed.

Lemma lower_canonLoop u s : lower (canonLoop u s) = lower s.
Proof.
  revert u. induction s as [|c s IH]; intros u; [done|].
  rewrite canonLoop_step. cbn [lower]. by rewrite fold_step, IH.
Qed.

Lemma canonLoop_idem u s : canonLoop u (canonLoop u s) = canonLoop u s.
Proof.
  revert u. induction s as [|c s IH]; intros u; [done|].
  rewrite !canonLoop_step, step_step. by rewrite IH.
Qed.

Lemma canonLoop_lower u a b : lower a = lower b → canonLoop u a = canonLoop u b.
Proof.
  revert u b. induction a as [|c a IH]; intros u [|d b] E; try done.
  cbn [lower] in E. injection E as Ec Eab.
  rewrite !canonLoop_step.
  assert (canonStep u c = canonStep u d) as ->.
  { by rewrite <- (step_fold u c), Ec, step_fold. }
  f_equal. by apply IH.
Qed.

(** Canonicalising twice changes nothing. *)
Lemma CanonicalHeaderKey_idem s :
  CanonicalHeaderKey (CanonicalHeaderKey s) = CanonicalHeaderKey s.
Proof.
  unfold CanonicalHeaderKey.
  destruct (all validHeaderFieldByte s) eqn:V; [|by rewrite V].
  by rewrite all_valid_canonLoop, V, canonLoop_idem.
Qed.

Lemma CanonicalHeaderKey_lower s : EqualFold (CanonicalHeaderKey s) s.
Proof.
  unfold EqualFold, CanonicalHeaderKey.
  destruct (all validHeaderFieldByte s); [apply lower_canonLoop|done].
Qed.

(** For a canonical token [K], the keys that canonicalise to [K] are
    exactly the names equal to [K] up to ASCII letter case. *)
Lemma CanonicalHeaderKey_fold n K :
  all validHeaderFieldByte K = true → CanonicalHeaderKey K = K →
  CanonicalHeaderKey n = K ↔ EqualFold n K.
Proof.
  intros VK CK. split.
  - intros <-. symmetry. apply CanonicalHeaderKey_lower.
  - intros E. rewrite <- CK. unfold CanonicalHeaderKey.
    rewrite VK, <- all_valid_lower, E, all_valid_lower, VK.
    by apply canonLoop_lower.
Qed.

End Canonical.

(** ** The header map operations *)

Section HeaderFacts.

Import GoHttp.

Implicit Types (h : Header) (k K v : string) (vs : list string).

Lemma Add_lookup h k v K :
  Add h k v !! K =
    if decide (CanonicalHeaderKey k = K)
    then Some (default [] (h !! K) ++ [v]) else h !! K.
Proof.
  unfold Add. case_decide as E.
  - subst K. by rewrite lookup_insert_eq.
  - by rewrite lookup_insert_ne.
Qed.

Lemma Set_lookup h k v K :
  Set_ h k v !! K = if decide (CanonicalHeaderKey k = K) then Some [v] else h !! K.
Proof.
  unfold Set_. case_decide as E.
  - subst K. by rewrite lookup_insert_eq.
  - by rewrite lookup_insert_ne.
Qed.

Lemma addAll_lookup h k vs K :
  foldl (λ d value, Add d k value) h vs !! K =
    if decide (CanonicalHeaderKey k = K)
    then match vs with [] => h !! K | _ => Some (default [] (h !! K) ++ vs) end
    else h !! K.
Proof.
  revert h. induction vs as [|v vs IH]; intros h; cbn [foldl].
  - by case_decide.
  - rewrite IH, Add_lookup. case_decide; [|done].
    destruct vs; cbn; by rewrite <- ?(assoc_L (++)).
Qed.

Lemma carriedAt_cons K kv src :
  carriedAt K (kv :: src) =
    (if decide (CanonicalHeaderKey kv.1 = K) then kv.2 else []) ++ carriedAt K src.
Proof.
  unfold carriedAt. rewrite filter_cons. by case_decide.
Qed.

Lemma shouldSkipHeader_key k :
  shouldSkipHeader k = default false (skipHeaders !! CanonicalHeaderKey k).
Proof. done. Qed.

(** What the copy loop leaves under the key [K]. *)
Lemma copyLoop_lookup src h K :
  copyLoop src h !! K =
    if default false (skipHeaders !! K) then h !! K
    else match carriedAt K src with
         | [] => h !! K
         | vs => Some (default [] (h !! K) ++ vs)
         end.
Proof.
  revert h. induction src as [|[k vs] src IH]; intros h.
  - cbn. by destruct (default false _).
  - unfold copyLoop in *. cbn [foldl fst snd]. rewrite IH, carriedAt_cons.
    cbn [fst snd]. rewrite shouldSkipHeader_key.
    destruct (default false (skipHeaders !! K)) eqn:SK.
    + destruct (default false (skipHeaders !! CanonicalHeaderKey k)) eqn:Sk; [done|].
      rewrite addAll_lookup. case_decide; [congruence|done].
    + case_decide as E.
      * subst K. rewrite SK, addAll_lookup, decide_True by done.
        destruct vs as [|v vs]; [done|].
        cbn [default]. destruct (carriedAt _ src) as [|c cs].
        -- by rewrite app_nil_r.
        -- cbn. by rewrite <- (assoc_L (++)).
      * destruct (default false (skipHeaders !! CanonicalHeaderKey k)); [done|].
        rewrite addAll_lookup, decide_False by done. done.
Qed.

Lemma Values_copyLoop src h name :
  Values (copyLoop src h) name =
    if shouldSkipHeader name then Values h name
    else Values h name ++ carried src name.
Proof.
  unfold Values, carried. rewrite copyLoop_lookup, shouldSkipHeader_key.
  destruct (default false _); [done|].
  destruct (carriedAt _ src); [by rewrite app_nil_r|done].
Qed.

End HeaderFacts.

(** ** Hop-by-hop names *)

Section HopByHop.

Import GoHttp.

Lemma skipHeaders_lookup K :
  default false (skipHeaders !! K) = true ↔ K ∈ hopByHop.
Proof.
  unfold hopByHop. rewrite !elem_of_cons, elem_of_nil. split.
  - unfold skipHeaders. cbn [list_to_map foldr uncurry fst snd].
    rewrite !lookup_insert, lookup_empty.
    repeat (let E := fresh "E" in
            case_decide as E; [intros _; rewrite <- E; auto 10|]).
    cbn. discriminate.
  - intros H. repeat (destruct H as [->|H]; [by vm_compute|]). done.
Qed.

Lemma hopByHop_canonical hop :
  hop ∈ hopByHop →
  Bytes.all validHeaderFieldByte hop = true ∧ CanonicalHeaderKey hop = hop.
Proof.
  unfold hopByHop. rewrite !elem_of_cons, elem_of_nil.
  intros H. repeat (destruct H as [->|H]; [by vm_compute|]). done.
Qed.

(** [shouldSkipHeader] answers [true] exactly on the names that equal a
    hop-by-hop name up to letter case. *)
Lemma shouldSkipHeader_iff name : shouldSkipHeader name = true ↔ isHopByHop name.
Proof.
  rewrite shouldSkipHeader_key, skipHeaders_lookup. unfold isHopByHop. split.
  - intros Hin. eexists; split; [exact Hin|].
    symmetry. apply CanonicalHeaderKey_lower.
  - intros (hop & Hin & E).
    destruct (hopByHop_canonical hop Hin) as [V C].
    by rewrite (proj2 (CanonicalHeaderKey_fold name hop V C) E).
Qed.

Lemma shouldSkipHeader_false name : shouldSkipHeader name = false ↔ ¬ isHopByHop name.
Proof. rewrite <- shouldSkipHeader_iff. by destruct (shouldSkipHeader name). Qed.

End HopByHop.

(** ** Ranging over a map *)

Section RangeFacts.

Import GoHttp.
Context {V : Type}.
Implicit Types (m : gmap string V) (l : list (string * V)).

Lemma range_elem m l k v : l ≡ₚ map_to_list m → (k, v) ∈ l ↔ m !! k = Some v.
Proof. intros ->. apply elem_of_map_to_list. Qed.

Lemma range_NoDup m l : l ≡ₚ map_to_list m → NoDup (l.*1).
Proof. intros ->. apply NoDup_fst_map_to_list. Qed.

Lemma range_canonical m l :
  l ≡ₚ map_to_list m → canonicalKeys m →
  ∀ kv, kv ∈ l → CanonicalHeaderKey kv.1 = kv.1.
Proof.
  intros Hl Hc [k v] Hin. apply Hc. exists v. by apply (range_elem m l).
Qed.

End RangeFacts.

Section CarriedFacts.

Import GoHttp.
Implicit Types (src : list (string * list string)) (h : Header).

Lemma carriedAt_absent K src :
  (∀ kv, kv ∈ src → CanonicalHeaderKey kv.1 ≠ K) → carriedAt K src = [].
Proof.
  induction src as [|kv src IH]; intros Hno; [done|].
  rewrite carriedAt_cons, decide_False, IH; [done| |].
  - intros kv' Hin. apply Hno. by right.
  - apply Hno. by left.
Qed.

Lemma carriedAt_present K vs src :
  NoDup (src.*1) → (∀ kv, kv ∈ src → CanonicalHeaderKey kv.1 = kv.1) →
  (K, vs) ∈ src → carriedAt K src = vs.
Proof.
  induction src as [|[k vs'] src IH]; intros Hnd Hc Hin.
  - by apply elem_of_nil in Hin.
  - rewrite fmap_cons in Hnd. apply NoDup_cons in Hnd as [Hk Hnd].
    rewrite carriedAt_cons. cbn [fst snd].
    assert (CanonicalHeaderKey k = k) as -> by (apply (Hc (k, vs')); by left).
    apply elem_of_cons in Hin as [Heq|Hin].
    + injection Heq as <- <-. rewrite decide_True by done.
      rewrite carriedAt_absent; [by rewrite app_nil_r|].
      intros [k' v'] Hin'.
      assert (CanonicalHeaderKey k' = k') as Hk'
        by (apply (Hc (k', v')); by right).
      cbn. rewrite Hk'. intros ->. apply Hk. apply list_elem_of_fmap. by exists (K, v').
    + rewrite decide_False.
      * apply IH; [done| |done]. intros kv' ?. apply Hc. by right.
      * intros ->. apply Hk. apply list_elem_of_fmap. by exists (K, vs).
Qed.

(** On a map with canonical keys the range order does not matter: the
    values visited for a name are the ones [Values] reads. *)
Lemma carried_canonical h src name :
  src ≡ₚ map_to_list h → canonicalKeys h → carried src name = Values h name.
Proof.
  intros Hp Hc. unfold carried, Values.
  destruct (h !! CanonicalHeaderKey name) as [vs|] eqn:L; cbn.
  - apply carriedAt_present.
    + by apply (range_NoDup h).
    + by apply (range_canonical h).
    + by apply (range_elem h src).
  - apply carriedAt_absent. intros [k v] Hin.
    pose proof (range_canonical h src Hp Hc (k, v) Hin) as Hk.
    cbn in *. rewrite Hk. intros ->. apply (range_elem h src) in Hin; [|done]. congruence.
Qed.

End CarriedFacts.

Section OverrideFacts.

Import GoHttp.
Implicit Types (cs : list (string * string)) (d : Request).

Lemma lastOverride_snoc K cs nv :
  lastOverride K (cs ++ [nv]) =
    if decide (CanonicalHeaderKey nv.1 = K) then Some nv.2 else lastOverride K cs.
Proof.
  unfold lastOverride. rewrite filter_app, filter_cons, filter_nil.
  case_decide.
  - by rewrite fmap_snoc, last_snoc.
  - by rewrite app_nil_r.
Qed.

Lemma customLoop_snoc cs nv d :
  customLoop (cs ++ [nv]) d =
    let d' := customLoop cs d in
    if bool_decide (CanonicalHeaderKey nv.1 = "Host") then withHost d' nv.2
    else withHeader d' (Set_ (ReqHeader d') nv.1 nv.2).
Proof. unfold customLoop. by rewrite foldl_snoc. Qed.

(** The Host field after the custom headers: the last Host-named
    override the range visits, or the field as it was. *)
Lemma customLoop_Host cs d :
  Host (customLoop cs d) = default (Host d) (lastOverride "Host" cs).
Proof.
  induction cs as [|nv cs IH] using rev_ind; [done|].
  rewrite customLoop_snoc, lastOverride_snoc. cbn zeta.
  case_bool_decide; [by rewrite decide_True|by rewrite decide_False].
Qed.

(** The header map after the custom headers: under a key other than
    [Host], the last override of that key alone, or what was there. *)
Lemma customLoop_lookup K cs d :
  K ≠ "Host" →
  ReqHeader (customLoop cs d) !! K =
    match lastOverride K cs with
    | Some v => Some [v]
    | None => ReqHeader d !! K
    end.
Proof.
  intros HK. induction cs as [|nv cs IH] using rev_ind; [done|].
  rewrite customLoop_snoc, lastOverride_snoc. cbn zeta.
  case_bool_decide as EH.
  - rewrite decide_False by congruence. exact IH.
  - cbn. rewrite Set_lookup. by case_decide.
Qed.

(** A Host-named override never becomes an entry of the header map. *)
Lemma customLoop_lookup_Host cs d :
  ReqHeader (customLoop cs d) !! "Host" = ReqHeader d !! "Host".
Proof.
  induction cs as [|nv cs IH] using rev_ind; [done|].
  rewrite customLoop_snoc. cbn zeta.
  case_bool_decide as EH; [exact IH|].
  cbn. by rewrite Set_lookup, decide_False.
Qed.

Lemma lastOverride_elem K cs v :
  lastOverride K cs = Some v →
  ∃ name, (name, v) ∈ cs ∧ CanonicalHeaderKey name = K.
Proof.
  intros Hl. apply last_Some_elem_of in Hl.
  apply list_elem_of_fmap in Hl as ([name v'] & -> & Hin).
  apply list_elem_of_filter in Hin as [HK Hin]. by exists name.
Qed.

Lemma lastOverride_None K cs :
  (∀ nv, nv ∈ cs → CanonicalHeaderKey nv.1 ≠ K) → lastOverride K cs = None.
Proof.
  intros Hno. destruct (lastOverride K cs) as [v|] eqn:L; [|done].
  apply lastOverride_elem in L as (name & Hin & HK).
  by destruct (Hno _ Hin).
Qed.

Lemma lastOverride_is_Some K cs name v :
  (name, v) ∈ cs → CanonicalHeaderKey name = K → is_Some (lastOverride K cs).
Proof.
  intros Hin HK. apply last_is_Some. intros Hnil.
  apply fmap_nil_inv in Hnil.
  eapply (filter_nil_not_elem_of _ _ (name, v)); [exact Hnil|exact HK|exact Hin].
Qed.

(** When every override of the key carries the same value, that value
    wins whatever order the range takes. *)
Lemma lastOverride_agree K cs name v :
  (name, v) ∈ cs → CanonicalHeaderKey name = K →
  (∀ name' v', (name', v') ∈ cs → CanonicalHeaderKey name' = K → v' = v) →
  lastOverride K cs = Some v.
Proof.
  intros Hin HK Hall.
  destruct (lastOverride_is_Some K cs name v Hin HK) as [v' L].
  rewrite L. f_equal.
  apply lastOverride_elem in L as (name' & Hin' & HK').
  by apply (Hall name').
Qed.

End OverrideFacts.

(** ** Forwarded-context injection *)

Section ForwardedFacts.

Import GoHttp.
Implicit Types (src dst : Request).

Lemma canonical_XFF : CanonicalHeaderKey "X-Forwarded-For" = "X-Forwarded-For".
Proof. reflexivity. Qed.
Lemma canonical_XFH : CanonicalHeaderKey "X-Forwarded-Host" = "X-Forwarded-Host".
Proof. reflexivity. Qed.
Lemma canonical_XFP : CanonicalHeaderKey "X-Forwarded-Proto" = "X-Forwarded-Proto".
Proof. reflexivity. Qed.

Lemma addForwardedHeaders_lookup src dst K :
  ReqHeader (addForwardedHeaders src dst) !! K =
    if decide (K = "X-Forwarded-Proto")
    then Some [if TLS src then "https" else "http"]
    else if decide (K = "X-Forwarded-Host") then
      if bool_decide (Host src ≠ "") then Some [Host src]
      else ReqHeader dst !! K
    else if decide (K = "X-Forwarded-For") then
      if bool_decide (getClientIP src ≠ "") then
        let prior := Get (ReqHeader dst) "X-Forwarded-For" in
        Some [if bool_decide (prior ≠ "")
              then prior +:+ ", " +:+ getClientIP src
              else getClientIP src]
      else ReqHeader dst !! K
    else ReqHeader dst !! K.
Proof.
  unfold addForwardedHeaders. cbn [ReqHeader withHeader].
  rewrite Set_lookup, canonical_XFP.
  destruct (decide (K = "X-Forwarded-Proto")) as [->|NP].
  { by rewrite decide_True. }
  rewrite decide_False by done.
  destruct (bool_decide (Host src ≠ "")) eqn:EH; cbn [ReqHeader withHeader].
  - rewrite Set_lookup, canonical_XFH.
    destruct (decide (K = "X-Forwarded-Host")) as [->|NH].
    { by rewrite decide_True. }
    rewrite decide_False by done.
    destruct (bool_decide (getClientIP src ≠ "")); cbn [ReqHeader withHeader];
      [|by destruct (decide _)].
    rewrite Set_lookup, canonical_XFF.
    destruct (decide (K = "X-Forwarded-For")) as [->|NF].
    + by rewrite decide_True.
    + by rewrite decide_False.
  - destruct (decide (K = "X-Forwarded-Host")) as [->|NH].
    { destruct (bool_decide (getClientIP src ≠ "")); cbn [ReqHeader withHeader]; [|done].
      by rewrite Set_lookup, canonical_XFF, decide_False. }
    destruct (bool_decide (getClientIP src ≠ "")); cbn [ReqHeader withHeader];
      [|by destruct (decide _)].
    rewrite Set_lookup, canonical_XFF.
    destruct (decide (K = "X-Forwarded-For")) as [->|NF].
    + by rewrite decide_True.
    + by rewrite decide_False.
Qed.

Lemma addForwardedHeaders_Host src dst : Host (addForwardedHeaders src dst) = Host dst.
Proof.
  unfold addForwardedHeaders.
  by repeat (case_bool_decide; cbn [Host withHeader]).
Qed.

End ForwardedFacts.

(** ** Running the engine *)

Section RunFacts.

Import GoHttp.
Implicit Types (w : World) (rw : ResponseWriter).

(** [WriteHeader] with a final code, on a writer not yet started. *)
Lemma WriteHeader_final code w :
  finalCode code → wStatus (writer w) = None →
  WriteHeader code w =
    Some ((), mkWorld (logged w)
                (mkWriter (wHeader (writer w)) (wInterim (writer w)) (Some code)
                   (Some (wHeader (writer w))) (wBody (writer w)))
                (sent w) (closed w)).
Proof.
  intros Hc Hw. unfold WriteHeader, onWriter, StatusSwitchingProtocols. rewrite Hw.
  rewrite (bool_decide_eq_false_2 (code < 100)), (bool_decide_eq_false_2 (code > 999))
    by (destruct Hc; lia).
  cbn [orb]. destruct Hc as [->|Hc]; [done|].
  by rewrite (bool_decide_eq_false_2 (code ≤ 199)), andb_false_r by lia.
Qed.

Lemma WriteHeader_informational code w :
  informationalCode code → wStatus (writer w) = None →
  WriteHeader code w =
    Some ((), mkWorld (logged w)
                (mkWriter (wHeader (writer w))
                   (wInterim (writer w) ++ [(code, wHeader (writer w))]) None
                   (wSnapshot (writer w)) (wBody (writer w)))
                (sent w) (closed w)).
Proof.
  intros [Hc Hn] Hw. unfold WriteHeader, onWriter, StatusSwitchingProtocols. rewrite Hw.
  rewrite (bool_decide_eq_false_2 (code < 100)), (bool_decide_eq_false_2 (code > 999))
    by lia.
  by rewrite (bool_decide_eq_true_2 (code >= 100)), (bool_decide_eq_true_2 (code ≤ 199)),
    (bool_decide_eq_true_2 (code ≠ 101)) by (done || lia).
Qed.

Lemma WriteHeader_invalid code w :
  code < 100 ∨ 999 < code → wStatus (writer w) = None → WriteHeader code w = None.
Proof.
  intros Hc Hw. unfold WriteHeader. rewrite Hw.
  destruct Hc; [rewrite (bool_decide_eq_true_2 (code < 100)) by lia; done|].
  rewrite (bool_decide_eq_true_2 (code > 999)) by lia. by rewrite orb_true_r.
Qed.

Lemma WriteHeader_started code w :
  is_Some (wStatus (writer w)) → WriteHeader code w = Some ((), w).
Proof. intros [s Hs]. unfold WriteHeader. by rewrite Hs. Qed.

(** [WriteHeader] panics on a fresh writer given a bad code, and nowhere
    else. *)
Lemma WriteHeader_None code w :
  WriteHeader code w = None ↔ wStatus (writer w) = None ∧ (code < 100 ∨ 999 < code).
Proof.
  split.
  - unfold WriteHeader, onWriter. destruct (wStatus (writer w)); [done|].
    case_bool_decide; [intros _; split; [done|lia]|].
    case_bool_decide; [intros _; split; [done|lia]|].
    cbn [orb]. by destruct (_ && _).
  - intros [Hw Hc]. by apply WriteHeader_invalid.
Qed.

Lemma httpError_run msg code w :
  finalCode code →
  httpError msg code w =
    Some ((), mkWorld (logged w) (errorReply (writer w) msg code) (sent w) (closed w)).
Proof.
  intros Hc. unfold httpError, errorReply, HeaderSet, Write, bind.
  unfold onWriter at 1 2.
  cbn [logged writer sent closed wHeader wInterim wStatus wSnapshot wBody].
  destruct (wStatus (writer w)) as [s|] eqn:Hw.
  - rewrite WriteHeader_started by (cbn; eauto).
    rewrite WriteHeader_started by (cbn; eauto).
    unfold onWriter. done.
  - rewrite (WriteHeader_final code) by done.
    cbn [logged writer sent closed wHeader wInterim wStatus wSnapshot wBody].
    rewrite WriteHeader_started by (cbn; eauto).
    unfold onWriter. done.
Qed.

Lemma final_500 : finalCode StatusInternalServerError.
Proof. right. unfold StatusInternalServerError. lia. Qed.

Lemma final_502 : finalCode StatusBadGateway.
Proof. right. unfold StatusBadGateway. lia. Qed.

Lemma forEach_ext {A} (l : list A) (f g : A → M unit) w :
  (∀ a w', f a w' = g a w') → forEach l f w = forEach l g w.
Proof.
  intros E. revert w. induction l as [|a l IH]; intros w; [done|].
  cbn. unfold bind. rewrite E. destruct (g a w) as [[[] w']|]; [apply IH|done].
Qed.

Lemma forEach_onWriter {A} (l : list A) (f : A → ResponseWriter → ResponseWriter) w :
  forEach l (λ a, onWriter (f a)) w =
    Some ((), mkWorld (logged w) (foldl (λ rw a, f a rw) (writer w) l)
                (sent w) (closed w)).
Proof.
  revert w. induction l as [|a l IH]; intros w; [by destruct w|].
  cbn. unfold bind, onWriter at 1. by rewrite IH.
Qed.

Lemma addValues_fold key vs rw :
  foldl (λ rw' value, addValue key value rw') rw vs =
    mkWriter (foldl (λ d value, Add d key value) (wHeader rw) vs)
      (wInterim rw) (wStatus rw) (wSnapshot rw) (wBody rw).
Proof.
  revert rw. induction vs as [|v vs IH]; intros rw; [by destruct rw|].
  cbn [foldl]. by rewrite IH.
Qed.

Lemma relay_fold (src : list (string * list string)) rw :
  foldl (λ rw' kv, foldl (λ rw'' value, addValue kv.1 value rw'') rw' kv.2) rw src =
    mkWriter (relayed src (wHeader rw)) (wInterim rw) (wStatus rw) (wSnapshot rw)
      (wBody rw).
Proof.
  revert rw. induction src as [|kv src IH]; intros rw; [by destruct rw|].
  cbn [foldl]. rewrite IH, addValues_fold. done.
Qed.

(** The response relay loop of [ServeHTTP]. *)
Lemma relay_run (src : list (string * list string)) w :
  forEach src (λ kv, forEach kv.2 (λ value, HeaderAdd kv.1 value)) w =
    Some ((), mkWorld (logged w)
                (mkWriter (relayed src (wHeader (writer w))) (wInterim (writer w))
                   (wStatus (writer w)) (wSnapshot (writer w)) (wBody (writer w)))
                (sent w) (closed w)).
Proof.
  rewrite (forEach_ext _ _
             (λ kv, onWriter (λ rw, foldl (λ rw' value, addValue kv.1 value rw') rw kv.2))).
  - by rewrite forEach_onWriter, relay_fold.
  - intros kv w'. unfold HeaderAdd.
    by rewrite (forEach_onWriter kv.2 (λ value, addValue kv.1 value)).
Qed.

Lemma relayed_lookup src (h : Header) K :
  relayed src h !! K =
    match carriedAt K src with
    | [] => h !! K
    | vs => Some (default [] (h !! K) ++ vs)
    end.
Proof.
  revert h. induction src as [|[k vs] src IH]; intros h; [done|].
  unfold relayed in *. cbn [foldl fst snd]. rewrite IH, carriedAt_cons.
  cbn [fst snd]. rewrite addAll_lookup. case_decide as E; [|done].
  destruct vs as [|v vs]; [done|].
  cbn [default]. destruct (carriedAt K src) as [|c cs].
  - by rewrite app_nil_r.
  - cbn. by rewrite <- (assoc_L (++)).
Qed.

Lemma Values_relayed src (h : Header) name :
  Values (relayed src h) name = Values h name ++ carried src name.
Proof.
  unfold Values, carried. rewrite relayed_lookup.
  destruct (carriedAt _ src); [by rewrite app_nil_r|done].
Qed.

End RunFacts.

Section ServeFacts.

Import GoHttp.
Variable rt : Runtime.
Implicit Types (p : Proxy) (r : Request) (w : World).

Lemma buildTargetURL_Some p r t :
  TargetURL (config p) = Some t → is_Some (buildTargetURL p r).
Proof. unfold buildTargetURL. intros ->. cbn. eauto. Qed.

Lemma NewRequest_header method url body req :
  NewRequest rt method url body = inl req → ReqHeader req = ∅.
Proof.
  unfold NewRequest. destruct (negb _); [done|].
  destruct (ParseURL rt url); [|done]. by intros [= <-].
Qed.

Lemma prepared_eq p r t u req :
  TargetURL (config p) = Some t → buildTargetURL p r = Some u →
  NewRequest rt (Method r) (URLString rt u) (Body r) = inl req →
  prepared rt p r =
    Some (customLoop (rangeCustom rt (CustomHeaders (config p)))
            (withHost
               (withHeader req (copyLoop (rangeRequest rt (ReqHeader r)) ∅))
               (URLHost t))).
Proof.
  intros Ht Hu Hreq. unfold prepared. rewrite Hu. cbn. rewrite Hreq.
  unfold copyHeaders. rewrite Ht. cbn.
  by rewrite (NewRequest_header _ _ _ _ Hreq).
Qed.

Lemma prepared_inv p r dst :
  prepared rt p r = Some dst →
  ∃ t u req,
    TargetURL (config p) = Some t ∧ buildTargetURL p r = Some u ∧
    NewRequest rt (Method r) (URLString rt u) (Body r) = inl req.
Proof.
  unfold prepared. destruct (buildTargetURL p r) as [u|] eqn:Hu; [|done].
  cbn. destruct (NewRequest _ _ _ _) as [req|] eqn:Hreq; [|done].
  unfold copyHeaders. destruct (TargetURL (config p)) as [t|] eqn:Ht; [|done].
  intros _. by exists t, u, req.
Qed.

Lemma outbound_inv p r out :
  outbound rt p r = Some out →
  ∃ dst, prepared rt p r = Some dst ∧ out = addForwardedHeaders r dst.
Proof.
  unfold outbound. destruct (prepared rt p r) as [dst|]; [|done].
  intros [= <-]. by exists dst.
Qed.

Lemma outbound_eq p r t u req :
  TargetURL (config p) = Some t → buildTargetURL p r = Some u →
  NewRequest rt (Method r) (URLString rt u) (Body r) = inl req →
  is_Some (outbound rt p r).
Proof.
  intros Ht Hu Hreq. unfold outbound.
  by rewrite (prepared_eq p r t u req Ht Hu Hreq).
Qed.

(** Construction failed: one log line, the 500 reply, nothing sent. *)
Lemma ServeHTTP_construction_failed p r w u err :
  buildTargetURL p r = Some u →
  NewRequest rt (Method r) (URLString rt u) (Body r) = inr err →
  ServeHTTP rt p r w =
    Some ((), mkWorld
                (logged w ++
                   [(logger p, "Error creating proxy request: " +:+ errorText rt err)])
                (errorReply (writer w) "Failed to create proxy request"
                   StatusInternalServerError)
                (sent w) (closed w)).
Proof.
  intros Hu Hreq. unfold ServeHTTP, bind, orPanic. rewrite Hu, Hreq.
  unfold Printf. by rewrite (httpError_run _ _ _ final_500).
Qed.

(** The transport failed: the access line and the cause are logged,
    the 502 reply is written, the request was handed over once. *)
Lemma ServeHTTP_backend_failed p r w u out err :
  buildTargetURL p r = Some u → outbound rt p r = Some out →
  Do rt (httpClient p) out = inr err →
  ServeHTTP rt p r w =
    Some ((), mkWorld
                (logged w ++
                   [(logger p, accessLine rt r u);
                    (logger p, "Error proxying request: " +:+ errorText rt err)])
                (errorReply (writer w) "Failed to proxy request" StatusBadGateway)
                (sent w ++ [out]) (closed w)).
Proof.
  intros Hu Hout HDo. unfold ServeHTTP, outbound, prepared in *. rewrite Hu in *.
  unfold bind, orPanic. cbn in Hout.
  destruct (NewRequest _ _ _ _) as [req|]; [|done].
  destruct (copyHeaders _ _ _ _) as [dst|]; [|done].
  cbn in Hout. injection Hout as Hout. rewrite Hout.
  unfold Printf, clientDo. cbn [logged writer sent closed].
  rewrite HDo, (httpError_run _ _ _ final_502). cbn [logged writer sent closed].
  by rewrite <- (assoc_L (++)).
Qed.

(** The transport answered: the access line is logged, the request was
    handed over once and the headers are relayed; then come the status,
    the body and the deferred [Close]. *)
Lemma ServeHTTP_answered p r w u out resp :
  buildTargetURL p r = Some u → outbound rt p r = Some out →
  Do rt (httpClient p) out = inl resp →
  ServeHTTP rt p r w =
    (WriteHeader (StatusCode resp) ;;
     err <- ioCopy rt resp ;;
     match err with
     | Some e => Printf (logger p) ("Error copying response body: " +:+ errorText rt e)
     | None => ret ()
     end ;;
     closeBody)
      (mkWorld (logged w ++ [(logger p, accessLine rt r u)])
         (headersRelayed rt (writer w) resp) (sent w ++ [out]) (closed w)).
Proof.
  intros Hu Hout HDo. unfold ServeHTTP, outbound, prepared in *. rewrite Hu in *.
  unfold bind at 1, orPanic. cbn in Hout.
  destruct (NewRequest _ _ _ _) as [req|]; [|done].
  unfold bind at 1.
  destruct (copyHeaders _ _ _ _) as [dst|]; [|done].
  cbn in Hout. injection Hout as Hout. rewrite Hout.
  unfold bind at 1, Printf at 1. unfold bind at 1, clientDo. rewrite HDo.
  unfold bind at 1. rewrite relay_run. reflexivity.
Qed.

(** The body copy and what follows it never panic; they log the copy
    error, if any, and close the body. *)
Lemma copy_run p resp w :
  (err <- ioCopy rt resp ;;
   match err with
   | Some e => Printf (logger p) ("Error copying response body: " +:+ errorText rt e)
   | None => ret ()
   end ;;
   closeBody) w =
  Some ((), mkWorld (logged w ++ copyErrorLines rt p resp)
              (let delivered := (Copy rt resp).1 in
               if bool_decide (delivered = "") then writer w
               else mkWriter (wHeader (writer w)) (wInterim (writer w))
                      (Some (default StatusOK (wStatus (writer w))))
                      (match wStatus (writer w) with
                       | None => Some (wHeader (writer w))
                       | Some _ => wSnapshot (writer w)
                       end)
                      (wBody (writer w) +:+ delivered))
              (sent w) (S (closed w))).
Proof.
  unfold copyErrorLines, ioCopy. destruct (Copy rt resp) as [delivered e].
  cbn [fst snd]. case_bool_decide as Ed.
  - unfold bind, ret, closeBody, Printf.
    destruct e; cbn; [done|by rewrite app_nil_r].
  - unfold bind at 1 2. unfold Write, bind at 1.
    destruct (wStatus (writer w)) as [s|] eqn:Hw.
    + rewrite WriteHeader_started by (rewrite Hw; eauto).
      unfold onWriter, bind, ret, closeBody, Printf.
      destruct e; cbn; rewrite Hw; [done|by rewrite app_nil_r].
    + rewrite (WriteHeader_final StatusOK) by (done || (right; unfold StatusOK; lia)).
      unfold onWriter, bind, ret, closeBody, Printf.
      destruct e; cbn; [done|by rewrite app_nil_r].
Qed.

(** A final status on a fresh writer: headers, status and body are
    relayed. *)
Lemma ServeHTTP_relayed p r w u out resp :
  buildTargetURL p r = Some u → outbound rt p r = Some out →
  Do rt (httpClient p) out = inl resp →
  wStatus (writer w) = None → finalCode (StatusCode resp) →
  ServeHTTP rt p r w =
    Some ((), mkWorld
                (logged w ++ [(logger p, accessLine rt r u)]
                   ++ copyErrorLines rt p resp)
                (relayReply rt (writer w) resp)
                (sent w ++ [out]) (S (closed w))).
Proof.
  intros Hu Hout HDo Hw Hc. rewrite (ServeHTTP_answered p r w u out resp Hu Hout HDo).
  unfold bind at 1. rewrite (WriteHeader_final _ _ Hc) by done.
  rewrite copy_run. cbn [logged writer sent closed wStatus wHeader wInterim wSnapshot wBody
                         headersRelayed default].
  rewrite <- (assoc_L (++)). unfold relayReply. cbn zeta.
  case_bool_decide as Ed; [|done]. by rewrite Ed, append_nil_r.
Qed.

(** An informational status on a fresh writer: the headers go out with
    an informational response. *)
Lemma ServeHTTP_interim p r w u out resp :
  buildTargetURL p r = Some u → outbound rt p r = Some out →
  Do rt (httpClient p) out = inl resp →
  wStatus (writer w) = None → informationalCode (StatusCode resp) →
  ServeHTTP rt p r w =
    Some ((), mkWorld
                (logged w ++ [(logger p, accessLine rt r u)]
                   ++ copyErrorLines rt p resp)
                (interimReply rt (writer w) resp)
                (sent w ++ [out]) (S (closed w))).
Proof.
  intros Hu Hout HDo Hw Hc. rewrite (ServeHTTP_answered p r w u out resp Hu Hout HDo).
  unfold bind at 1. rewrite (WriteHeader_informational _ _ Hc) by done.
  rewrite copy_run. cbn [logged writer sent closed wStatus wHeader wInterim wSnapshot wBody
                         headersRelayed default].
  rewrite <- (assoc_L (++)). unfold interimReply. cbn zeta.
  case_bool_decide as Ed; [|done]. by rewrite Ed, append_nil_r.
Qed.

(** A status below 100 or above 999, on a fresh writer: the panic of
    [WriteHeader]. *)
Lemma ServeHTTP_bad_status p r w u out resp :
  buildTargetURL p r = Some u → outbound rt p r = Some out →
  Do rt (httpClient p) out = inl resp →
  wStatus (writer w) = None → StatusCode resp < 100 ∨ 999 < StatusCode resp →
  ServeHTTP rt p r w = None.
Proof.
  intros Hu Hout HDo Hw Hc. rewrite (ServeHTTP_answered p r w u out resp Hu Hout HDo).
  unfold bind at 1. by rewrite WriteHeader_invalid.
Qed.

(** Whenever [ServeHTTP] returns after the transport answered, the
    request was handed over once and the body closed once. *)
Lemma ServeHTTP_answered_inv p r w w' u out resp :
  buildTargetURL p r = Some u → outbound rt p r = Some out →
  Do rt (httpClient p) out = inl resp →
  ServeHTTP rt p r w = Some ((), w') →
  sent w' = sent w ++ [out] ∧ closed w' = S (closed w).
Proof.
  intros Hu Hout HDo. rewrite (ServeHTTP_answered p r w u out resp Hu Hout HDo).
  unfold bind at 1. destruct (WriteHeader _ _) as [[[] w1]|] eqn:Hw1; [|done].
  rewrite copy_run. intros [= <-]. cbn [sent closed].
  unfold WriteHeader, onWriter in Hw1. cbn [writer] in Hw1.
  destruct (wStatus _); [by injection Hw1 as <-|].
  destruct (_ || _); [done|]. by destruct (_ && _); injection Hw1 as <-.
Qed.

(** [ServeHTTP] panics in two cases only: the proxy has no target URL,
    or the caller's response is not started and the backend's status
    code is below 100 or above 999. *)
Lemma ServeHTTP_None p r w :
  ServeHTTP rt p r w = None ↔
    TargetURL (config p) = None ∨
    (wStatus (writer w) = None ∧
     ∃ out resp, outbound rt p r = Some out ∧ Do rt (httpClient p) out = inl resp ∧
                 (StatusCode resp < 100 ∨ 999 < StatusCode resp)).
Proof.
  destruct (TargetURL (config p)) as [t|] eqn:Ht.
  2:{ split; [by left|]. intros _.
      unfold ServeHTTP, bind, orPanic, buildTargetURL. by rewrite Ht. }
  destruct (buildTargetURL_Some p r t Ht) as [u Hu].
  destruct (NewRequest rt (Method r) (URLString rt u) (Body r)) as [req|err] eqn:Hreq.
  - destruct (outbound_eq p r t u req Ht Hu Hreq) as [out Hout].
    destruct (Do rt (httpClient p) out) as [resp|err] eqn:HDo.
    + rewrite (ServeHTTP_answered p r w u out resp Hu Hout HDo).
      unfold bind at 1.
      destruct (WriteHeader (StatusCode resp) _) as [[[] w1]|] eqn:Hw1.
      * rewrite copy_run. split; [done|]. intros [[=]|(Hw & out' & resp' & Ho & HD & Hc)].
        rewrite Hout in Ho. injection Ho as <-. rewrite HDo in HD. injection HD as <-.
        by rewrite WriteHeader_invalid in Hw1.
      * apply WriteHeader_None in Hw1 as [Hw Hc]. split; [|done]. intros _. right.
        split; [done|]. by exists out, resp.
    + rewrite (ServeHTTP_backend_failed p r w u out err Hu Hout HDo).
      split; [done|]. intros [[=]|(_ & out' & resp' & Ho & HD & _)].
      rewrite Hout in Ho. injection Ho as <-. by rewrite HDo in HD.
  - rewrite (ServeHTTP_construction_failed p r w u err Hu Hreq).
    split; [done|]. intros [[=]|(_ & out' & resp' & Ho & _)].
    unfold outbound, prepared in Ho. rewrite Hu in Ho. cbn in Ho. by rewrite Hreq in Ho.
Qed.

End ServeFacts.

(** ** NewProxy and the target URL resolver *)

Lemma NewProxy_inl cfg lg p :
  NewProxy cfg lg = inl p →
  TargetURL (config p) = TargetURL cfg ∧ is_Some (TargetURL cfg) ∧
  ListenAddr cfg ≠ "" ∧ CustomHeaders (config p) = CustomHeaders cfg.
Proof.
  unfold NewProxy. destruct (TargetURL cfg) as [t|] eqn:Ht; [|done].
  case_bool_decide as El; [done|]. intros [= <-]. cbn.
  case_bool_decide; cbn; eauto.
Qed.

(** C9. [NewProxy] fails exactly when the target URL is nil or the listen
    address is empty.  Every other configuration gives a proxy that keeps
    the configuration, with a zero timeout replaced by thirty seconds and
    a nil logger by the default logger, whose client uses that timeout
    and follows no redirect, and whose [ServeHTTP] finds its target URL
    for every request: it panics only where [WriteHeader] does, on a
    response not yet started when the backend's status code is below
    100 or above 999. *)
Theorem NewProxy_error_iff cfg lg :
  ((∃ e, NewProxy cfg lg = inr e) ↔ TargetURL cfg = None ∨ ListenAddr cfg = "") ∧
  (TargetURL cfg ≠ None → ListenAddr cfg ≠ "" →
   ∃ p, NewProxy cfg lg = inl p ∧
     ListenAddr (config p) = ListenAddr cfg ∧
     TargetURL (config p) = TargetURL cfg ∧
     CustomHeaders (config p) = CustomHeaders cfg ∧
     Timeout (config p) = (if bool_decide (Timeout cfg = 0) then 30 * Second
                           else Timeout cfg) ∧
     ClientTimeout (httpClient p) = Timeout (config p) ∧
     FollowRedirects (httpClient p) = false ∧
     logger p = default DefaultLogger lg ∧
     ∀ rt r w,
       is_Some (buildTargetURL p r) ∧
       (ServeHTTP rt p r w = None ↔
          wStatus (writer w) = None ∧
          ∃ out resp,
            outbound rt p r = Some out ∧ Do rt (httpClient p) out = inl resp ∧
            (StatusCode resp < 100 ∨ 999 < StatusCode resp))).
Proof.
  split.
  - unfold NewProxy. destruct (TargetURL cfg) as [t|].
    + case_bool_decide as El.
      * split; [by right|]. intros _. eauto.
      * split; [by intros [e [=]]|]. by intros [|].
    + split; [by left|]. intros _. eauto.
  - intros Ht Hl. unfold NewProxy.
    destruct (TargetURL cfg) as [t|] eqn:Et; [|done].
    rewrite bool_decide_eq_false_2 by done.
    eexists. split; [reflexivity|]. cbn.
    split; [by case_bool_decide|]. split; [by case_bool_decide|].
    split; [by case_bool_decide|]. split; [by case_bool_decide|].
    split; [by case_bool_decide|]. split; [done|].
    split; [by destruct lg|].
    intros rt r w.
    split.
    + apply (buildTargetURL_Some _ _ t). by case_bool_decide.
    + rewrite ServeHTTP_None. split; [|by right].
      intros [Hnone|Hbad]; [|done]. case_bool_decide; cbn in Hnone; congruence.
Qed.

Lemma NewProxy_error_iff_witness :
  ∃ p, NewProxy (mkProxyConfig ":8080" (Some backend) 0 ∅) None = inl p ∧
       Timeout (config p) = 30 * Second ∧ logger p = DefaultLogger.
Proof.
  destruct (proj2 (NewProxy_error_iff (mkProxyConfig ":8080" (Some backend) 0 ∅) None))
    as (p & Hp & _ & _ & _ & Ht & _ & _ & Hl & _); [done|done|].
  exists p. by repeat split.
Defined.

(** C3. For a proxy built by [NewProxy], [buildTargetURL] returns a URL
    for every request: scheme and host are the base's, the raw query is
    the request's, and the path is the request's path, prefixed, when the
    base path is neither empty nor ["/"], by the base path without one
    trailing slash; the path bytes are concatenated as they are. *)
Theorem buildTargetURL_resolves cfg lg p r :
  NewProxy cfg lg = inl p →
  ∃ base u,
    TargetURL cfg = Some base ∧ buildTargetURL p r = Some u ∧
    Scheme u = Scheme base ∧ URLHost u = URLHost base ∧
    RawQuery u = RawQuery (ReqURL r) ∧
    (Path base ≠ "" → Path base ≠ "/" →
       Path u = GoStrings.TrimSuffix (Path base) "/" +:+ Path (ReqURL r) ∧
       (∀ b, Path base = b +:+ "/" → Path u = b +:+ Path (ReqURL r)) ∧
       ((∀ b, Path base ≠ b +:+ "/") → Path u = Path base +:+ Path (ReqURL r)) ∧
       (Path (ReqURL r) = "" → Path u = GoStrings.TrimSuffix (Path base) "/")) ∧
    (Path base = "" ∨ Path base = "/" → Path u = Path (ReqURL r)).
Proof.
  intros Hp. destruct (NewProxy_inl _ _ _ Hp) as (Ht & [base Hb] & _ & _).
  rewrite Hb in Ht. exists base. unfold buildTargetURL. rewrite Ht. cbn.
  eexists. split; [done|]. split; [reflexivity|].
  destruct (decide (Path base = "")) as [E1|N1];
    [|destruct (decide (Path base = "/")) as [E2|N2]].
  - rewrite (bool_decide_eq_false_2 (Path base ≠ "")) by auto. cbn.
    repeat split; try done.
  - rewrite (bool_decide_eq_true_2 (Path base ≠ "")) by auto.
    rewrite (bool_decide_eq_false_2 (Path base ≠ "/")) by auto. cbn.
    repeat split; try done.
  - rewrite (bool_decide_eq_true_2 (Path base ≠ "")) by auto.
    rewrite (bool_decide_eq_true_2 (Path base ≠ "/")) by auto. cbn.
    repeat split; try done.
    + intros b ->. by rewrite TrimSuffix_app.
    + intros Hno. by rewrite TrimSuffix_other.
    + intros ->. by rewrite append_nil_r.
    + by intros [|].
Qed.

Lemma buildTargetURL_resolves_witness :
  ∃ u, buildTargetURL (proxyFor (mkURL "https" "example.com" "/base/" "") ∅)
         (inbound "GET" "/x" ∅ "localhost:8080" "192.168.1.100:12345") = Some u ∧
       Path u = "/base/x" ∧ Scheme u = "https" ∧ URLHost u = "example.com".
Proof.
  destruct (buildTargetURL_resolves
              (mkProxyConfig ":8080" (Some (mkURL "https" "example.com" "/base/" "")) 0 ∅)
              None
              (proxyFor (mkURL "https" "example.com" "/base/" "") ∅)
              (inbound "GET" "/x" ∅ "localhost:8080" "192.168.1.100:12345")
              eq_refl)
    as (base & u & Hb & Hu & Hs & Hh & _ & Hpath & _).
  injection Hb as <-. exists u. split; [exact Hu|].
  destruct Hpath as (_ & Hp & _); [done|done|].
  split; [exact (Hp "/base" eq_refl)|]. by split.
Defined.

(** ** The outbound request of the pipeline *)

Section Pipeline.

Import GoHttp.
Variable rt : Runtime.
Hypothesis ranges : RangeOK rt.
Implicit Types (p : Proxy) (r : Request).

Lemma Host_fold name : CanonicalHeaderKey name = "Host" ↔ Bytes.EqualFold name "Host".
Proof. by apply CanonicalHeaderKey_fold. Qed.

Lemma prepared_shape p r dst :
  prepared rt p r = Some dst →
  ∃ t req,
    TargetURL (config p) = Some t ∧
    dst = customLoop (rangeCustom rt (CustomHeaders (config p)))
            (withHost
               (withHeader req (copyLoop (rangeRequest rt (ReqHeader r)) ∅))
               (URLHost t)).
Proof.
  intros Hd. destruct (prepared_inv rt p r dst Hd) as (t & u & req & Ht & Hu & Hreq).
  rewrite (prepared_eq rt p r t u req Ht Hu Hreq) in Hd.
  injection Hd as <-. by exists t, req.
Qed.

Lemma prepared_lookup p r dst K :
  prepared rt p r = Some dst →
  ReqHeader dst !! K =
    let copied := copyLoop (rangeRequest rt (ReqHeader r)) ∅ !! K in
    if decide (K = "Host") then copied
    else match lastOverride K (rangeCustom rt (CustomHeaders (config p))) with
         | Some v => Some [v]
         | None => copied
         end.
Proof.
  intros Hd. destruct (prepared_shape p r dst Hd) as (t & req & Ht & ->).
  cbn zeta. case_decide as EK.
  - subst K. by rewrite customLoop_lookup_Host.
  - by rewrite customLoop_lookup.
Qed.

Lemma prepared_Host p r dst :
  prepared rt p r = Some dst →
  ∃ t, TargetURL (config p) = Some t ∧
       Host dst = default (URLHost t)
                    (lastOverride "Host" (rangeCustom rt (CustomHeaders (config p)))).
Proof.
  intros Hd. destruct (prepared_shape p r dst Hd) as (t & req & Ht & ->).
  exists t. split; [done|]. by rewrite customLoop_Host.
Qed.

Lemma custom_elem p name value :
  (name, value) ∈ rangeCustom rt (CustomHeaders (config p)) ↔
  CustomHeaders (config p) !! name = Some value.
Proof. apply range_elem, ranges. Qed.

(** The request [ServeHTTP] sends is the one [outbound] describes. *)
Lemma ServeHTTP_sent p r w w' out :
  ServeHTTP rt p r w = Some ((), w') → sent w' = sent w ++ [out] →
  outbound rt p r = Some out.
Proof.
  intros Hrun Hsent.
  destruct (TargetURL (config p)) as [t|] eqn:Ht.
  - destruct (buildTargetURL_Some p r t Ht) as [u Hu].
    destruct (NewRequest rt (Method r) (URLString rt u) (Body r)) as [req|err] eqn:Hreq.
    + destruct (outbound_eq rt p r t u req Ht Hu Hreq) as [out' Hout].
      rewrite Hout. f_equal.
      destruct (Do rt (httpClient p) out') as [resp|err] eqn:HDo.
      * destruct (ServeHTTP_answered_inv rt p r w w' u out' resp Hu Hout HDo Hrun)
          as [Hsent' _].
        rewrite Hsent' in Hsent. by simplify_list_eq.
      * rewrite (ServeHTTP_backend_failed rt p r w u out' err Hu Hout HDo) in Hrun.
        injection Hrun as <-. cbn in Hsent. by simplify_list_eq.
    + rewrite (ServeHTTP_construction_failed rt p r w u err Hu Hreq) in Hrun.
      injection Hrun as <-. cbn in Hsent.
      apply (f_equal length) in Hsent. rewrite length_app in Hsent. cbn in Hsent. lia.
  - unfold ServeHTTP, bind, orPanic, buildTargetURL in Hrun.
    rewrite Ht in Hrun. done.
Qed.

End Pipeline.

Lemma plainRuntime_ranges answer copy : RangeOK (plainRuntime answer copy).
Proof. by split. Qed.

(** ** The Host of the outbound request *)

(** C8. The outbound request's Host field is the target base URL's host
    whatever Host the inbound request carried, unless a custom header is
    named [Host] up to letter case: then the field is the value of such
    an override (of that override when it is the only one, or when they
    all agree), and the override adds nothing to the header map. *)
Theorem outbound_Host rt p r out :
  RangeOK rt → outbound rt p r = Some out →
  ∃ t, TargetURL (config p) = Some t ∧
    ((∀ name value, ¬ hostOverride p name value) → Host out = URLHost t) ∧
    (∀ name value, hostOverride p name value →
       (∃ name', hostOverride p name' (Host out)) ∧
       ((∀ name' value', hostOverride p name' value' → value' = value) →
        Host out = value)) ∧
    GoHttp.Values (ReqHeader out) "Host" = carried (rangeRequest rt (ReqHeader r)) "Host".
Proof.
  intros ranges Hout.
  destruct (outbound_inv rt p r out Hout) as (dst & Hd & ->).
  destruct (prepared_Host rt p r dst Hd) as (t & Ht & HH).
  exists t. split; [done|]. rewrite addForwardedHeaders_Host, HH.
  split; [|split].
  - intros Hno. rewrite lastOverride_None; [done|].
    intros [name value] Hin HK. apply (Hno name value). split.
    + by apply (custom_elem rt ranges).
    + by apply Host_fold.
  - intros name value [Hin HE].
    apply (custom_elem rt ranges) in Hin. apply Host_fold in HE.
    split.
    + destruct (lastOverride_is_Some _ _ _ _ Hin HE) as [v' L]. rewrite L. cbn.
      apply lastOverride_elem in L as (name' & Hin' & HK').
      exists name'. split; [by apply (custom_elem rt ranges)|by apply Host_fold].
    + intros Hall. rewrite (lastOverride_agree "Host" _ name value); [done..|].
      intros name' value' Hin' HK'. apply (Hall name'). split.
      * by apply (custom_elem rt ranges).
      * by apply Host_fold.
  - unfold GoHttp.Values at 1. change (GoHttp.CanonicalHeaderKey "Host") with "Host".
    rewrite addForwardedHeaders_lookup. rewrite !decide_False by done.
    rewrite (prepared_lookup rt p r dst "Host" Hd). cbn zeta.
    rewrite decide_True by done.
    pose proof (Values_copyLoop (rangeRequest rt (ReqHeader r)) ∅ "Host") as HV.
    unfold GoHttp.Values in HV at 1.
    change (GoHttp.CanonicalHeaderKey "Host") with "Host" in HV.
    rewrite HV. reflexivity.
Qed.

Lemma outbound_Host_witness :
  ∃ out, outbound (answers ok200)
           (proxyFor backend {[ "host" := "api.example.com" ]})
           (inbound "GET" "/" ∅ "localhost:8080" "192.168.1.100:12345") = Some out ∧
         Host out = "api.example.com".
Proof.
  destruct (outbound (answers ok200)
              (proxyFor backend {[ "host" := "api.example.com" ]})
              (inbound "GET" "/" ∅ "localhost:8080" "192.168.1.100:12345"))
    as [out|] eqn:E; [|vm_compute in E; discriminate].
  exists out. split; [done|].
  destruct (outbound_Host _ _ _ out (plainRuntime_ranges _ _) E) as (t & _ & _ & Hov & _).
  destruct (Hov "host" "api.example.com") as [_ Hone].
  - split; [reflexivity|by vm_compute].
  - apply Hone. intros name' value' [Hl _].
    cbn in Hl. apply lookup_singleton_Some in Hl as [_ <-]. done.
Defined.

(** ** Step 1: filtering and copying *)

Lemma copyLoop_hop_absent src name :
  isHopByHop name → copyLoop src ∅ !! name = None.
Proof.
  intros Hhop. apply shouldSkipHeader_iff in Hhop.
  rewrite shouldSkipHeader_key in Hhop.
  rewrite copyLoop_lookup, lookup_empty.
  destruct (default false (skipHeaders !! name)) eqn:Sk; [done|].
  rewrite carriedAt_absent; [done|].
  intros kv _ <-. by rewrite CanonicalHeaderKey_idem, Sk in Hhop.
Qed.

Lemma browserHeaders_canonical : canonicalKeys browserHeaders.
Proof.
  intros k [v Hk]. unfold browserHeaders in Hk.
  apply lookup_insert_Some in Hk as [[<- _]|[_ Hk]]; [done|].
  apply lookup_singleton_Some in Hk as [<- _]. done.
Qed.

(** ** Step 4 happens before step 3: custom headers and injection *)

(** Unless [WriteHeader] panics, [ServeHTTP] hands the request that
    [outbound] describes to the client. *)
Lemma ServeHTTP_sends rt p r w out :
  outbound rt p r = Some out →
  (∀ resp, Do rt (httpClient p) out = inl resp → 100 ≤ StatusCode resp ≤ 999) →
  ∃ w', ServeHTTP rt p r w = Some ((), w') ∧ sent w' = sent w ++ [out].
Proof.
  intros Hout Hcode. destruct (outbound_inv rt p r out Hout) as (dst & Hd & _).
  destruct (prepared_inv rt p r dst Hd) as (t & u & req & Ht & Hu & Hreq).
  destruct (Do rt (httpClient p) out) as [resp|err] eqn:HDo.
  - destruct (ServeHTTP rt p r w) as [[[] w']|] eqn:Hrun.
    + exists w'. split; [done|].
      by destruct (ServeHTTP_answered_inv rt p r w w' u out resp Hu Hout HDo Hrun).
    + apply ServeHTTP_None in Hrun as [Hnone|(_ & out' & resp' & Ho & HD & Hc)];
        [congruence|].
      rewrite Hout in Ho. injection Ho as <-. rewrite HDo in HD. injection HD as <-.
      specialize (Hcode resp eq_refl). lia.
  - rewrite (ServeHTTP_backend_failed rt p r w u out err Hu Hout HDo). eauto.
Qed.

(** The backends of the examples answer with a three-digit status. *)
Lemma answers_ok200 c out resp :
  Do (answers ok200) c out = inl resp → 100 ≤ StatusCode resp ≤ 999.
Proof. intros [= <-]. cbn. lia. Qed.

Lemma Get_single (h : GoHttp.Header) name v :
  h !! GoHttp.CanonicalHeaderKey name = Some [v] → GoHttp.Get h name = v.
Proof. unfold GoHttp.Get, GoHttp.Values. by intros ->. Qed.

(** C1, as the code has it.  A custom header not named Host replaces
    whatever the copy loop left under its name: the request [ServeHTTP]
    sends carries exactly one value there, the value of a custom header
    of that name (of this one when no other custom header has the same
    canonical name with another value), unless the name is one of the
    forwarded-context names.  Those are injected after the custom
    headers: X-Forwarded-Proto is always the inbound scheme,
    X-Forwarded-Host is the inbound Host when that is not empty, and
    X-Forwarded-For gets the client IP appended when there is one. *)
Theorem override_then_injection rt p r w w' out name value :
  RangeOK rt → ServeHTTP rt p r w = Some ((), w') → sent w' = sent w ++ [out] →
  CustomHeaders (config p) !! name = Some value → ¬ Bytes.EqualFold name "Host" →
  ∃ v,
    (∃ name', CustomHeaders (config p) !! name' = Some v ∧
              GoHttp.CanonicalHeaderKey name' = GoHttp.CanonicalHeaderKey name) ∧
    ((∀ name' value', CustomHeaders (config p) !! name' = Some value' →
        GoHttp.CanonicalHeaderKey name' = GoHttp.CanonicalHeaderKey name →
        value' = value) → v = value) ∧
    (GoHttp.CanonicalHeaderKey name ∉ forwardedNames →
       GoHttp.Values (ReqHeader out) name = [v]) ∧
    (GoHttp.CanonicalHeaderKey name = "X-Forwarded-Proto" →
       GoHttp.Values (ReqHeader out) name = [if TLS r then "https" else "http"]) ∧
    (GoHttp.CanonicalHeaderKey name = "X-Forwarded-Host" →
       GoHttp.Values (ReqHeader out) name =
         [if bool_decide (Host r ≠ "") then Host r else v]) ∧
    (GoHttp.CanonicalHeaderKey name = "X-Forwarded-For" →
       GoHttp.Values (ReqHeader out) name =
         [if bool_decide (getClientIP r ≠ "")
          then if bool_decide (v ≠ "") then v +:+ ", " +:+ getClientIP r
               else getClientIP r
          else v]).
Proof.
  intros ranges Hrun Hsent Hc HnH.
  pose proof (ServeHTTP_sent rt p r w w' out Hrun Hsent) as Hout.
  destruct (outbound_inv rt p r out Hout) as (dst & Hd & ->).
  set (K := GoHttp.CanonicalHeaderKey name).
  assert (K ≠ "Host") as HK.
  { intros HK. apply HnH. apply Host_fold. exact HK. }
  apply (custom_elem rt ranges) in Hc.
  destruct (lastOverride_is_Some K _ name value Hc eq_refl) as [v L].
  assert (ReqHeader dst !! K = Some [v]) as Hdst.
  { rewrite (prepared_lookup rt p r dst K Hd). cbn zeta.
    by rewrite decide_False, L. }
  exists v. split; [|split].
  - apply lastOverride_elem in L as (name' & Hin & HK').
    exists name'. split; [by apply (custom_elem rt ranges)|done].
  - intros Hall. apply lastOverride_elem in L as (name' & Hin & HK').
    apply (Hall name'); [by apply (custom_elem rt ranges)|done].
  - unfold GoHttp.Values. fold K. rewrite addForwardedHeaders_lookup.
    unfold forwardedNames. rewrite !not_elem_of_cons.
    repeat split.
    + intros (NF & NH & NP & _). by rewrite !decide_False, Hdst.
    + intros ->. by rewrite decide_True.
    + intros ->. rewrite decide_False, decide_True by done.
      case_bool_decide; [done|by rewrite Hdst].
    + intros EK. rewrite EK in *.
      rewrite !decide_False, decide_True by done.
      rewrite (Get_single _ "X-Forwarded-For" v Hdst).
      case_bool_decide; [done|by rewrite Hdst].
Qed.

Lemma override_then_injection_witness :
  ∃ out,
    outbound (answers ok200)
      (proxyFor backend {[ "authorization" := "Bearer token123" ]})
      (inbound "GET" "/" {[ "Authorization" := ["Basic b2xk"] ]} "localhost:8080"
         "192.168.1.100:12345") = Some out ∧
    GoHttp.Values (ReqHeader out) "Authorization" = ["Bearer token123"].
Proof.
  destruct (outbound (answers ok200)
              (proxyFor backend {[ "authorization" := "Bearer token123" ]})
              (inbound "GET" "/" {[ "Authorization" := ["Basic b2xk"] ]} "localhost:8080"
                 "192.168.1.100:12345"))
    as [out|] eqn:E; [|vm_compute in E; discriminate].
  exists out. split; [done|].
  destruct (ServeHTTP_sends _ _ _ newWorld out E (answers_ok200 _ _))
    as (w' & Hrun & Hsent).
  destruct (override_then_injection _ _ _ _ _ out "authorization" "Bearer token123"
              (plainRuntime_ranges _ _) Hrun Hsent eq_refl)
    as (v & _ & Hv & Hplain & _).
  - compute_done.
  - rewrite <- Hv at 1.
    + apply Hplain. compute_done.
    + intros name' value' Hl _. cbn in Hl.
      apply lookup_singleton_Some in Hl as [_ <-]. done.
Defined.

(** C1 as stated fails: a custom [X-Forwarded-Proto: https] on a request
    that arrived without TLS never reaches the backend; the request
    [ServeHTTP] sends carries the injected [http]. *)
Lemma override_wins_counterexample :
  (∃ w' out,
     ServeHTTP (answers ok200)
       (proxyFor backend {[ "X-Forwarded-Proto" := "https" ]}) plainRequest newWorld
       = Some ((), w') ∧
     sent w' = [out] ∧
     GoHttp.Values (ReqHeader out) "X-Forwarded-Proto" = ["http"]) ∧
  ¬ (∀ rt p r w w' out name value,
       RangeOK rt → ServeHTTP rt p r w = Some ((), w') → sent w' = sent w ++ [out] →
       CustomHeaders (config p) !! name = Some value → ¬ Bytes.EqualFold name "Host" →
       GoHttp.Values (ReqHeader out) name = [value]).
Proof.
  destruct (outbound (answers ok200)
              (proxyFor backend {[ "X-Forwarded-Proto" := "https" ]}) plainRequest)
    as [out|] eqn:E; [|vm_compute in E; discriminate].
  destruct (ServeHTTP_sends _ _ _ newWorld out E (answers_ok200 _ _))
    as (w' & Hrun & Hsent).
  assert (GoHttp.Values (ReqHeader out) "X-Forwarded-Proto" = ["http"]) as Hproto.
  { destruct (outbound_inv _ _ _ _ E) as (dst & _ & ->).
    unfold GoHttp.Values.
    rewrite canonical_XFP, addForwardedHeaders_lookup, decide_True by done.
    reflexivity. }
  split.
  - exists w', out. split; [exact Hrun|]. split; [exact Hsent|exact Hproto].
  - intros claim.
    assert (¬ Bytes.EqualFold "X-Forwarded-Proto" "Host") as HnH by compute_done.
    specialize (claim _ _ _ _ _ out "X-Forwarded-Proto" "https"
                  (plainRuntime_ranges _ _) Hrun Hsent eq_refl HnH).
    rewrite Hproto in claim. discriminate claim.
Qed.

(** ** Step 3: forwarded-context injection *)

(** C4, as the code has it.  With the client IP derived from the inbound
    request: a non-empty client IP sets X-Forwarded-For to
    ["<prior>, <clientIP>"] when the outbound request had a (non-empty
    first) value [prior], and to the client IP alone otherwise; an empty
    client IP leaves X-Forwarded-For as it was.  X-Forwarded-Host is the
    inbound Host when that is not empty; when it is empty the header is
    not set, so it stays as the outbound request had it: absent if it was
    absent.  X-Forwarded-Proto is ["https"] exactly when the inbound
    connection has TLS, and ["http"] otherwise. *)
Theorem addForwardedHeaders_injects src dst :
  let out := addForwardedHeaders src dst in
  let clientIP := getClientIP src in
  let prior := GoHttp.Get (ReqHeader dst) "X-Forwarded-For" in
  (clientIP ≠ "" → prior ≠ "" →
     GoHttp.Values (ReqHeader out) "X-Forwarded-For" = [prior +:+ ", " +:+ clientIP]) ∧
  (clientIP ≠ "" → prior = "" →
     GoHttp.Values (ReqHeader out) "X-Forwarded-For" = [clientIP]) ∧
  (clientIP = "" →
     ReqHeader out !! "X-Forwarded-For" = ReqHeader dst !! "X-Forwarded-For") ∧
  (Host src ≠ "" → GoHttp.Values (ReqHeader out) "X-Forwarded-Host" = [Host src]) ∧
  (Host src = "" →
     ReqHeader out !! "X-Forwarded-Host" = ReqHeader dst !! "X-Forwarded-Host") ∧
  (Host src = "" → ReqHeader dst !! "X-Forwarded-Host" = None →
     ReqHeader out !! "X-Forwarded-Host" = None) ∧
  GoHttp.Values (ReqHeader out) "X-Forwarded-Proto"
    = [if TLS src then "https" else "http"] ∧
  (GoHttp.Values (ReqHeader out) "X-Forwarded-Proto" = ["https"] ↔ TLS src = true).
Proof.
  cbn zeta. unfold GoHttp.Values.
  rewrite canonical_XFF, canonical_XFH, canonical_XFP.
  rewrite !addForwardedHeaders_lookup.
  rewrite (decide_True (P := "X-Forwarded-Proto" = "X-Forwarded-Proto")) by done.
  rewrite (decide_False (P := "X-Forwarded-Host" = "X-Forwarded-Proto")) by done.
  rewrite (decide_True (P := "X-Forwarded-Host" = "X-Forwarded-Host")) by done.
  rewrite (decide_False (P := "X-Forwarded-For" = "X-Forwarded-Proto")) by done.
  rewrite (decide_False (P := "X-Forwarded-For" = "X-Forwarded-Host")) by done.
  rewrite (decide_True (P := "X-Forwarded-For" = "X-Forwarded-For")) by done.
  cbn zeta. repeat split.
  - intros Hip Hprior.
    rewrite (bool_decide_eq_true_2 (getClientIP src ≠ "")) by done.
    by rewrite bool_decide_eq_true_2.
  - intros Hip Hprior.
    rewrite (bool_decide_eq_true_2 (getClientIP src ≠ "")) by done.
    by rewrite bool_decide_eq_false_2 by auto.
  - intros Hip. by rewrite bool_decide_eq_false_2 by auto.
  - intros HH. by rewrite bool_decide_eq_true_2.
  - intros HH. by rewrite bool_decide_eq_false_2 by auto.
  - intros HH Hd. rewrite bool_decide_eq_false_2 by auto. done.
  - by destruct (TLS src).
  - by destruct (TLS src).
Qed.

Lemma addForwardedHeaders_injects_witness :
  GoHttp.Values (ReqHeader (addForwardedHeaders plainRequest chained)) "X-Forwarded-For"
    = ["10.0.0.1, 192.168.1.100"] ∧
  GoHttp.Values (ReqHeader (addForwardedHeaders plainRequest chained)) "X-Forwarded-Host"
    = ["localhost:8080"].
Proof.
  destruct (addForwardedHeaders_injects plainRequest chained)
    as (Hxff & _ & _ & Hxfh & _).
  split.
  - apply Hxff; differ.
  - apply Hxfh. differ.
Defined.

(** C4 as stated fails: a request with an empty Host that brings its own
    X-Forwarded-Host reaches the backend with that header. *)
Lemma forwarded_host_counterexample :
  (∃ out,
     outbound (answers ok200) (proxyFor backend ∅) hostlessRequest = Some out ∧
     Host hostlessRequest = "" ∧
     ReqHeader out !! "X-Forwarded-Host" = Some ["spoofed.example"]) ∧
  ¬ (∀ rt p r out,
       RangeOK rt → outbound rt p r = Some out → Host r = "" →
       ReqHeader out !! "X-Forwarded-Host" = None).
Proof.
  destruct (outbound (answers ok200) (proxyFor backend ∅) hostlessRequest)
    as [out|] eqn:E; [|vm_compute in E; discriminate].
  assert (ReqHeader out !! "X-Forwarded-Host" = Some ["spoofed.example"]) as Hxfh.
  { vm_compute in E. injection E as <-. vm_compute. reflexivity. }
  split.
  - exists out. split; [reflexivity|]. split; [reflexivity|exact Hxfh].
  - intros claim.
    specialize (claim _ _ _ out (plainRuntime_ranges _ _) E eq_refl).
    rewrite Hxfh in claim. discriminate claim.
Qed.

(** ** strings.Split and the byte searches *)

Section SearchFacts.

Import GoStrings.
Implicit Types (l : list ascii) (c : ascii) (s : string).

Lemma Split_first s sep :
  ∃ first rest,
    Split s sep = first :: rest ∧ (sep ∉ Bytes.of_string first) ∧
    ((s = first ∧ rest = []) ∨
     (∃ tail, s = first +:+ String sep tail ∧ rest = Split tail sep)).
Proof.
  induction s as [|c s IH].
  - exists "", []. repeat split; [apply not_elem_of_nil|by left].
  - cbn [Split]. destruct (Bytes.eqb c sep) eqn:E.
    + apply eqb_true in E as ->. exists "", (Split s sep).
      repeat split; [apply not_elem_of_nil|]. right. by exists s.
    + apply eqb_false in E. destruct IH as (first & rest & -> & Hno & Hs).
      exists (String c first), rest. repeat split.
      * cbn. rewrite not_elem_of_cons. split; [congruence|done].
      * destruct Hs as [[-> ->]|(tail & -> & ->)]; [by left|].
        right. by exists tail.
Qed.

Lemma IndexByte_None l c : IndexByte l c = None ↔ c ∉ l.
Proof.
  induction l as [|b l IH]; cbn.
  - split; [intros _; apply not_elem_of_nil|done].
  - rewrite not_elem_of_cons. destruct (Bytes.eqb b c) eqn:E.
    + apply eqb_true in E as ->. split; [done|]. by intros [? _].
    + apply eqb_false in E. rewrite fmap_None, IH. intuition congruence.
Qed.

Lemma IndexByte_Some l c i :
  IndexByte l c = Some i → l !! i = Some c ∧ c ∉ take i l.
Proof.
  revert i. induction l as [|b l IH]; intros i; cbn; [done|].
  destruct (Bytes.eqb b c) eqn:E.
  - apply eqb_true in E as ->. intros [= <-]. split; [done|apply not_elem_of_nil].
  - apply eqb_false in E. intros Hi. apply fmap_Some in Hi as (j & Hj & ->).
    destruct (IH j Hj) as [Hl Hno]. split; [done|].
    cbn. rewrite not_elem_of_cons. split; [congruence|done].
Qed.

Lemma LastIndexByte_None l c : LastIndexByte l c = None ↔ c ∉ l.
Proof.
  induction l as [|b l IH]; cbn.
  - split; [intros _; apply not_elem_of_nil|done].
  - rewrite not_elem_of_cons, <- IH.
    destruct (LastIndexByte l c); [intuition congruence|].
    destruct (Bytes.eqb b c) eqn:E.
    + apply eqb_true in E as ->. intuition congruence.
    + apply eqb_false in E. intuition congruence.
Qed.

Lemma LastIndexByte_Some l c i :
  LastIndexByte l c = Some i →
  l = take i l ++ c :: drop (S i) l ∧ c ∉ drop (S i) l.
Proof.
  revert i. induction l as [|b l IH]; intros i; cbn [LastIndexByte]; [done|].
  destruct (LastIndexByte l c) as [j|] eqn:L.
  - intros [= <-]. destruct (IH j eq_refl) as [Hl Hno]. cbn. split; [|done].
    by rewrite <- Hl.
  - destruct (Bytes.eqb b c) eqn:E; [|done].
    apply eqb_true in E as ->. intros [= <-]. cbn. rewrite drop_0.
    split; [done|]. by apply LastIndexByte_None.
Qed.

Lemma LastIndexByte_app l c tail :
  c ∉ tail → LastIndexByte (l ++ c :: tail) c = Some (length l).
Proof.
  intros Hno. induction l as [|b l IH]; cbn.
  - apply LastIndexByte_None in Hno. rewrite Hno.
    by rewrite (proj2 (eqb_true c c)).
  - by rewrite IH.
Qed.

End SearchFacts.


(** ** net.SplitHostPort *)

Section SplitHostPortFacts.

Import GoStrings GoNet.

Lemma hasByte_false l c : hasByte l c = false ↔ c ∉ l.
Proof.
  unfold hasByte. rewrite bool_decide_eq_false, <- IndexByte_None.
  rewrite <- eq_None_not_Some. done.
Qed.

(** An address without a colon has no port to split off. *)
Lemma SplitHostPort_no_colon hostport :
  ":"%char ∉ Bytes.of_string hostport → SplitHostPort hostport = None.
Proof.
  intros Hno. unfold SplitHostPort.
  by rewrite (proj2 (LastIndexByte_None _ _) Hno).
Qed.

(** What [SplitHostPort] returns is the address without its trailing
    [":port"], and without the brackets of a bracketed host. *)
Lemma SplitHostPort_Some hostport host port :
  SplitHostPort hostport = Some (host, port) →
  (hostport = host +:+ ":" +:+ port ∨ hostport = "[" +:+ host +:+ "]:" +:+ port) ∧
  ":"%char ∉ Bytes.of_string port.
Proof.
  unfold SplitHostPort. set (hp := Bytes.of_string hostport).
  destruct (LastIndexByte hp ":") as [i|] eqn:Hi; [|done].
  destruct (LastIndexByte_Some hp _ i Hi) as [Hsplit Hport].
  assert (hostport = Bytes.to_string (take i hp) +:+ ":" +:+ Bytes.to_string (drop (S i) hp))
    as Hwhole.
  { rewrite <- (to_of_string hostport). fold hp. rewrite Hsplit at 1.
    by rewrite to_string_app. }
  destruct hp as [|c hp'] eqn:Ehp; [done|].
  destruct (Bytes.eqb c "[") eqn:Ec.
  - apply eqb_true in Ec as ->.
    destruct (IndexByte ("["%char :: hp') "]") as [e|] eqn:He; [|done]. cbn [mbind option_bind].
    case_bool_decide as E1; [done|]. case_bool_decide as E2; [|done].
    cbn [mbind option_bind].
    destruct (hasByte _ "["); [done|]. destruct (hasByte _ "]"); [done|].
    intros [= <- <-]. rewrite of_to_string. split; [|done]. right.
    rewrite Hwhole at 1. subst i.
    destruct (IndexByte_Some _ _ _ He) as [Hl _].
    destruct e as [|e]; [done|].
    rewrite <- (append_assoc "[" _ (_ +:+ _)), <- (append_assoc _ "]:" _).
    rewrite <- (append_assoc _ ":" _). f_equal.
    change ("]:") with ("]" +:+ ":"). rewrite <- (append_assoc _ "]" ":"). f_equal.
    unfold slice. cbn [drop]. rewrite drop_0.
    replace (S e - 1)%nat with e by lia.
    rewrite (take_S_r _ (S e) "]"%char) by done. cbn [take].
    rewrite to_string_app. reflexivity.
  - cbn [mbind option_bind]. destruct (hasByte (take i _) ":"); [done|].
    cbn [mbind option_bind].
    destruct (hasByte _ "["); [done|]. destruct (hasByte _ "]"); [done|].
    intros [= <- <-]. rewrite of_to_string. split; [by left|done].
Qed.

(** A host and a port free of colons and brackets are split apart. *)
Lemma SplitHostPort_plain host port :
  (∀ c, c ∈ [":"; "["; "]"]%char →
        (c ∉ Bytes.of_string host) ∧ (c ∉ Bytes.of_string port)) →
  SplitHostPort (host +:+ ":" +:+ port) = Some (host, port).
Proof.
  intros Hfree.
  destruct (Hfree ":"%char) as [Hh1 Hp1]; [by left|].
  destruct (Hfree "["%char) as [Hh2 Hp2]; [by right; left|].
  destruct (Hfree "]"%char) as [Hh3 Hp3]; [by right; right; left|].
  unfold SplitHostPort.
  rewrite !of_string_app. change (Bytes.of_string ":") with [":"%char].
  cbn [app]. rewrite LastIndexByte_app by done.
  assert (match Bytes.of_string host ++ ":"%char :: Bytes.of_string port with
          | c :: _ => Bytes.eqb c "["
          | [] => false
          end = false) as ->.
  { destruct (Bytes.of_string host) as [|c l]; [done|].
    cbn. apply eqb_false. intros ->. apply Hh2. by left. }
  cbn [mbind option_bind]. rewrite take_app_length.
  rewrite (proj2 (hasByte_false _ _) Hh1). cbn [mbind option_bind drop].
  rewrite (proj2 (hasByte_false _ "[")), (proj2 (hasByte_false _ "]")).
  - rewrite cons_middle, app_assoc, drop_app_length'.
    + by rewrite !to_of_string.
    + rewrite length_app. cbn. lia.
  - rewrite drop_0, not_elem_of_app, not_elem_of_cons. done.
  - rewrite drop_0, not_elem_of_app, not_elem_of_cons. done.
Qed.

End SplitHostPortFacts.


(** ** strings.TrimSpace *)

Section TrimSpaceFacts.

Import GoStrings.
Implicit Types (l k : list ascii).

Lemma space2_lead c1 c2 : space2 c1 c2 = true → c1 = "194"%char.
Proof. unfold space2. rewrite andb_true_iff, eqb_true. tauto. Qed.

Lemma space3_lead c1 c2 c3 :
  space3 c1 c2 c3 = true → c1 = "225"%char ∨ c1 = "226"%char ∨ c1 = "227"%char.
Proof.
  unfold space3. rewrite !orb_true_iff, !andb_true_iff, !eqb_true. tauto.
Qed.

Lemma space2_not_ascii c1 c2 : space2 c1 c2 = true → asciiSpace c1 = false.
Proof. by intros ->%space2_lead. Qed.

Lemma space3_not_ascii c1 c2 c3 : space3 c1 c2 c3 = true → asciiSpace c1 = false.
Proof. by intros [->|[->| ->]]%space3_lead. Qed.

Lemma space3_not_space2 c1 c2 c3 c : space3 c1 c2 c3 = true → space2 c1 c = false.
Proof.
  intros H3. destruct (space2 c1 c) eqn:H2; [|done].
  apply space2_lead in H2 as ->. by apply space3_lead in H3 as [|[|]].
Qed.

Lemma spaces_app l k : spaces l → spaces k → spaces (l ++ k).
Proof.
  induction 1 as [|rune l Hr Hl IH]; [done|]. intros Hk.
  rewrite <- (assoc_L (++)). constructor; auto.
Qed.

Lemma spaces_snoc l rune : spaces l → spaceRune rune → spaces (l ++ rune).
Proof.
  intros Hl Hr. apply spaces_app; [done|].
  rewrite <- (app_nil_r rune). by repeat constructor.
Qed.

(** The leading white space is what [trimLeft] removes, and all of it. *)
Lemma trimLeft_bounded n l :
  (length l ≤ n)%nat →
  ∃ pre, spaces pre ∧ l = pre ++ trimLeft l ∧
         ∀ rune rest, spaceRune rune → trimLeft l ≠ rune ++ rest.
Proof.
  (* the induction is on a bound of the length; each branch strips one rune *)
  revert l. induction n as [|n IH]; intros l Hn.
  { destruct l; [|cbn in Hn; lia]. exists []. repeat split; [constructor|].
    intros rune rest [] ?; discriminate. }
  destruct l as [|c1 l1]; cbn [trimLeft]; cbn in Hn.
  { exists []. repeat split; [constructor|].
    intros rune rest [] ?; discriminate. }
  destruct (asciiSpace c1) eqn:A1.
  { destruct (IH l1) as (pre & Hpre & Hl & Hno); [cbn in *; lia|].
    exists ([c1] ++ pre). split; [by repeat constructor|].
    split; [cbn; by rewrite <- Hl|done]. }
  destruct l1 as [|c2 l2].
  { exists []. repeat split; [constructor|].
    intros rune rest [c Hc|c c' Hc|c c' c'' Hc] [=]; congruence. }
  destruct (space2 c1 c2) eqn:A2.
  { destruct (IH l2) as (pre & Hpre & Hl & Hno); [cbn in *; lia|].
    exists ([c1; c2] ++ pre). split; [by repeat constructor|].
    split; [cbn; by rewrite <- Hl|done]. }
  destruct l2 as [|c3 l3].
  { exists []. repeat split; [constructor|].
    intros rune rest [c Hc|c c' Hc|c c' c'' Hc] [=]; congruence. }
  destruct (space3 c1 c2 c3) eqn:A3.
  { destruct (IH l3) as (pre & Hpre & Hl & Hno); [cbn in *; lia|].
    exists ([c1; c2; c3] ++ pre). split; [by repeat constructor|].
    split; [cbn; by rewrite <- Hl|done]. }
  exists []. repeat split; [constructor|].
  intros rune rest [c Hc|c c' Hc|c c' c'' Hc] [=]; congruence.
Qed.

Lemma trimLeft_spec l :
  ∃ pre, spaces pre ∧ l = pre ++ trimLeft l ∧
         ∀ rune rest, spaceRune rune → trimLeft l ≠ rune ++ rest.
Proof. by apply (trimLeft_bounded (length l)). Qed.

(** The same at the other end, on the reversed bytes. *)
Lemma trimRightRev_bounded n k :
  (length k ≤ n)%nat →
  ∃ post, spaces (reverse post) ∧ k = post ++ trimRightRev k ∧
          ∀ rune rest, spaceRune rune → trimRightRev k ≠ reverse rune ++ rest.
Proof.
  revert k. induction n as [|n IH]; intros k Hn.
  { destruct k; [|cbn in Hn; lia]. exists []. repeat split; [constructor|].
    intros rune rest [] ?; discriminate. }
  destruct k as [|c1 l1]; cbn [trimRightRev]; cbn in Hn.
  { exists []. repeat split; [constructor|].
    intros rune rest [] ?; discriminate. }
  destruct (asciiSpace c1) eqn:A1.
  { destruct (IH l1) as (post & Hpost & Hl & Hno); [cbn in *; lia|].
    exists ([c1] ++ post). split.
    - rewrite reverse_app. apply spaces_snoc; [done|by constructor].
    - split; [cbn; by rewrite <- Hl|done]. }
  destruct l1 as [|c2 l2].
  { exists []. repeat split; [constructor|].
    intros rune rest [c Hc|c c' Hc|c c' c'' Hc] [=]; congruence. }
  destruct (space2 c2 c1) eqn:A2.
  { destruct (IH l2) as (post & Hpost & Hl & Hno); [cbn in *; lia|].
    exists ([c1; c2] ++ post). split.
    - rewrite reverse_app. apply spaces_snoc; [done|by constructor].
    - split; [cbn; by rewrite <- Hl|done]. }
  destruct l2 as [|c3 l3].
  { exists []. repeat split; [constructor|].
    intros rune rest [c Hc|c c' Hc|c c' c'' Hc] [=]; congruence. }
  destruct (space3 c3 c2 c1) eqn:A3.
  { destruct (IH l3) as (post & Hpost & Hl & Hno); [cbn in *; lia|].
    exists ([c1; c2; c3] ++ post). split.
    - rewrite reverse_app. apply spaces_snoc; [done|by constructor].
    - split; [cbn; by rewrite <- Hl|done]. }
  exists []. repeat split; [constructor|].
  intros rune rest [c Hc|c c' Hc|c c' c'' Hc] [=]; congruence.
Qed.

Lemma trimRightRev_spec k :
  ∃ post, spaces (reverse post) ∧ k = post ++ trimRightRev k ∧
          ∀ rune rest, spaceRune rune → trimRightRev k ≠ reverse rune ++ rest.
Proof. by apply (trimRightRev_bounded (length k)). Qed.

(** [TrimSpace] removes a run of white space at each end, and what is
    left neither starts nor ends with a white-space rune. *)
Lemma TrimSpace_spec s :
  ∃ pre post,
    spaces pre ∧ spaces post ∧
    Bytes.of_string s = pre ++ Bytes.of_string (TrimSpace s) ++ post ∧
    (∀ rune rest, spaceRune rune → Bytes.of_string (TrimSpace s) ≠ rune ++ rest) ∧
    (∀ rune rest, spaceRune rune → Bytes.of_string (TrimSpace s) ≠ rest ++ rune).
Proof.
  unfold TrimSpace. rewrite of_to_string.
  destruct (trimLeft_spec (Bytes.of_string s)) as (pre & Hpre & Hl & Hstart).
  set (m := trimLeft (Bytes.of_string s)) in *.
  destruct (trimRightRev_spec (reverse m)) as (post & Hpost & Hk & Hend).
  set (t := trimRightRev (reverse m)) in *.
  assert (m = reverse t ++ reverse post) as Hm.
  { rewrite <- reverse_app, <- Hk. by rewrite reverse_involutive. }
  exists pre, (reverse post). repeat split; [done|done|by rewrite <- Hm| |].
  - intros rune rest Hr E. apply (Hstart rune (rest ++ reverse post) Hr).
    by rewrite Hm, E, <- (assoc_L (++)).
  - intros rune rest Hr E. apply (Hend rune (reverse rest) Hr).
    by rewrite <- reverse_app, <- E, reverse_involutive.
Qed.

Lemma trimLeft_spaces l : spaces l → trimLeft l = [].
Proof.
  induction 1 as [|rune l Hr Hl IH]; [done|].
  destruct Hr as [c Hc|c1 c2 Hc|c1 c2 c3 Hc]; cbn [app trimLeft].
  - by rewrite Hc.
  - by rewrite (space2_not_ascii _ _ Hc), Hc.
  - by rewrite (space3_not_ascii _ _ _ Hc), (space3_not_space2 _ _ _ c2 Hc), Hc.
Qed.

(** [TrimSpace] returns the empty string exactly on white space. *)
Lemma TrimSpace_empty s : TrimSpace s = "" ↔ spaces (Bytes.of_string s).
Proof.
  split.
  - intros E. destruct (TrimSpace_spec s) as (pre & post & Hpre & Hpost & Hs & _).
    rewrite Hs, E. by apply spaces_app.
  - intros Hs. unfold TrimSpace. by rewrite (trimLeft_spaces _ Hs).
Qed.

End TrimSpaceFacts.


(** ** The client IP *)

Lemma Split_firstEntry s :
  firstEntryOf s (default "" (GoStrings.Split s "," !! 0%nat)).
Proof.
  destruct (Split_first s ",") as (first & rest & -> & Hno & Hs). cbn.
  split; [done|]. destruct Hs as [[-> _]|(tail & -> & _)]; [by left|].
  right. by exists tail.
Qed.

Lemma before_sep_unique (a b ra rb : list ascii) c :
  c ∉ a → c ∉ b → (ra = [] ∨ head ra = Some c) → (rb = [] ∨ head rb = Some c) →
  a ++ ra = b ++ rb → a = b.
Proof.
  revert b. induction a as [|x a IH]; intros [|y b] Ha Hb Hra Hrb E; cbn in E.
  - done.
  - subst ra. destruct Hra as [|[= ->]]; [done|]. destruct Hb. by left.
  - subst rb. destruct Hrb as [|[= ->]]; [done|]. destruct Ha. by left.
  - injection E as -> E.
    apply not_elem_of_cons in Ha as [_ Ha]. apply not_elem_of_cons in Hb as [_ Hb].
    f_equal. by apply IH.
Qed.

Lemma firstEntryOf_bytes s first :
  firstEntryOf s first →
  ∃ rest, (rest = [] ∨ head rest = Some ","%char) ∧
          Bytes.of_string s = Bytes.of_string first ++ rest.
Proof.
  intros [_ [->|[tail ->]]].
  - exists []. split; [by left|by rewrite app_nil_r].
  - exists (","%char :: Bytes.of_string tail). split; [by right|].
    by rewrite !of_string_app.
Qed.

(** A string has one first entry. *)
Lemma firstEntryOf_unique s a b : firstEntryOf s a → firstEntryOf s b → a = b.
Proof.
  intros Ha Hb. apply of_string_inj.
  destruct (firstEntryOf_bytes s a Ha) as (ra & Hra & Ea).
  destruct (firstEntryOf_bytes s b Hb) as (rb & Hrb & Eb).
  apply (before_sep_unique _ _ ra rb ","%char); [apply Ha|apply Hb|done|done|].
  by rewrite <- Ea, <- Eb.
Qed.

Lemma getClientIP_forwarded r first :
  GoHttp.Get (ReqHeader r) "X-Forwarded-For" ≠ "" →
  firstEntryOf (GoHttp.Get (ReqHeader r) "X-Forwarded-For") first →
  getClientIP r = GoStrings.TrimSpace first.
Proof.
  intros Hx Hf. unfold getClientIP. rewrite bool_decide_eq_true_2 by done.
  f_equal. eapply firstEntryOf_unique; [apply Split_firstEntry|done].
Qed.

(** C5. [getClientIP] takes, in this order: the first comma-separated
    entry of the inbound X-Forwarded-For (read with [Get], so present
    means a non-empty first value) with the white space at both ends
    removed; else the inbound X-Real-IP value; else the peer address
    without its trailing [":port"] (and without the brackets of a
    bracketed host) when [SplitHostPort] can split one off, and the whole
    peer address when it cannot. *)
Theorem getClientIP_precedence r :
  let xff := GoHttp.Get (ReqHeader r) "X-Forwarded-For" in
  let realIP := GoHttp.Get (ReqHeader r) "X-Real-IP" in
  (xff ≠ "" →
     ∀ first, firstEntryOf xff first →
       getClientIP r = GoStrings.TrimSpace first ∧
       ∃ pre post,
         spaces pre ∧ spaces post ∧
         Bytes.of_string first = pre ++ Bytes.of_string (getClientIP r) ++ post ∧
         (∀ rune rest, spaceRune rune → Bytes.of_string (getClientIP r) ≠ rune ++ rest) ∧
         (∀ rune rest, spaceRune rune → Bytes.of_string (getClientIP r) ≠ rest ++ rune)) ∧
  (xff = "" → realIP ≠ "" → getClientIP r = realIP) ∧
  (xff = "" → realIP = "" →
     (∀ host port, GoNet.SplitHostPort (RemoteAddr r) = Some (host, port) →
        getClientIP r = host ∧
        (RemoteAddr r = host +:+ ":" +:+ port ∨
         RemoteAddr r = "[" +:+ host +:+ "]:" +:+ port)) ∧
     (GoNet.SplitHostPort (RemoteAddr r) = None → getClientIP r = RemoteAddr r) ∧
     ((":"%char ∉ Bytes.of_string (RemoteAddr r)) → getClientIP r = RemoteAddr r)).
Proof.
  cbn zeta. split; [|split].
  - intros Hx first Hf. rewrite (getClientIP_forwarded r first Hx Hf).
    split; [done|]. apply TrimSpace_spec.
  - intros Hx Hr. unfold getClientIP.
    rewrite bool_decide_eq_false_2 by auto. by rewrite bool_decide_eq_true_2.
  - intros Hx Hr. unfold getClientIP.
    rewrite (bool_decide_eq_false_2 (GoHttp.Get (ReqHeader r) "X-Forwarded-For" ≠ ""))
      by auto.
    rewrite bool_decide_eq_false_2 by auto.
    split; [|split].
    + intros host port Hs. rewrite Hs. split; [done|].
      by apply SplitHostPort_Some in Hs as [Hs _].
    + by intros ->.
    + intros Hno. by rewrite SplitHostPort_no_colon.
Qed.

Lemma getClientIP_precedence_witness :
  getClientIP forwardedRequest = GoStrings.TrimSpace "  10.0.0.1  " ∧
  getClientIP plainRequest = "192.168.1.100".
Proof.
  split.
  - refine (proj1 (proj1 (getClientIP_precedence forwardedRequest) _ "  10.0.0.1  " _)).
    + differ.
    + split; [compute_done|]. right. by exists " 10.0.0.2".
  - refine (proj1 (proj1 (proj2 (proj2 (getClientIP_precedence plainRequest)) _ _)
                     "192.168.1.100" "12345" _)); compute_done.
Defined.

(** C10. A non-empty inbound X-Forwarded-For alone decides the client
    IP: requests that agree on it get the same client IP whatever their
    X-Real-IP and peer address.  When its first entry is white space
    only, the client IP is empty and [addForwardedHeaders] leaves
    X-Forwarded-For on the outbound request as it found it. *)
Theorem getClientIP_forwarded_only r :
  GoHttp.Get (ReqHeader r) "X-Forwarded-For" ≠ "" →
  (∀ r', GoHttp.Get (ReqHeader r') "X-Forwarded-For"
           = GoHttp.Get (ReqHeader r) "X-Forwarded-For" →
         getClientIP r' = getClientIP r) ∧
  (∀ first, firstEntryOf (GoHttp.Get (ReqHeader r) "X-Forwarded-For") first →
     spaces (Bytes.of_string first) →
     getClientIP r = "" ∧
     ∀ dst, ReqHeader (addForwardedHeaders r dst) !! "X-Forwarded-For"
            = ReqHeader dst !! "X-Forwarded-For").
Proof.
  intros Hx. split.
  - intros r' E. unfold getClientIP. rewrite E.
    by rewrite !bool_decide_eq_true_2.
  - intros first Hf Hs.
    assert (getClientIP r = "") as Hip.
    { rewrite (getClientIP_forwarded r first Hx Hf). by apply TrimSpace_empty. }
    split; [done|]. intros dst. rewrite addForwardedHeaders_lookup.
    rewrite !decide_False, decide_True by done.
    by rewrite Hip.
Qed.

Lemma getClientIP_forwarded_only_witness :
  getClientIP blankForwardedRequest = "" ∧
  ReqHeader (addForwardedHeaders blankForwardedRequest chained) !! "X-Forwarded-For"
    = Some ["10.0.0.1"].
Proof.
  destruct (getClientIP_forwarded_only blankForwardedRequest) as [_ Hblank];
    [differ|].
  destruct (Hblank " ") as [Hip Hdst].
  - split; [compute_done|]. right. by exists " 10.0.0.2".
  - apply (spaces_cons [" "%char] []); by constructor.
  - split; [done|]. by rewrite Hdst.
Defined.


(** ** Failures *)

(** C6. With the caller's response not yet started: when constructing
    the outbound request fails, [ServeHTTP] logs the cause, answers 500
    with the fixed message, hands nothing to the forwarding client and
    stops; a method that is not a token is such a failure.  When the
    forwarding client fails, [ServeHTTP] has handed it the request once,
    logs the cause, answers 502 with the fixed message and stops. *)
Theorem ServeHTTP_failures rt p r w t :
  TargetURL (config p) = Some t → wStatus (writer w) = None →
  ∃ u, buildTargetURL p r = Some u ∧
    (∀ err, NewRequest rt (Method r) (URLString rt u) (Body r) = inr err →
       ∃ w', ServeHTTP rt p r w = Some ((), w') ∧
         wStatus (writer w') = Some 500 ∧
         writer w' = errorReply (writer w) "Failed to create proxy request" 500 ∧
         logged w' = logged w ++
           [(logger p, "Error creating proxy request: " +:+ errorText rt err)] ∧
         sent w' = sent w ∧ closed w' = closed w) ∧
    (Method r ≠ "" → GoHttp.validMethod (Method r) = false →
       NewRequest rt (Method r) (URLString rt u) (Body r)
         = inr (InvalidMethod (Method r))) ∧
    (∀ out err, outbound rt p r = Some out → Do rt (httpClient p) out = inr err →
       ∃ w', ServeHTTP rt p r w = Some ((), w') ∧
         wStatus (writer w') = Some 502 ∧
         writer w' = errorReply (writer w) "Failed to proxy request" 502 ∧
         logged w' = logged w ++
           [(logger p, accessLine rt r u);
            (logger p, "Error proxying request: " +:+ errorText rt err)] ∧
         sent w' = sent w ++ [out] ∧ closed w' = closed w).
Proof.
  intros Ht Hw. destruct (buildTargetURL_Some p r t Ht) as [u Hu].
  exists u. split; [done|]. split; [|split].
  - intros err Hreq. eexists. split.
    + exact (ServeHTTP_construction_failed rt p r w u err Hu Hreq).
    + cbn. by rewrite Hw.
  - intros Hm Hv. unfold NewRequest.
    rewrite bool_decide_eq_false_2 by done. by rewrite Hv.
  - intros out err Hout HDo. eexists. split.
    + exact (ServeHTTP_backend_failed rt p r w u out err Hu Hout HDo).
    + cbn. by rewrite Hw.
Qed.

Lemma ServeHTTP_failures_witness :
  (∃ w', ServeHTTP (answers ok200) (proxyFor backend ∅) badMethodRequest newWorld
           = Some ((), w') ∧
         wStatus (writer w') = Some 500 ∧ sent w' = []) ∧
  (∃ w' out, ServeHTTP refuses (proxyFor backend ∅) plainRequest newWorld
               = Some ((), w') ∧
             wStatus (writer w') = Some 502 ∧ sent w' = [out]).
Proof.
  split.
  - destruct (ServeHTTP_failures (answers ok200) (proxyFor backend ∅) badMethodRequest
                newWorld backend eq_refl eq_refl)
      as (u & Hu & H500 & Hbad & _).
    destruct (H500 (InvalidMethod "GE T")) as (w' & Hrun & Hst & _ & _ & Hsent & _).
    + apply Hbad; compute_done.
    + exists w'. by repeat split.
  - destruct (ServeHTTP_failures refuses (proxyFor backend ∅) plainRequest
                newWorld backend eq_refl eq_refl)
      as (u & Hu & _ & _ & H502).
    destruct (outbound refuses (proxyFor backend ∅) plainRequest)
      as [out|] eqn:E; [|vm_compute in E; discriminate].
    destruct (H502 out (LibraryError "dial tcp: connection refused") eq_refl eq_refl)
      as (w' & Hrun & Hst & _ & _ & Hsent & _).
    exists w', out. by repeat split.
Defined.

(** ** The response relay *)

(** C7, as the code has it.  With the caller's response not yet started
    and a response from the backend, the relay loop adds every value of
    every backend header to the caller's header map under its name, one
    value per value in the order visited (on a response map with
    canonical keys: exactly the backend's values for each name), and
    [WriteHeader] then gets the backend's status code.  A code below 100
    or above 999 makes it panic, and [ServeHTTP] with it.  Code 101 and
    the codes from 200 to 999 are fixed as the status,
    together with the header map as the relay loop left it, before the
    body copy starts; the body bytes that reach the caller are appended,
    and an error of the body copy adds one log line and nothing else:
    the status stays the backend's.  A 1xx code other than 101 goes out
    at once as an informational response with the relayed headers, and
    the status is the 200 of the first body write, if there is one. *)
Theorem ServeHTTP_relays rt p r w out resp :
  RangeOK rt → wStatus (writer w) = None →
  outbound rt p r = Some out → Do rt (httpClient p) out = inl resp →
  let code := StatusCode resp in
  let delivered := (Copy rt resp).1 in
  let h := relayed (rangeResponse rt (RespHeader resp)) (wHeader (writer w)) in
  (∀ name, GoHttp.Values h name
           = GoHttp.Values (wHeader (writer w)) name
             ++ carried (rangeResponse rt (RespHeader resp)) name) ∧
  (canonicalKeys (RespHeader resp) →
   ∀ name, GoHttp.Values h name
           = GoHttp.Values (wHeader (writer w)) name
             ++ GoHttp.Values (RespHeader resp) name) ∧
  (code < 100 ∨ 999 < code → ServeHTTP rt p r w = None) ∧
  (100 ≤ code ≤ 999 →
   ∃ u w',
     buildTargetURL p r = Some u ∧ ServeHTTP rt p r w = Some ((), w') ∧
     wHeader (writer w') = h ∧
     (code = 101 ∨ 200 ≤ code →
        wStatus (writer w') = Some code ∧ wSnapshot (writer w') = Some h ∧
        wInterim (writer w') = wInterim (writer w)) ∧
     (code ≤ 199 → code ≠ 101 →
        wInterim (writer w') = wInterim (writer w) ++ [(code, h)] ∧
        (delivered = "" →
           wStatus (writer w') = None ∧
           wSnapshot (writer w') = wSnapshot (writer w)) ∧
        (delivered ≠ "" →
           wStatus (writer w') = Some 200 ∧ wSnapshot (writer w') = Some h)) ∧
     wBody (writer w') = wBody (writer w) +:+ delivered ∧
     logged w' = logged w ++ [(logger p, accessLine rt r u)] ++
       match (Copy rt resp).2 with
       | Some e => [(logger p, "Error copying response body: " +:+ errorText rt e)]
       | None => []
       end ∧
     sent w' = sent w ++ [out] ∧ closed w' = S (closed w)).
Proof.
  intros ranges Hw Hout HDo code delivered h.
  destruct (outbound_inv rt p r out Hout) as (dst & Hd & _).
  destruct (prepared_inv rt p r dst Hd) as (t & u & req & Ht & Hu & Hreq).
  split; [intros name; apply Values_relayed|]. split.
  { intros Hc name. unfold h. rewrite Values_relayed. f_equal.
    apply carried_canonical; [apply ranges|done]. }
  split.
  { intros Hbad. exact (ServeHTTP_bad_status rt p r w u out resp Hu Hout HDo Hw Hbad). }
  intros Hcode. exists u.
  destruct (decide (code = 101 ∨ 200 ≤ code)) as [Hfinal|Hinfo].
  - eexists. split; [done|]. split.
    { apply (ServeHTTP_relayed rt p r w u out resp Hu Hout HDo Hw).
      unfold finalCode. fold code. lia. }
    unfold relayReply, copyErrorLines.
    cbn [writer logged sent closed wHeader wStatus wSnapshot wInterim wBody].
    split; [reflexivity|]. split; [by intros _|]. split; [intros; lia|].
    split; [reflexivity|]. split; [reflexivity|]. split; reflexivity.
  - eexists. split; [done|]. split.
    { apply (ServeHTTP_interim rt p r w u out resp Hu Hout HDo Hw).
      unfold informationalCode. fold code. lia. }
    unfold interimReply, copyErrorLines.
    cbn [writer logged sent closed wHeader wStatus wSnapshot wInterim wBody].
    fold delivered h. split; [reflexivity|]. split; [intros; lia|]. split.
    { intros _ _. split; [reflexivity|].
      split; intros Hdel; [by rewrite !bool_decide_eq_true_2|
                           by rewrite !bool_decide_eq_false_2]. }
    split; [reflexivity|]. split; [reflexivity|]. split; reflexivity.
Qed.

Lemma ServeHTTP_relays_witness :
  ∃ w', ServeHTTP hangsUp (proxyFor backend ∅) plainRequest newWorld = Some ((), w') ∧
        wStatus (writer w') = Some 201 ∧
        (∃ h, wSnapshot (writer w') = Some h ∧
              GoHttp.Values h "Set-Cookie" = ["a=1"; "b=2"]) ∧
        wBody (writer w') = "status:".
Proof.
  destruct (outbound hangsUp (proxyFor backend ∅) plainRequest)
    as [out|] eqn:E; [|vm_compute in E; discriminate].
  destruct (ServeHTTP_relays hangsUp (proxyFor backend ∅) plainRequest newWorld out
              created201 (plainRuntime_ranges _ _) eq_refl E eq_refl)
    as (_ & Hh & _ & Hrun).
  destruct Hrun as (u & w' & _ & Hrun & _ & Hfinal & _ & Hb & _); [cbn; lia|].
  destruct Hfinal as (Hst & Hsnap & _); [right; cbn; lia|].
  exists w'. split; [done|]. split; [done|]. split; [|done].
  eexists. split; [exact Hsnap|]. rewrite Hh; [done|].
  intros k [v Hk]. cbn in Hk. apply lookup_singleton_Some in Hk as [<- _]. done.
Defined.

(** C7 as stated fails: the client takes a status line [HTTP/1.1 099]
    for a response like any other, and [ServeHTTP] then panics in
    [WriteHeader]: the backend's status code is not written. *)
Lemma relay_status_counterexample :
  (∃ out, outbound (answers odd099) (proxyFor backend ∅) plainRequest = Some out ∧
          Do (answers odd099) (httpClient (proxyFor backend ∅)) out = inl odd099) ∧
  ServeHTTP (answers odd099) (proxyFor backend ∅) plainRequest newWorld = None ∧
  ¬ (∀ rt p r w out resp,
       RangeOK rt → wStatus (writer w) = None →
       outbound rt p r = Some out → Do rt (httpClient p) out = inl resp →
       ∃ w', ServeHTTP rt p r w = Some ((), w') ∧
             wStatus (writer w') = Some (StatusCode resp)).
Proof.
  destruct (outbound (answers odd099) (proxyFor backend ∅) plainRequest)
    as [out|] eqn:E; [|vm_compute in E; discriminate].
  assert (ServeHTTP (answers odd099) (proxyFor backend ∅) plainRequest newWorld = None)
    as Hpanic.
  { apply ServeHTTP_None. right. split; [done|]. exists out, odd099.
    split; [done|]. split; [done|]. left. cbn. lia. }
  split; [exists out; split; reflexivity|]. split; [exact Hpanic|].
  intros claim.
  destruct (claim (answers odd099) (proxyFor backend ∅) plainRequest newWorld out odd099
              (plainRuntime_ranges _ _) eq_refl E eq_refl)
    as (w' & Hrun & _).
  rewrite Hpanic in Hrun. discriminate Hrun.
Qed.


(** ** Names the later steps leave alone *)

(** Under a name that is neither a forwarded-context name nor the name
    of a custom header, the request [ServeHTTP] sends carries what the
    copy loop left there: nothing for a hop-by-hop name, the inbound
    values otherwise. *)
Lemma outbound_untouched rt p r out name :
  RangeOK rt → outbound rt p r = Some out →
  GoHttp.CanonicalHeaderKey name ∉ forwardedNames →
  (∀ n v, CustomHeaders (config p) !! n = Some v →
          GoHttp.CanonicalHeaderKey n ≠ GoHttp.CanonicalHeaderKey name) →
  GoHttp.Values (ReqHeader out) name =
    if shouldSkipHeader name then []
    else carried (rangeRequest rt (ReqHeader r)) name.
Proof.
  intros ranges Hout HF Hcustom.
  destruct (outbound_inv rt p r out Hout) as (dst & Hd & ->).
  unfold forwardedNames in HF. rewrite !not_elem_of_cons in HF.
  destruct HF as (NF & NH & NP & _).
  pose proof (Values_copyLoop (rangeRequest rt (ReqHeader r)) ∅ name) as HV.
  unfold GoHttp.Values in *.
  rewrite addForwardedHeaders_lookup, !decide_False by done.
  rewrite (prepared_lookup rt p r dst _ Hd). cbn zeta.
  rewrite lookup_empty in HV. cbn in HV.
  case_decide; [done|]. rewrite lastOverride_None; [done|].
  intros [n v] Hin. apply (Hcustom n v). by apply (custom_elem rt ranges).
Qed.


(** ** The repository's unit tests, replayed on the model *)

Example TestShouldSkipHeader :
  shouldSkipHeader <$>
    ["Connection"; "Keep-Alive"; "Proxy-Authenticate"; "Proxy-Authorization"; "Te";
     "Trailers"; "Transfer-Encoding"; "Upgrade"; "Content-Type"; "User-Agent";
     "Accept"; "Authorization"]
  = [true; true; true; true; true; true; true; true; false; false; false; false].
Proof. by vm_compute. Qed.

Example TestShouldSkipHeaderCaseInsensitive :
  shouldSkipHeader <$>
    ["connection"; "CONNECTION"; "CoNnEcTiOn"; "keep-alive"; "KEEP-ALIVE";
     "transfer-encoding"; "TRANSFER-ENCODING"]
  = [true; true; true; true; true; true; true].
Proof. by vm_compute. Qed.

Example TestGetClientIP :
  getClientIP <$>
    [testRequest "192.168.1.100:12345" "" "";
     testRequest "192.168.1.100:12345" "10.0.0.1, 10.0.0.2" "";
     testRequest "192.168.1.100:12345" "" "10.0.0.5";
     testRequest "192.168.1.100:12345" "10.0.0.1" "10.0.0.5";
     testRequest "192.168.1.100" "" "";
     testRequest "192.168.1.100:12345" "  10.0.0.1  , 10.0.0.2" ""]
  = ["192.168.1.100"; "10.0.0.1"; "10.0.0.5"; "10.0.0.1"; "192.168.1.100"; "10.0.0.1"].
Proof. by vm_compute. Qed.

Example TestBuildTargetURL :
  [resolved (mkURL "https" "example.com" "" "") "/api/v1/users" "";
   resolved (mkURL "https" "example.com" "" "") "/api/v1/users" "page=1&limit=10";
   resolved (mkURL "https" "example.com" "/base" "") "/api/users" "";
   resolved (mkURL "https" "example.com" "/base/" "") "/api/users" "";
   resolved (mkURL "https" "example.com" "" "") "/" "";
   resolved (mkURL "https" "example.com" "/api/v1" "") "/users/123/posts" "";
   resolved (mkURL "https" "example.com" "/base" "") "" ""]
  = Some <$>
    ["https://example.com/api/v1/users";
     "https://example.com/api/v1/users?page=1&limit=10";
     "https://example.com/base/api/users";
     "https://example.com/base/api/users";
     "https://example.com/";
     "https://example.com/api/v1/users/123/posts";
     "https://example.com/base"].
Proof. by vm_compute. Qed.

Example TestAddForwardedHeaders :
  let out := addForwardedHeaders sourceRequest (targetRequest ∅) in
  GoHttp.Get (ReqHeader out) "X-Forwarded-For" = "192.168.1.100" ∧
  GoHttp.Get (ReqHeader out) "X-Forwarded-Host" = "source.example.com" ∧
  GoHttp.Get (ReqHeader out) "X-Forwarded-Proto" = "http".
Proof. by vm_compute. Qed.

Example TestAddForwardedHeadersAppendXFF :
  GoHttp.Get
    (ReqHeader (addForwardedHeaders sourceRequest
                  (targetRequest (GoHttp.Set_ ∅ "X-Forwarded-For" "10.0.0.1"))))
    "X-Forwarded-For" = "10.0.0.1, 192.168.1.100".
Proof. by vm_compute. Qed.

Example TestAddForwardedHeadersWithExistingXFFSpaces :
  GoHttp.Get
    (ReqHeader (addForwardedHeaders sourceRequest
                  (targetRequest (GoHttp.Set_ ∅ "X-Forwarded-For" "10.0.0.1,10.0.0.2"))))
    "X-Forwarded-For" = "10.0.0.1,10.0.0.2, 192.168.1.100".
Proof. by vm_compute. Qed.

Example TestAddForwardedHeadersEmptyHost :
  GoHttp.Get
    (ReqHeader (addForwardedHeaders (withHost sourceRequest "") (targetRequest ∅)))
    "X-Forwarded-Host" = "".
Proof. by vm_compute. Qed.

Example TestCopyHeaders :
  ∃ dst,
    copyHeaders (testProxy (mkURL "https" "target.example.com" "" ""))
      (map_to_list
         (GoHttp.Set_
            (GoHttp.Set_
               (GoHttp.Set_ (GoHttp.Set_ ∅ "User-Agent" "test-agent") "Accept"
                  "application/json")
               "Connection" "keep-alive")
            "Custom-Header" "custom-value"))
      [] (targetRequest ∅) = Some dst ∧
    GoHttp.Get (ReqHeader dst) "User-Agent" = "test-agent" ∧
    GoHttp.Get (ReqHeader dst) "Accept" = "application/json" ∧
    GoHttp.Get (ReqHeader dst) "Custom-Header" = "custom-value" ∧
    GoHttp.Get (ReqHeader dst) "Connection" = "" ∧
    Host dst = "target.example.com".
Proof. eexists. split; [reflexivity|]. by vm_compute. Qed.

Example TestServeHTTPErrorCreatingRequest :
  (λ w, wStatus (writer w.2)) <$>
    ServeHTTP (answers ok200) (testProxy (mkURL "http" "example.com" "" ""))
      (mkRequest (String "010" "") (mkURL "" "" "/test" "") ∅ "" "localhost:8080"
         "192.0.2.1:1234" false)
      newWorld
  = Some (Some 500).
Proof. by vm_compute. Qed.

Example TestServeHTTPInvalidBackend :
  (λ w, wStatus (writer w.2)) <$>
    ServeHTTP refuses (testProxy (mkURL "http" "invalid-backend:9999" "" ""))
      (mkRequest "GET" (mkURL "" "" "/test" "") ∅ "" "localhost:8080"
         "192.0.2.1:1234" false)
      newWorld
  = Some (Some 502).
Proof. by vm_compute. Qed.


(** ** parseHeaders *)

Section ParseHeaders.

Import GoStrings.

Lemma Cut_None s sep : Cut s sep = None ↔ sep ∉ Bytes.of_string s.
Proof.
  induction s as [|c s IH]; cbn.
  - split; [intros _; apply not_elem_of_nil|done].
  - rewrite not_elem_of_cons, <- IH. destruct (Bytes.eqb c sep) eqn:E.
    + apply eqb_true in E as ->. intuition congruence.
    + apply eqb_false in E. destruct (Cut s sep) as [[b a]|]; intuition congruence.
Qed.

Lemma Cut_Some s sep before after :
  Cut s sep = Some (before, after) ↔
  s = before +:+ String sep after ∧ sep ∉ Bytes.of_string before.
Proof.
  revert before after. induction s as [|c s IH]; intros before after; cbn [Cut].
  - split; [done|]. intros [E _]. by destruct before.
  - destruct (Bytes.eqb c sep) eqn:E.
    + apply eqb_true in E as ->. split.
      * intros [= <- <-]. split; [done|apply not_elem_of_nil].
      * intros [Es Hno]. destruct before as [|b before].
        -- by injection Es as ->.
        -- injection Es as <- _. destruct Hno. by left.
    + apply eqb_false in E. split.
      * destruct (Cut s sep) as [[b a]|]; [|done].
        intros [= <- <-]. destruct (proj1 (IH b a) eq_refl) as [-> Hno].
        split; [done|].
        cbn. rewrite not_elem_of_cons. split; [congruence|done].
      * intros [Es Hno]. destruct before as [|b before].
        -- injection Es as -> _. done.
        -- injection Es as <- Es. cbn in Hno.
           apply not_elem_of_cons in Hno as [_ Hno].
           by rewrite (proj2 (IH before after) (conj Es Hno)).
Qed.

Lemma SplitN_2 s sep :
  SplitN s sep 2 =
    match Cut s sep with
    | Some (before, after) => [before; after]
    | None => [s]
    end.
Proof.
  unfold SplitN. rewrite !bool_decide_eq_false_2 by lia.
  change (Z.to_nat (2 - 1)) with 1%nat. cbn [splitAtMost].
  by destruct (Cut s sep) as [[b a]|].
Qed.

Lemma splitsAt_Cut header before after :
  splitsAt header before after ↔ Cut header ":" = Some (before, after).
Proof. unfold splitsAt. by rewrite Cut_Some. Qed.

Lemma splitsAt_unique header b1 a1 b2 a2 :
  splitsAt header b1 a1 → splitsAt header b2 a2 → b1 = b2 ∧ a1 = a2.
Proof. rewrite !splitsAt_Cut. intros -> [= -> ->]. done. Qed.

Lemma parseHeader_inl header name value :
  Main.parseHeader header = inl (name, value) ↔
  ∃ before after,
    splitsAt header before after ∧ ¬ spaces (Bytes.of_string before) ∧
    name = TrimSpace before ∧ value = TrimSpace after.
Proof.
  unfold Main.parseHeader. rewrite SplitN_2. split.
  - destruct (Cut header ":") as [[b a]|] eqn:C; [|done].
    case_bool_decide as En; [done|]. intros [= <- <-].
    exists b, a. split; [by apply splitsAt_Cut|].
    split; [by rewrite <- TrimSpace_empty|done].
  - intros (b & a & Hs & Hb & -> & ->). apply splitsAt_Cut in Hs. rewrite Hs.
    rewrite bool_decide_eq_false_2; [done|]. by rewrite TrimSpace_empty.
Qed.

Lemma parseHeader_wellFormed header :
  (∃ entry, Main.parseHeader header = inl entry) ↔ wellFormedHeader header.
Proof.
  split.
  - intros [[name value] (b & a & Hs & Hb & _)%parseHeader_inl]. by exists b, a.
  - intros (b & a & Hs & Hb). exists (TrimSpace b, TrimSpace a).
    apply parseHeader_inl. by exists b, a.
Qed.

Lemma parseHeader_inr header err :
  Main.parseHeader header = inr err →
  ¬ wellFormedHeader header ∧
  ((err = Main.InvalidHeaderFormat header ∧ ":"%char ∉ Bytes.of_string header) ∨
   (err = Main.EmptyHeaderName header ∧
    ∃ before after, splitsAt header before after ∧ spaces (Bytes.of_string before))).
Proof.
  intros He. split.
  { intros [entry Hw]%parseHeader_wellFormed. congruence. }
  unfold Main.parseHeader in He. rewrite SplitN_2 in He.
  destruct (Cut header ":") as [[b a]|] eqn:C.
  - case_bool_decide as En; [|done]. injection He as <-. right. split; [done|].
    exists b, a. split; [by apply splitsAt_Cut|by apply TrimSpace_empty].
  - injection He as <-. left. split; [done|by apply Cut_None].
Qed.

End ParseHeaders.

Section ParseHeadersFacts.

Import GoStrings.

Lemma names_parseHeader header name value :
  Main.parseHeader header = inl (name, value) → ∀ name', names header name' ↔ name' = name.
Proof.
  intros (b & a & Hs & _ & -> & _)%parseHeader_inl name'. split.
  - intros (b' & a' & Hs' & <-). by destruct (splitsAt_unique _ _ _ _ _ Hs Hs') as [-> _].
  - intros ->. by exists b, a.
Qed.

Lemma parseHeadersInto_ok m0 hs :
  (∃ m, Main.parseHeadersInto m0 hs = inl m) ↔ Forall wellFormedHeader hs.
Proof.
  revert m0. induction hs as [|h hs IH]; intros m0; cbn [Main.parseHeadersInto].
  - split; [constructor|eauto].
  - rewrite Forall_cons, <- parseHeader_wellFormed.
    destruct (Main.parseHeader h) as [[n v]|e].
    + rewrite IH. split; [eauto|tauto].
    + split; [by intros [? [=]]|]. by intros [[? [=]] _].
Qed.

Lemma parseHeadersInto_err m0 hs err :
  Main.parseHeadersInto m0 hs = inr err →
  ∃ pre header post,
    hs = pre ++ header :: post ∧ Forall wellFormedHeader pre ∧
    Main.parseHeader header = inr err.
Proof.
  revert m0. induction hs as [|h hs IH]; intros m0; cbn [Main.parseHeadersInto]; [done|].
  destruct (Main.parseHeader h) as [[n v]|e] eqn:Hh.
  - intros (pre & header & post & -> & Hpre & He)%IH.
    exists (h :: pre), header, post. repeat split; [|done].
    constructor; [|done]. apply parseHeader_wellFormed. eauto.
  - intros [= ->]. exists [], h, hs. by repeat split.
Qed.

Lemma parseHeadersInto_lookup m0 hs m name value :
  Main.parseHeadersInto m0 hs = inl m →
  m !! name = Some value ↔
    (∃ pre before after post,
       hs = pre ++ (before +:+ ":" +:+ after) :: post ∧
       (":"%char ∉ Bytes.of_string before) ∧
       TrimSpace before = name ∧ TrimSpace after = value ∧
       ∀ h, h ∈ post → ¬ names h name) ∨
    ((∀ h, h ∈ hs → ¬ names h name) ∧ m0 !! name = Some value).
Proof.
  revert m0. induction hs as [|h hs IH]; intros m0; cbn [Main.parseHeadersInto].
  - intros [= <-]. split.
    + intros Hl. right. split; [|done]. intros h Hh. by apply elem_of_nil in Hh.
    + intros [(pre & b & a & post & E & _)|[_ Hl]]; [|done]. by destruct pre.
  - destruct (Main.parseHeader h) as [[n v]|e] eqn:Hh; [|done].
    intros Hm. rewrite (IH _ Hm). clear IH Hm.
    pose proof (names_parseHeader h n v Hh) as Hn.
    apply parseHeader_inl in Hh as (b & a & [Eh Hb] & _ & -> & ->).
    split.
    + intros [(pre & b' & a' & post & -> & Hb' & <- & <- & Hpost)|[Hno Hl]].
      * left. by exists (h :: pre), b', a', post.
      * rewrite lookup_insert in Hl. case_decide as En.
        -- injection Hl as <-. left. exists [], b, a, hs.
           repeat split; try done. by rewrite <- Eh.
        -- right. split; [|done]. intros h' [->|Hin]%elem_of_cons; [|by apply Hno].
           rewrite Hn. congruence.
    + intros [(pre & b' & a' & post & E & Hb' & <- & <- & Hpost)|[Hno Hl]].
      * destruct pre as [|h' pre]; cbn in E; injection E as -> ->.
        -- right. split; [done|].
           destruct (splitsAt_unique _ b a b' a' (conj eq_refl Hb)) as [-> ->].
           { split; [|done]. rewrite <- Eh at 1. done. }
           apply lookup_insert_eq.
        -- left. by exists pre, b', a', post.
      * right. split; [intros h' Hin; apply Hno; by right|].
        rewrite lookup_insert_ne; [done|].
        intros En. apply (Hno h); [by left|]. by apply Hn.
Qed.

End ParseHeadersFacts.

(** X1. [parseHeaders] succeeds exactly when every specification has a
    colon with something other than white space before its first one.
    When it fails, the error names the first specification that does
    not: a format error when it has no colon, an empty-name error when
    only white space precedes its first colon. *)
Theorem parseHeaders_errors hs :
  ((∃ m, Main.parseHeaders hs = inl m) ↔ Forall wellFormedHeader hs) ∧
  (∀ err, Main.parseHeaders hs = inr err →
     ∃ pre header post,
       hs = pre ++ header :: post ∧ Forall wellFormedHeader pre ∧
       ¬ wellFormedHeader header ∧
       ((err = Main.InvalidHeaderFormat header ∧ ":"%char ∉ Bytes.of_string header) ∨
        (err = Main.EmptyHeaderName header ∧
         ∃ before after,
           splitsAt header before after ∧ spaces (Bytes.of_string before)))).
Proof.
  split; [apply parseHeadersInto_ok|].
  intros err (pre & header & post & -> & Hpre & He)%parseHeadersInto_err.
  exists pre, header, post. split; [done|]. split; [done|].
  by apply parseHeader_inr.
Qed.

(** X2. In the map [parseHeaders] returns, a name has the value [value]
    exactly when the last specification with that name, once split at
    its first colon and trimmed of white space on both sides, has that
    value: the value keeps its own colons, and a later specification
    replaces an earlier one of the same name. *)
Theorem parseHeaders_last_wins hs m name value :
  Main.parseHeaders hs = inl m →
  m !! name = Some value ↔
    ∃ pre before after post,
      hs = pre ++ (before +:+ ":" +:+ after) :: post ∧
      (":"%char ∉ Bytes.of_string before) ∧
      GoStrings.TrimSpace before = name ∧ GoStrings.TrimSpace after = value ∧
      ∀ h, h ∈ post → ¬ names h name.
Proof.
  intros Hm. rewrite (parseHeadersInto_lookup ∅ hs m name value Hm).
  rewrite lookup_empty. split; [|by left]. by intros [?|[_ ?]].
Qed.

Lemma parseHeaders_last_wins_witness :
  ∃ m, Main.parseHeaders ["Authorization: Basic b2xk"; " X-Trace : a:b "; "Authorization:Bearer t"]
         = inl m ∧
       m !! "Authorization" = Some "Bearer t" ∧ m !! "X-Trace" = Some "a:b".
Proof.
  destruct (Main.parseHeaders
              ["Authorization: Basic b2xk"; " X-Trace : a:b "; "Authorization:Bearer t"])
    as [m|e] eqn:E; [|vm_compute in E; discriminate].
  exists m. split; [done|]. split.
  - apply (proj2 (parseHeaders_last_wins _ m "Authorization" "Bearer t" E)).
    exists ["Authorization: Basic b2xk"; " X-Trace : a:b "], "Authorization", "Bearer t", [].
    repeat split; [compute_done|]. intros h Hh. by apply elem_of_nil in Hh.
  - apply (proj2 (parseHeaders_last_wins _ m "X-Trace" "a:b" E)).
    exists ["Authorization: Basic b2xk"], " X-Trace ", " a:b ", ["Authorization:Bearer t"].
    repeat split; [compute_done|].
    intros h ->%list_elem_of_singleton (b & a & Hs & Hn).
    apply splitsAt_Cut in Hs. vm_compute in Hs. injection Hs as <- <-.
    vm_compute in Hn. discriminate Hn.
Defined.


(** ** main *)

Section MainFacts.

Variable rt : Runtime.
Variable usage : string.
Variable listenAndServe : Server → option error.

Lemma wrap64_small z : - 2 ^ 63 ≤ z < 2 ^ 63 → wrap64 z = z.
Proof. intros Hz. unfold wrap64. rewrite Z.mod_small; lia. Qed.

Lemma validateOptions_None opts :
  Main.validateOptions rt opts = None ↔
  1 ≤ Main.Port opts ≤ 65535 ∧ 1 ≤ Main.Timeout opts ∧ Main.TargetURL opts ≠ "" ∧
  ∃ u, ParseURL rt (Main.TargetURL opts) = inl u.
Proof.
  unfold Main.validateOptions.
  destruct (bool_decide (Main.Port opts < 1) || bool_decide (Main.Port opts > 65535))
    eqn:E1.
  { split; [done|]. intros ([? ?] & _).
    apply orb_true_iff in E1 as [E|E]; apply bool_decide_eq_true in E; lia. }
  apply orb_false_iff in E1 as [E1a E1b].
  apply bool_decide_eq_false in E1a, E1b.
  case_bool_decide as E2.
  { split; [done|]. intros (_ & ? & _). lia. }
  case_bool_decide as E3.
  { split; [done|]. by intros (_ & _ & ? & _). }
  destruct (ParseURL rt (Main.TargetURL opts)) as [u|e].
  - split; [|done]. intros _. split; [lia|]. split; [lia|]. split; [done|eauto].
  - split; [done|]. by intros (_ & _ & _ & [u [=]]).
Qed.

Lemma Start_run p t w :
  TargetURL (config p) = Some t →
  Start rt listenAndServe p w =
    Some (listenAndServe
            (mkServer (ListenAddr (config p)) p (15 * Second) (15 * Second) (60 * Second)),
          mkWorld
            (logged w ++
               [(logger p,
                 "Starting proxy server on " +:+ ListenAddr (config p)
                 +:+ ", forwarding to " +:+ URLString rt t)])
            (writer w) (sent w) (closed w)).
Proof. intros Ht. unfold Start, bind, orPanic. by rewrite Ht. Qed.

Lemma scheme_ok u :
  bool_decide (Scheme u ≠ "http") && bool_decide (Scheme u ≠ "https") = false ↔
  Scheme u = "http" ∨ Scheme u = "https".
Proof.
  rewrite andb_false_iff, !bool_decide_eq_false.
  destruct (decide (Scheme u = "http")), (decide (Scheme u = "https")); tauto.
Qed.

(** What [main] does with parsed flags, by cases. *)
Lemma main_cases opts :
  (¬ accepted rt opts ∧
   ∃ err, Main.main rt usage listenAndServe (inl opts) = Some (Main.exit1 [] err)) ∨
  (accepted rt opts ∧
   ∃ u m p,
     ParseURL rt (Main.TargetURL opts) = inl u ∧
     Main.parseHeaders (Main.Headers opts) = inl m ∧
     NewProxy
       (mkProxyConfig (":" +:+ pretty (Main.Port opts)) (Some u)
          (wrap64 (wrap64 (Main.Timeout opts) * Second)) m)
       (Some (SinkLogger (if Main.Verbose opts then Main.Stdout else Main.Discard)))
       = inl p ∧
     ∃ run, Main.main rt usage listenAndServe (inl opts) = Some run ∧
            Main.served run = Some p ∧
            Main.serverLog run =
              [(logger p,
                "Starting proxy server on " +:+ ":" +:+ pretty (Main.Port opts)
                +:+ ", forwarding to " +:+ URLString rt u)]).
Proof.
  unfold Main.main, accepted.
  destruct (Main.validateOptions rt opts) as [e|] eqn:Hv.
  { left. split; [|eauto]. intros (Hp & Ht & Hu & (u & Hparse & _) & _).
    assert (Main.validateOptions rt opts = None) as Hn
      by (apply validateOptions_None; eauto).
    congruence. }
  apply validateOptions_None in Hv as (Hp & Ht & Hu & u & Hparse).
  rewrite Hparse.
  destruct (bool_decide (Scheme u ≠ "http") && bool_decide (Scheme u ≠ "https")) eqn:Hs.
  { left. split; [|eauto]. intros (_ & _ & _ & (u' & Hparse' & Hs') & _).
    injection Hparse' as <-. apply scheme_ok in Hs'. congruence. }
  apply scheme_ok in Hs.
  destruct (Main.parseHeaders (Main.Headers opts)) as [m|e] eqn:Hh.
  2:{ left. split; [|eauto]. intros (_ & _ & _ & _ & Hw).
      apply (parseHeadersInto_ok ∅) in Hw as [m Hm].
      unfold Main.parseHeaders in Hh. congruence. }
  right. split.
  { repeat split; try lia; [done|eauto|].
    apply (parseHeadersInto_ok ∅). eauto. }
  exists u, m. unfold NewProxy at 1. cbn [TargetURL ListenAddr].
  rewrite bool_decide_eq_false_2 by done.
  eexists. split; [done|]. split; [done|]. split; [reflexivity|].
  unfold NewProxy. cbn [TargetURL ListenAddr].
  rewrite bool_decide_eq_false_2 by done.
  erewrite Start_run; [|by case_bool_decide]. cbn.
  destruct (listenAndServe _); eexists; (split; [reflexivity|]);
    split; try reflexivity; by case_bool_decide.
Qed.

End MainFacts.

Lemma parseHeaders_errors_witness :
  Main.parseHeaders ["Host: api.example.com"; "no colon here"; " : value"]
    = inr (Main.InvalidHeaderFormat "no colon here").
Proof.
  destruct (Main.parseHeaders ["Host: api.example.com"; "no colon here"; " : value"])
    as [m|e] eqn:E; [vm_compute in E; discriminate|].
  destruct (proj2 (parseHeaders_errors _) e E)
    as (pre & header & post & Ehs & Hpre & Hbad & Herr).
  f_equal. vm_compute in E. by injection E as <-.
Defined.

(** X3. Every name in the map [parseHeaders] returns is non-empty, holds
    no colon, and neither starts nor ends with white space; no value
    starts or ends with white space either. *)
Theorem parseHeaders_keys hs m name value :
  Main.parseHeaders hs = inl m → m !! name = Some value →
  name ≠ "" ∧ (":"%char ∉ Bytes.of_string name) ∧
  (∀ rune rest, spaceRune rune →
     Bytes.of_string name ≠ rune ++ rest ∧ Bytes.of_string name ≠ rest ++ rune) ∧
  (∀ rune rest, spaceRune rune →
     Bytes.of_string value ≠ rune ++ rest ∧ Bytes.of_string value ≠ rest ++ rune).
Proof.
  intros Hm Hl.
  assert (Forall wellFormedHeader hs) as Hwf by (apply (parseHeadersInto_ok ∅); eauto).
  apply (parseHeadersInto_lookup ∅ hs m name value Hm) in Hl
    as [(pre & b & a & post & -> & Hb & <- & <- & _)|[_ Hl]]; [|done].
  apply Forall_app in Hwf as [_ Hwf]. apply Forall_cons in Hwf as [Hwf _].
  destruct Hwf as (b' & a' & Hs & Hblank).
  destruct (splitsAt_unique _ b a b' a' (conj eq_refl Hb) Hs) as [<- <-].
  destruct (TrimSpace_spec b) as (sp1 & sp2 & _ & _ & Eb & Hstart & Hend).
  destruct (TrimSpace_spec a) as (_ & _ & _ & _ & _ & Hstart' & Hend').
  split; [by rewrite TrimSpace_empty|]. split.
  - rewrite Eb in Hb. rewrite !not_elem_of_app in Hb. tauto.
  - split; intros rune rest Hr; split; auto.
Qed.

Lemma parseHeaders_keys_witness :
  ∃ m, Main.parseHeaders ["  X-Api-Key :  key456  "] = inl m ∧
       m !! "X-Api-Key" = Some "key456" ∧ (":"%char ∉ Bytes.of_string "X-Api-Key").
Proof.
  destruct (Main.parseHeaders ["  X-Api-Key :  key456  "]) as [m|e] eqn:E;
    [|vm_compute in E; discriminate].
  exists m. split; [done|].
  assert (m !! "X-Api-Key" = Some "key456") as Hl.
  { vm_compute in E. injection E as <-. reflexivity. }
  split; [done|]. by destruct (parseHeaders_keys _ m _ _ E Hl) as (_ & Hc & _).
Defined.

(** X4. From parsed flags on, [main] never panics, and it gets as far as
    serving exactly when the port is in 1..65535, the timeout is at
    least 1, the target URL is not empty and parses with scheme http or
    https, and every header specification is well formed; otherwise it
    exits with code 1 having written nothing to standard output.  The
    proxy it serves with listens on [":<port>"], forwards to the parsed
    URL with the parsed custom headers, logs to standard output only
    with [-v], and, for a timeout of at most 9223372036 seconds, uses
    exactly that timeout: [NewProxy] cannot fail here and its 30-second
    default cannot apply. *)
Theorem main_serves rt usage listenAndServe opts :
  ∃ run,
    Main.main rt usage listenAndServe (inl opts) = Some run ∧
    (is_Some (Main.served run) ↔ accepted rt opts) ∧
    (Main.served run = None →
     Main.exitCode run = 1 ∧ Main.stdout run = [] ∧ Main.serverLog run = []) ∧
    (∀ p, Main.served run = Some p →
       ∃ u m,
         ParseURL rt (Main.TargetURL opts) = inl u ∧
         Main.parseHeaders (Main.Headers opts) = inl m ∧
         ListenAddr (config p) = ":" +:+ pretty (Main.Port opts) ∧
         TargetURL (config p) = Some u ∧ CustomHeaders (config p) = m ∧
         logger p = SinkLogger (if Main.Verbose opts then Main.Stdout else Main.Discard) ∧
         Main.serverLog run =
           [(logger p,
             "Starting proxy server on " +:+ ":" +:+ pretty (Main.Port opts)
             +:+ ", forwarding to " +:+ URLString rt u)] ∧
         (Main.Timeout opts ≤ 9223372036 →
          Timeout (config p) = Main.Timeout opts * Second ∧
          ClientTimeout (httpClient p) = Main.Timeout opts * Second)).
Proof.
  destruct (main_cases rt usage listenAndServe opts)
    as [[Hno [err Hrun]]|[Hacc (u & m & p & Hparse & Hh & Hp & run & Hrun & Hs & Hlog)]].
  - eexists. split; [exact Hrun|]. cbn. split; [|split].
    + split; [by intros [? [=]]|done].
    + done.
    + done.
  - exists run. split; [done|]. rewrite Hs. split; [|split].
    { split; [done|]. intros _. by exists p. }
    { done. }
    intros p' [= <-]. exists u, m.
    destruct Hacc as (_ & Ht & _).
    unfold NewProxy in Hp. cbn [TargetURL ListenAddr Timeout CustomHeaders] in Hp.
    rewrite bool_decide_eq_false_2 in Hp by done.
    injection Hp as <-. cbn.
    split; [done|]. split; [done|]. split; [by case_bool_decide|].
    split; [by case_bool_decide|]. split; [by case_bool_decide|].
    split; [done|]. split.
    { rewrite Hlog. cbn. by case_bool_decide. }
    intros Hmax. rewrite (wrap64_small (Main.Timeout opts)) by lia.
    unfold Second. rewrite wrap64_small by lia.
    by rewrite bool_decide_eq_false_2 by lia.
Qed.

Lemma main_serves_witness :
  ∃ run p,
    Main.main (answers ok200) usageText untilClosed
      (inl (cliOptions 45 ["Host: api.example.com"])) = Some run ∧
    Main.served run = Some p ∧
    ListenAddr (config p) = ":8080" ∧ ClientTimeout (httpClient p) = 45 * Second.
Proof.
  destruct (main_serves (answers ok200) usageText untilClosed
              (cliOptions 45 ["Host: api.example.com"]))
    as (run & Hrun & Hacc & _ & Hp).
  destruct (proj2 Hacc) as [p Hs].
  { repeat split; try done.
    - eexists. split; [reflexivity|]. by right.
    - repeat constructor. exists "Host", " api.example.com".
      repeat split; [compute_done|]. intros Hsp. apply TrimSpace_empty in Hsp.
      vm_compute in Hsp. discriminate Hsp. }
  exists run, p. split; [done|]. split; [done|].
  destruct (Hp p Hs) as (u & m & _ & _ & Ha & _ & _ & _ & _ & Ht).
  split; [exact Ha|]. apply Ht. done.
Defined.

(** X5. [validateOptions] puts no upper bound on the timeout and the
    conversion to a duration wraps around: for a timeout of [k * 2^55]
    seconds the duration is zero, so [NewProxy] silently replaces it and
    the proxy runs with the 30-second default. *)
Theorem main_timeout_wraps rt usage listenAndServe opts k :
  accepted rt opts → 1 ≤ k < 256 → Main.Timeout opts = k * 2 ^ 55 →
  ∃ run p,
    Main.main rt usage listenAndServe (inl opts) = Some run ∧
    Main.served run = Some p ∧
    ClientTimeout (httpClient p) = 30 * Second.
Proof.
  intros Hacc Hk Ht.
  destruct (main_cases rt usage listenAndServe opts)
    as [[Hno _]|[_ (u & m & p & Hparse & Hh & Hp & run & Hrun & Hs & Hlog)]]; [done|].
  exists run, p. split; [done|]. split; [done|].
  unfold NewProxy in Hp. cbn [TargetURL ListenAddr Timeout CustomHeaders] in Hp.
  rewrite bool_decide_eq_false_2 in Hp by done.
  assert (wrap64 (wrap64 (Main.Timeout opts) * Second) = 0) as Hw.
  { rewrite Ht. change (2 ^ 55) with 36028797018963968.
    rewrite (wrap64_small (k * 36028797018963968)) by lia.
    unfold wrap64, Second.
    replace (k * 36028797018963968 * 1000000000 + 2 ^ 63)
      with (2 ^ 63 + k * 1953125 * 2 ^ 64) by lia.
    rewrite Z.mod_add by lia. rewrite Z.mod_small; lia. }
  rewrite Hw in Hp. injection Hp as <-. reflexivity.
Qed.

Lemma main_timeout_wraps_witness :
  ∃ run p,
    Main.main (answers ok200) usageText untilClosed
      (inl (cliOptions 36028797018963968 [])) = Some run ∧
    Main.served run = Some p ∧
    ClientTimeout (httpClient p) = 30 * Second.
Proof.
  apply (main_timeout_wraps _ _ _ _ 1).
  - split; [done|]. split; [done|]. split; [done|]. split; [|constructor].
    eexists. split; [reflexivity|]. by right.
  - lia.
  - reflexivity.
Defined.

(** ** What the pipeline keeps *)

Section FrameFacts.

Import GoHttp.

Lemma customLoop_frame cs d :
  Method (customLoop cs d) = Method d ∧ ReqURL (customLoop cs d) = ReqURL d ∧
  Body (customLoop cs d) = Body d ∧ RemoteAddr (customLoop cs d) = RemoteAddr d ∧
  TLS (customLoop cs d) = TLS d.
Proof.
  induction cs as [|nv cs IH] using rev_ind; [done|].
  rewrite customLoop_snoc. cbn zeta. by case_bool_decide.
Qed.

Lemma addForwardedHeaders_fields src dst :
  Method (addForwardedHeaders src dst) = Method dst ∧
  ReqURL (addForwardedHeaders src dst) = ReqURL dst ∧
  Body (addForwardedHeaders src dst) = Body dst ∧
  RemoteAddr (addForwardedHeaders src dst) = RemoteAddr dst ∧
  TLS (addForwardedHeaders src dst) = TLS dst.
Proof. unfold addForwardedHeaders. by repeat case_bool_decide. Qed.

Lemma NewRequest_fields rt method url body req :
  NewRequest rt method url body = inl req →
  Method req = (if bool_decide (method = "") then "GET" else method) ∧
  validMethod (Method req) = true ∧ Body req = body ∧
  ∃ parsed, ParseURL rt url = inl parsed ∧
            ReqURL req = mkURL (Scheme parsed) (removeEmptyPort (URLHost parsed))
                           (Path parsed) (RawQuery parsed).
Proof.
  unfold NewRequest.
  destruct (validMethod _) eqn:Hv; [|done]. cbn.
  destruct (ParseURL rt url) as [parsed|]; [|done].
  intros [= <-]. cbn. repeat split; [done|]. by exists parsed.
Qed.

Lemma carriedAt_nonempty K src :
  carriedAt K src ≠ [] → ∃ kv, kv ∈ src ∧ CanonicalHeaderKey kv.1 = K.
Proof.
  induction src as [|kv src IH]; [done|].
  rewrite carriedAt_cons. case_decide as E.
  - intros _. exists kv. split; [by left|done].
  - cbn. intros (kv' & Hin & HK)%IH. exists kv'. split; [by right|done].
Qed.

Lemma copyLoop_lookup_Some src K vs :
  copyLoop src ∅ !! K = Some vs → vs ≠ [] ∧ CanonicalHeaderKey K = K.
Proof.
  rewrite copyLoop_lookup, lookup_empty.
  destruct (default false _); [done|].
  destruct (carriedAt K src) as [|v vs'] eqn:E; [done|].
  intros [= <-]. split; [done|].
  destruct (carriedAt_nonempty K src) as (kv & _ & <-); [by rewrite E|].
  apply CanonicalHeaderKey_idem.
Qed.

Lemma prepared_lookup_Some rt p r dst K vs :
  prepared rt p r = Some dst → ReqHeader dst !! K = Some vs →
  vs ≠ [] ∧ CanonicalHeaderKey K = K.
Proof.
  intros Hd. rewrite (prepared_lookup rt p r dst K Hd). cbn zeta.
  case_decide as EK; [apply copyLoop_lookup_Some|].
  destruct (lastOverride K _) as [v|] eqn:L; [|apply copyLoop_lookup_Some].
  intros [= <-]. split; [done|].
  apply lastOverride_elem in L as (name & _ & <-). apply CanonicalHeaderKey_idem.
Qed.

End FrameFacts.

(** ** The hop-by-hop filter on the request sent *)

(** C2, as the code has it.  In the request [ServeHTTP] sends, whatever
    the inbound header map holds and in whatever order the ranges visit
    the maps, under a name that no custom header has up to letter case:
    there is no key equal to a hop-by-hop name up to letter case, so
    every inbound header of such a name has lost all its values; and
    every other name that is not a forwarded-context name carries the
    inbound values for it, one outbound value per inbound value, in the
    order visited, which on a map with canonical keys are exactly the
    values the inbound request has under that name. *)
Theorem outbound_filters rt p r out name :
  RangeOK rt → outbound rt p r = Some out →
  (∀ n v, CustomHeaders (config p) !! n = Some v →
          GoHttp.CanonicalHeaderKey n ≠ GoHttp.CanonicalHeaderKey name) →
  (isHopByHop name →
     ReqHeader out !! name = None ∧ GoHttp.Values (ReqHeader out) name = []) ∧
  (¬ isHopByHop name → GoHttp.CanonicalHeaderKey name ∉ forwardedNames →
     GoHttp.Values (ReqHeader out) name = carried (rangeRequest rt (ReqHeader r)) name ∧
     (canonicalKeys (ReqHeader r) →
        GoHttp.Values (ReqHeader out) name = GoHttp.Values (ReqHeader r) name)).
Proof.
  intros ranges Hout Hcustom. split.
  - intros Hhop.
    assert (GoHttp.CanonicalHeaderKey name ∉ forwardedNames) as HF.
    { destruct Hhop as (hop & Hin & HE).
      destruct (hopByHop_canonical hop Hin) as [HV HC].
      rewrite (proj2 (CanonicalHeaderKey_fold name hop HV HC) HE).
      unfold hopByHop in Hin. rewrite !elem_of_cons, elem_of_nil in Hin.
      repeat (destruct Hin as [->|Hin]; [compute_done|]). done. }
    pose proof (outbound_untouched rt p r out name ranges Hout HF Hcustom) as HV.
    rewrite (proj2 (shouldSkipHeader_iff name) Hhop) in HV.
    split; [|done].
    destruct (ReqHeader out !! name) as [vs|] eqn:Hl; [|done]. exfalso.
    destruct (outbound_inv rt p r out Hout) as (dst & Hd & ->).
    assert (name ∉ forwardedNames) as HF'.
    { intros Hin. apply HF. unfold forwardedNames in Hin.
      rewrite !elem_of_cons, elem_of_nil in Hin.
      destruct Hin as [->|[->|[->|[]]]]; compute_done. }
    unfold forwardedNames in HF'. rewrite !not_elem_of_cons in HF'.
    destruct HF' as (NF & NH & NP & _).
    rewrite addForwardedHeaders_lookup, !decide_False in Hl by done.
    destruct (prepared_lookup_Some rt p r dst name vs Hd Hl) as [Hvs HK].
    unfold GoHttp.Values in HV. rewrite HK in HV.
    rewrite addForwardedHeaders_lookup, !decide_False in HV by done.
    rewrite Hl in HV. done.
  - intros Hno HF.
    pose proof (outbound_untouched rt p r out name ranges Hout HF Hcustom) as HV.
    rewrite (proj2 (shouldSkipHeader_false name) Hno) in HV. split; [done|].
    intros Hc. rewrite HV. apply carried_canonical; [apply ranges|done].
Qed.

Lemma outbound_filters_witness :
  ∃ out,
    outbound (answers ok200) (proxyFor backend ∅)
      (inbound "GET" "/" browserHeaders "localhost:8080" "192.168.1.100:12345")
      = Some out ∧
    ReqHeader out !! "Connection" = None ∧
    GoHttp.Values (ReqHeader out) "accept" = ["text/html"; "application/json"].
Proof.
  destruct (outbound (answers ok200) (proxyFor backend ∅)
              (inbound "GET" "/" browserHeaders "localhost:8080" "192.168.1.100:12345"))
    as [out|] eqn:E; [|vm_compute in E; discriminate].
  exists out. split; [done|]. split.
  - refine (proj1 (proj1 (outbound_filters _ _ _ out "Connection"
                            (plainRuntime_ranges _ _) E _) _)).
    + intros n v Hl. cbn in Hl. by rewrite lookup_empty in Hl.
    + apply shouldSkipHeader_iff. by vm_compute.
  - refine (eq_trans
              (proj2 (proj2 (outbound_filters _ _ _ out "accept"
                               (plainRuntime_ranges _ _) E _) _ _)
                 browserHeaders_canonical) _).
    + intros n v Hl. cbn in Hl. by rewrite lookup_empty in Hl.
    + apply shouldSkipHeader_false. by vm_compute.
    + compute_done.
    + by vm_compute.
Defined.

(** C2 as stated fails: the filter is applied to the inbound headers
    only, so a custom [Connection: close] is in the request [ServeHTTP]
    sends. *)
Lemma hop_by_hop_counterexample :
  (∃ out,
     outbound (answers ok200) (proxyFor backend {[ "Connection" := "close" ]})
       plainRequest = Some out ∧
     ReqHeader out !! "Connection" = Some ["close"]) ∧
  ¬ (∀ rt p r out name,
       RangeOK rt → outbound rt p r = Some out → isHopByHop name →
       ReqHeader out !! name = None).
Proof.
  destruct (outbound (answers ok200) (proxyFor backend {[ "Connection" := "close" ]})
              plainRequest) as [out|] eqn:E; [|vm_compute in E; discriminate].
  assert (ReqHeader out !! "Connection" = Some ["close"]) as Hl.
  { vm_compute in E. injection E as <-. reflexivity. }
  split; [by exists out|].
  intros claim.
  assert (isHopByHop "Connection") as Hhop by (apply shouldSkipHeader_iff; by vm_compute).
  specialize (claim _ _ _ out "Connection" (plainRuntime_ranges _ _) E Hhop).
  rewrite Hl in claim. discriminate claim.
Qed.

(** X6. The header pipeline changes nothing but the header map and the
    Host field: the request [ServeHTTP] sends has the inbound method
    ([GET] when that is empty; always a token), the inbound body, and
    the URL that [http.NewRequest] parsed from the printed target URL. *)
Theorem outbound_method_body rt p r out :
  outbound rt p r = Some out →
  Method out = (if bool_decide (Method r = "") then "GET" else Method r) ∧
  GoHttp.validMethod (Method out) = true ∧ Body out = Body r ∧
  ∃ u parsed,
    buildTargetURL p r = Some u ∧ ParseURL rt (URLString rt u) = inl parsed ∧
    ReqURL out = mkURL (Scheme parsed) (GoHttp.removeEmptyPort (URLHost parsed))
                   (Path parsed) (RawQuery parsed).
Proof.
  intros Hout. destruct (outbound_inv rt p r out Hout) as (dst & Hd & ->).
  destruct (prepared_inv rt p r dst Hd) as (t & u & req & Ht & Hu & Hreq).
  rewrite (prepared_eq rt p r t u req Ht Hu Hreq) in Hd. injection Hd as <-.
  destruct (addForwardedHeaders_fields r
              (customLoop (rangeCustom rt (CustomHeaders (config p)))
                 (withHost (withHeader req (copyLoop (rangeRequest rt (ReqHeader r)) ∅))
                    (URLHost t))))
    as (-> & -> & -> & _).
  destruct (customLoop_frame (rangeCustom rt (CustomHeaders (config p)))
              (withHost (withHeader req (copyLoop (rangeRequest rt (ReqHeader r)) ∅))
                 (URLHost t)))
    as (-> & -> & -> & _).
  cbn. destruct (NewRequest_fields rt _ _ _ req Hreq) as (Hm & Hv & Hb & parsed & Hp & HU).
  repeat split; try done. by exists u, parsed.
Qed.

Lemma outbound_method_body_witness :
  ∃ out,
    outbound (answers ok200) (proxyFor backend ∅)
      (mkRequest "DELETE" (mkURL "" "" "/items/7" "") ∅ "payload" "localhost:8080"
         "192.168.1.100:12345" false) = Some out ∧
    Method out = "DELETE" ∧ Body out = "payload".
Proof.
  destruct (outbound (answers ok200) (proxyFor backend ∅)
              (mkRequest "DELETE" (mkURL "" "" "/items/7" "") ∅ "payload" "localhost:8080"
                 "192.168.1.100:12345" false))
    as [out|] eqn:E; [|vm_compute in E; discriminate].
  exists out. split; [done|].
  destruct (outbound_method_body _ _ _ out E) as (Hm & _ & Hb & _).
  by split.
Defined.

(** X7. In the request [ServeHTTP] sends, every key of the header map is
    in canonical form and has at least one value, whatever the keys and
    value lists of the inbound map and the names of the custom headers
    were. *)
Theorem outbound_header_invariant rt p r out K vs :
  outbound rt p r = Some out → ReqHeader out !! K = Some vs →
  vs ≠ [] ∧ GoHttp.CanonicalHeaderKey K = K.
Proof.
  intros Hout. destruct (outbound_inv rt p r out Hout) as (dst & Hd & ->).
  rewrite addForwardedHeaders_lookup.
  destruct (decide (K = "X-Forwarded-Proto")) as [->|NP].
  { by intros [= <-]. }
  destruct (decide (K = "X-Forwarded-Host")) as [->|NH].
  { case_bool_decide; [by intros [= <-]|apply (prepared_lookup_Some rt p r dst _ _ Hd)]. }
  destruct (decide (K = "X-Forwarded-For")) as [->|NF].
  { case_bool_decide; [by intros [= <-]|apply (prepared_lookup_Some rt p r dst _ _ Hd)]. }
  apply (prepared_lookup_Some rt p r dst _ _ Hd).
Qed.

Lemma outbound_header_invariant_witness :
  ∃ out,
    outbound (answers ok200) (proxyFor backend {[ "x-api-key" := "key456" ]})
      (inbound "GET" "/" {[ "accept-language" := ["en"]; "X-Empty" := [] ]}
         "localhost:8080" "192.168.1.100:12345") = Some out ∧
    ReqHeader out !! "Accept-Language" = Some ["en"] ∧
    GoHttp.CanonicalHeaderKey "Accept-Language" = "Accept-Language".
Proof.
  destruct (outbound (answers ok200) (proxyFor backend {[ "x-api-key" := "key456" ]})
              (inbound "GET" "/" {[ "accept-language" := ["en"]; "X-Empty" := [] ]}
                 "localhost:8080" "192.168.1.100:12345"))
    as [out|] eqn:E; [|vm_compute in E; discriminate].
  exists out. split; [done|].
  assert (ReqHeader out !! "Accept-Language" = Some ["en"]) as Hl.
  { vm_compute in E. injection E as <-. reflexivity. }
  split; [done|]. by destruct (outbound_header_invariant _ _ _ out _ _ E Hl).
Defined.

(** X8. [addForwardedHeaders] touches the three forwarded-context keys
    only: every other key of the outbound header map, and the method,
    URL, body and Host of the outbound request, stay as they were. *)
Theorem addForwardedHeaders_frame src dst :
  (∀ K, K ∉ forwardedNames →
        ReqHeader (addForwardedHeaders src dst) !! K = ReqHeader dst !! K) ∧
  Method (addForwardedHeaders src dst) = Method dst ∧
  ReqURL (addForwardedHeaders src dst) = ReqURL dst ∧
  Body (addForwardedHeaders src dst) = Body dst ∧
  Host (addForwardedHeaders src dst) = Host dst.
Proof.
  destruct (addForwardedHeaders_fields src dst) as (Hm & Hu & Hb & _).
  split; [|by rewrite addForwardedHeaders_Host].
  intros K HK. unfold forwardedNames in HK. rewrite !not_elem_of_cons in HK.
  destruct HK as (NF & NH & NP & _).
  by rewrite addForwardedHeaders_lookup, !decide_False.
Qed.

Lemma addForwardedHeaders_frame_witness :
  ReqHeader (addForwardedHeaders plainRequest chained) !! "Authorization"
    = ReqHeader chained !! "Authorization".
Proof.
  apply (proj1 (addForwardedHeaders_frame plainRequest chained)). compute_done.
Defined.


(** ** The forwarding chain *)

(** X9. For an inbound header map with canonical keys and no custom
    X-Forwarded-For: when the client IP is empty the request [ServeHTTP]
    sends carries the inbound X-Forwarded-For values unchanged;
    otherwise it carries one value, the client IP alone when the inbound
    request has no X-Forwarded-For, and else the first inbound value
    followed by [", "] and the client IP, which is then the trimmed
    first entry of that same value: the chain is extended with its own
    first entry, not with the peer address, and further inbound
    X-Forwarded-For values are dropped. *)
Theorem forwarded_for_chain rt p r out :
  RangeOK rt → canonicalKeys (ReqHeader r) → outbound rt p r = Some out →
  (∀ n v, CustomHeaders (config p) !! n = Some v →
          GoHttp.CanonicalHeaderKey n ≠ "X-Forwarded-For") →
  let xff := GoHttp.Get (ReqHeader r) "X-Forwarded-For" in
  (getClientIP r = "" →
     GoHttp.Values (ReqHeader out) "X-Forwarded-For"
       = GoHttp.Values (ReqHeader r) "X-Forwarded-For") ∧
  (getClientIP r ≠ "" → xff = "" →
     GoHttp.Values (ReqHeader out) "X-Forwarded-For" = [getClientIP r]) ∧
  (getClientIP r ≠ "" → xff ≠ "" →
     ∀ first, firstEntryOf xff first →
       GoHttp.Values (ReqHeader out) "X-Forwarded-For"
         = [xff +:+ ", " +:+ GoStrings.TrimSpace first]).
Proof.
  intros ranges Hc Hout Hcustom. cbn zeta.
  destruct (outbound_inv rt p r out Hout) as (dst & Hd & ->).
  assert (default [] (ReqHeader dst !! "X-Forwarded-For")
          = default [] (ReqHeader r !! "X-Forwarded-For")) as Hdst.
  { rewrite (prepared_lookup rt p r dst _ Hd). cbn zeta.
    rewrite decide_False by done. rewrite lastOverride_None.
    2:{ intros [n v] Hin. apply (Hcustom n v). by apply (custom_elem rt ranges). }
    pose proof (Values_copyLoop (rangeRequest rt (ReqHeader r)) ∅ "X-Forwarded-For")
      as HV.
    unfold GoHttp.Values in HV. rewrite canonical_XFF in HV. rewrite HV.
    change (shouldSkipHeader "X-Forwarded-For") with false. cbn match.
    rewrite lookup_empty. cbn.
    pose proof (carried_canonical (ReqHeader r) (rangeRequest rt (ReqHeader r))
                  "X-Forwarded-For" (rangeRequest_perm rt ranges _) Hc) as Hcar.
    unfold GoHttp.Values in Hcar. by rewrite canonical_XFF in Hcar. }
  unfold GoHttp.Values, GoHttp.Get, GoHttp.Values.
  rewrite canonical_XFF, addForwardedHeaders_lookup.
  rewrite !decide_False, decide_True by done. cbn zeta.
  unfold GoHttp.Get, GoHttp.Values. rewrite canonical_XFF, Hdst.
  split; [|split].
  - intros Hip. rewrite bool_decide_eq_false_2 by auto. exact Hdst.
  - intros Hip Hx. rewrite bool_decide_eq_true_2 by done.
    by rewrite bool_decide_eq_false_2 by auto.
  - intros Hip Hx first Hf. rewrite !bool_decide_eq_true_2 by done.
    rewrite (getClientIP_forwarded r first); [done| |done].
    unfold GoHttp.Get, GoHttp.Values. by rewrite canonical_XFF.
Qed.

Lemma forwarded_for_chain_witness :
  ∃ out,
    outbound (answers ok200) (proxyFor backend ∅) twiceForwarded = Some out ∧
    GoHttp.Values (ReqHeader out) "X-Forwarded-For"
      = ["10.0.0.1, 10.0.0.2" +:+ ", " +:+ GoStrings.TrimSpace "10.0.0.1"].
Proof.
  destruct (outbound (answers ok200) (proxyFor backend ∅) twiceForwarded)
    as [out|] eqn:E; [|vm_compute in E; discriminate].
  exists out. split; [done|].
  refine (proj2 (proj2 (forwarded_for_chain _ _ _ out (plainRuntime_ranges _ _) _ E _))
            _ _ "10.0.0.1" _).
  - intros k [v Hk]. cbn in Hk. apply lookup_singleton_Some in Hk as [<- _]. done.
  - intros n v Hl. cbn in Hl. by rewrite lookup_empty in Hl.
  - differ.
  - differ.
  - split; [compute_done|]. right. by exists " 10.0.0.2".
Defined.

(** ** Custom headers and the hop-by-hop filter *)

(** X10. The hop-by-hop filter applies to inbound headers only: a custom
    header with a hop-by-hop name is sent.  The request [ServeHTTP]
    sends carries under that name exactly the custom value (when no
    other custom header has the same canonical name with another
    value), and none of the inbound values. *)
Theorem custom_hop_by_hop_sent rt p r out name value :
  RangeOK rt → outbound rt p r = Some out →
  CustomHeaders (config p) !! name = Some value → isHopByHop name →
  (∀ name' value', CustomHeaders (config p) !! name' = Some value' →
     GoHttp.CanonicalHeaderKey name' = GoHttp.CanonicalHeaderKey name →
     value' = value) →
  GoHttp.Values (ReqHeader out) name = [value].
Proof.
  intros ranges Hout Hc Hhop Hagree.
  destruct (outbound_inv rt p r out Hout) as (dst & Hd & ->).
  destruct Hhop as (hop & Hin & HE).
  destruct (hopByHop_canonical hop Hin) as [HV HC].
  assert (GoHttp.CanonicalHeaderKey name = hop) as HK
    by (by apply CanonicalHeaderKey_fold).
  assert (hop ≠ "Host" ∧ hop ∉ forwardedNames) as [HnH HnF].
  { unfold hopByHop in Hin. rewrite !elem_of_cons, elem_of_nil in Hin.
    repeat (destruct Hin as [->|Hin]; [split; [done|compute_done]|]). done. }
  unfold forwardedNames in HnF. rewrite !not_elem_of_cons in HnF.
  destruct HnF as (NF & NH & NP & _).
  unfold GoHttp.Values. rewrite HK, addForwardedHeaders_lookup.
  rewrite !decide_False by done.
  rewrite (prepared_lookup rt p r dst hop Hd). cbn zeta.
  rewrite decide_False by done.
  rewrite (lastOverride_agree hop _ name value); [done| |done|].
  - by apply (custom_elem rt ranges).
  - intros name' value' Hin' HK'. apply (Hagree name' value').
    + by apply (custom_elem rt ranges).
    + congruence.
Qed.

Lemma custom_hop_by_hop_sent_witness :
  ∃ out,
    outbound (answers ok200) (proxyFor backend {[ "connection" := "close" ]})
      (inbound "GET" "/" browserHeaders "localhost:8080" "192.168.1.100:12345")
      = Some out ∧
    GoHttp.Values (ReqHeader out) "Connection" = ["close"].
Proof.
  destruct (outbound (answers ok200) (proxyFor backend {[ "connection" := "close" ]})
              (inbound "GET" "/" browserHeaders "localhost:8080" "192.168.1.100:12345"))
    as [out|] eqn:E; [|vm_compute in E; discriminate].
  exists out. split; [done|].
  apply (custom_hop_by_hop_sent _ _ _ out "connection" "close"
           (plainRuntime_ranges _ _) E eq_refl).
  - apply shouldSkipHeader_iff. by vm_compute.
  - intros name' value' Hl _. cbn in Hl.
    apply lookup_singleton_Some in Hl as [_ <-]. done.
Defined.

(** ** Peer addresses *)

Section PeerFacts.

Import GoStrings GoNet.

Lemma IndexByte_app l c tail : c ∉ l → IndexByte (l ++ c :: tail) c = Some (length l).
Proof.
  induction l as [|b l IH]; cbn.
  - intros _. by rewrite (proj2 (eqb_true c c)).
  - intros [Hb Hl]%not_elem_of_cons. rewrite (proj2 (eqb_false b c)) by congruence.
    by rewrite IH.
Qed.

(** A bracketed host, which may hold colons, is split from its port. *)
Lemma SplitHostPort_bracket host port :
  ("["%char ∉ Bytes.of_string host) → ("]"%char ∉ Bytes.of_string host) →
  (∀ c, c ∈ [":"; "["; "]"]%char → c ∉ Bytes.of_string port) →
  SplitHostPort ("[" +:+ host +:+ "]:" +:+ port) = Some (host, port).
Proof.
  intros Hh1 Hh2 Hport.
  assert (":"%char ∉ Bytes.of_string port) as Hp1 by (apply Hport; by left).
  assert ("["%char ∉ Bytes.of_string port) as Hp2 by (apply Hport; by right; left).
  assert ("]"%char ∉ Bytes.of_string port) as Hp3 by (apply Hport; by right; right; left).
  unfold SplitHostPort. rewrite !of_string_app.
  change (Bytes.of_string "[") with ["["%char].
  change (Bytes.of_string "]:") with ["]"%char; ":"%char].
  set (h := Bytes.of_string host). set (q := Bytes.of_string port).
  replace (["["%char] ++ h ++ ["]"%char; ":"%char] ++ q)
    with (("["%char :: h ++ ["]"%char]) ++ ":"%char :: q)
    by (cbn; by rewrite <- (assoc_L (++))).
  rewrite LastIndexByte_app by done.
  cbn [app]. rewrite (proj2 (eqb_true "["%char "["%char)) by done.
  replace ("["%char :: (h ++ ["]"%char]) ++ ":"%char :: q)
    with (("["%char :: h) ++ "]"%char :: ":"%char :: q)
    by (cbn; by rewrite <- (assoc_L (++))).
  rewrite IndexByte_app by (rewrite not_elem_of_cons; by split).
  cbn [length]. rewrite length_app. cbn [length].
  rewrite bool_decide_eq_false_2.
  2:{ rewrite length_app. cbn. lia. }
  rewrite bool_decide_eq_true_2 by lia.
  cbn [mbind option_bind].
  assert (hasByte (drop 1 (("["%char :: h) ++ "]"%char :: ":"%char :: q)) "[" = false) as ->.
  { apply hasByte_false. cbn. rewrite drop_0, not_elem_of_app, !not_elem_of_cons. done. }
  assert (drop (S (S (length h))) (("["%char :: h) ++ "]"%char :: ":"%char :: q)
          = ":"%char :: q) as Hdrop.
  { cbn [app drop]. rewrite (cons_middle "]"%char h), app_assoc.
    apply drop_app_length'. rewrite length_app. cbn. lia. }
  rewrite Hdrop.
  assert (hasByte (":"%char :: q) "]" = false) as ->.
  { apply hasByte_false. rewrite not_elem_of_cons. done. }
  f_equal. f_equal.
  - unfold slice. cbn [drop app]. rewrite drop_0.
    replace (S (length h) - 1)%nat with (length h) by lia.
    rewrite take_app_length. apply to_of_string.
  - replace (("["%char :: h) ++ "]"%char :: ":"%char :: q)
      with (("["%char :: h ++ ["]"%char; ":"%char]) ++ q)
      by (cbn; by rewrite <- (assoc_L (++))).
    rewrite drop_app_length'; [apply to_of_string|].
    cbn. rewrite length_app. cbn. lia.
Qed.

(** Without brackets, a second colon is one too many. *)
Lemma SplitHostPort_many_colons a b c :
  (":"%char ∉ Bytes.of_string c) →
  (∀ rest, a +:+ ":" +:+ b +:+ ":" +:+ c ≠ "[" +:+ rest) →
  SplitHostPort (a +:+ ":" +:+ b +:+ ":" +:+ c) = None.
Proof.
  intros Hc Hopen. unfold SplitHostPort.
  remember (Bytes.of_string (a +:+ ":" +:+ b +:+ ":" +:+ c)) as hp eqn:Ehp.
  assert (hp = (Bytes.of_string a ++ ":"%char :: Bytes.of_string b)
               ++ ":"%char :: Bytes.of_string c) as E.
  { rewrite Ehp, !of_string_app. cbn. by rewrite <- (assoc_L (++)). }
  assert (match hp with
          | x :: _ => Bytes.eqb x "["
          | [] => false
          end = false) as ->.
  { destruct hp as [|x l]; [done|].
    apply eqb_false. intros ->. apply (Hopen (Bytes.to_string l)).
    apply of_string_inj. rewrite <- Ehp.
    change ("[" +:+ Bytes.to_string l) with (String "[" (Bytes.to_string l)).
    cbn. by rewrite of_to_string. }
  rewrite E, LastIndexByte_app by done.
  cbn [mbind option_bind]. rewrite take_app_length.
  assert (hasByte (Bytes.of_string a ++ ":"%char :: Bytes.of_string b) ":" = true) as ->.
  { unfold hasByte. apply bool_decide_eq_true.
    destruct (IndexByte _ ":") eqn:I; [eauto|].
    apply IndexByte_None in I. destruct I. apply elem_of_app. right. by left. }
  done.
Qed.

End PeerFacts.

(** X11. With no X-Forwarded-For and no X-Real-IP, the client IP is the
    host of the peer address: the text before the colon of ["host:port"]
    and the text between the brackets of ["[host]:port"].  A peer
    address that has two colons or more and no brackets, such as an
    IPv6 address without a port, is returned whole, and so is one that
    has no colon at all. *)
Theorem getClientIP_peer r :
  GoHttp.Get (ReqHeader r) "X-Forwarded-For" = "" →
  GoHttp.Get (ReqHeader r) "X-Real-IP" = "" →
  (∀ host port,
     RemoteAddr r = host +:+ ":" +:+ port →
     (∀ c, c ∈ [":"; "["; "]"]%char →
           (c ∉ Bytes.of_string host) ∧ (c ∉ Bytes.of_string port)) →
     getClientIP r = host) ∧
  (∀ host port,
     RemoteAddr r = "[" +:+ host +:+ "]:" +:+ port →
     ("["%char ∉ Bytes.of_string host) → ("]"%char ∉ Bytes.of_string host) →
     (∀ c, c ∈ [":"; "["; "]"]%char → c ∉ Bytes.of_string port) →
     getClientIP r = host) ∧
  (∀ a b c,
     RemoteAddr r = a +:+ ":" +:+ b +:+ ":" +:+ c →
     (":"%char ∉ Bytes.of_string c) → (∀ rest, RemoteAddr r ≠ "[" +:+ rest) →
     getClientIP r = RemoteAddr r) ∧
  ((":"%char ∉ Bytes.of_string (RemoteAddr r)) → getClientIP r = RemoteAddr r).
Proof.
  intros Hx Hr. unfold getClientIP. rewrite Hx, Hr.
  rewrite !bool_decide_eq_false_2 by auto.
  split; [|split; [|split]].
  - intros host port -> Hfree. by rewrite SplitHostPort_plain.
  - intros host port -> H1 H2 H3. by rewrite SplitHostPort_bracket.
  - intros a b c E Hc Hopen. rewrite E in *. by rewrite SplitHostPort_many_colons.
  - intros Hno. by rewrite SplitHostPort_no_colon.
Qed.

Lemma getClientIP_peer_witness :
  getClientIP (peerRequest "[2001:db8::1]:443") = "2001:db8::1" ∧
  getClientIP (peerRequest "2001:db8::1") = "2001:db8::1".
Proof.
  split.
  - refine (proj1 (proj2 (getClientIP_peer (peerRequest "[2001:db8::1]:443")
                            eq_refl eq_refl)) "2001:db8::1" "443" eq_refl _ _ _);
      [compute_done|compute_done|].
    intros c Hc. rewrite !elem_of_cons, elem_of_nil in Hc.
    destruct Hc as [->|[->|[->|[]]]]; compute_done.
  - refine (proj1 (proj2 (proj2 (getClientIP_peer (peerRequest "2001:db8::1")
                                   eq_refl eq_refl))) "2001" "db8:" "1" eq_refl _ _).
    + compute_done.
    + intros rest. cbn. discriminate.
Defined.

(** ** The response body *)

(** X12. [ServeHTTP] hands at most one request to the forwarding client,
    and closes the body of the response exactly once when the client
    answered with one, also when copying that body failed; it closes
    nothing when the request could not be built or the client failed. *)
Theorem ServeHTTP_closes_body rt p r w w' :
  ServeHTTP rt p r w = Some ((), w') →
  closed w' = (closed w + (if answered rt p r then 1 else 0))%nat ∧
  (length (sent w') ≤ S (length (sent w)))%nat.
Proof.
  intros Hrun. unfold answered.
  destruct (TargetURL (config p)) as [t|] eqn:Ht.
  2:{ unfold ServeHTTP, bind, orPanic, buildTargetURL in Hrun.
      rewrite Ht in Hrun. done. }
  destruct (buildTargetURL_Some p r t Ht) as [u Hu].
  destruct (NewRequest rt (Method r) (URLString rt u) (Body r)) as [req|err] eqn:Hreq.
  - destruct (outbound_eq rt p r t u req Ht Hu Hreq) as [out Hout]. rewrite Hout.
    destruct (Do rt (httpClient p) out) as [resp|err] eqn:HDo.
    + destruct (ServeHTTP_answered_inv rt p r w w' u out resp Hu Hout HDo Hrun)
        as [-> ->].
      rewrite length_app. cbn. lia.
    + rewrite (ServeHTTP_backend_failed rt p r w u out err Hu Hout HDo) in Hrun.
      injection Hrun as <-. cbn. rewrite length_app. cbn. lia.
  - rewrite (ServeHTTP_construction_failed rt p r w u err Hu Hreq) in Hrun.
    injection Hrun as <-. cbn.
    assert (outbound rt p r = None) as ->.
    { unfold outbound, prepared. rewrite Hu. cbn. by rewrite Hreq. }
    lia.
Qed.

Lemma ServeHTTP_closes_body_witness :
  ∃ w', ServeHTTP hangsUp (proxyFor backend ∅) plainRequest newWorld = Some ((), w') ∧
        closed w' = 1%nat.
Proof.
  destruct (ServeHTTP hangsUp (proxyFor backend ∅) plainRequest newWorld)
    as [[[] w']|] eqn:E; [|vm_compute in E; discriminate].
  exists w'. split; [done|].
  destruct (ServeHTTP_closes_body _ _ _ _ w' E) as [Hc _].
  rewrite Hc. by vm_compute.
Defined.
